(** * x402b wrapped token: EIP-3009 authorizations, deposit and redeem

    A shallow embedding of the two Solidity contracts of the repository,
    [PieWrappedERC20] (the upgradeable wrapper) and [pieUSD] (its
    predecessor), together with the parts of the base contracts they call:
    the ERC-20 ledger, the ECDSA recovery wrappers, the reentrancy guard
    and the SafeERC20 call wrappers.

    Conventions.
    - [uint256], [bytes32], [address] and [uint8] values are integers of [Z];
      checked arithmetic reverts with [Panic 0x11], unchecked arithmetic
      wraps modulo [2^256].
    - A [mapping] is a finite map read with the default value of its range.
      The nested mapping [address => bytes32 => bool] is keyed by the pair.
    - A call is a function from the world before the call to either the
      world after it or a revert.  A reverted call leaves no trace: the
      world after a failed transaction is the world before it
      ([transact]). *)

From Stdlib Require Import ZArith List Lia Bool.
From Stdlib Require Strings.Byte.
From stdpp Require Import base option gmap list.

Local Open Scope Z_scope.

(** ** Machine integers *)

Definition UINT256_MOD : Z := 2 ^ 256.
Definition UINT8_MOD : Z := 2 ^ 8.

Definition is_uint256 (x : Z) : Prop := 0 <= x < UINT256_MOD.
Definition is_uint8 (x : Z) : Prop := 0 <= x < UINT8_MOD.

(** ** Errors, events and storage *)

Inductive Error : Type :=
  (* custom errors of the wrapper *)
  | AmountMustBeGreaterThanZero
  | InsufficientBalance
  | UnauthorizedReceiver
  | TransferAmountMismatch
  | AuthorizationExpired
  | AuthorizationNotYetValid
  | AuthorizationAlreadyUsed
  | InvalidAuthorization
  (* custom errors and require strings of pieUSD *)
  | DepositFailed
  | RedeemFailed
  | RequireAmountPositive        (* "Amount must be > 0" *)
  | RequireSufficientBalance     (* "Insufficient balance" *)
  (* ERC-20 base contract *)
  | ERC20InsufficientBalance (sender : Z) (balance needed : Z)
  | ERC20InvalidSender (sender : Z)
  | ERC20InvalidReceiver (receiver : Z)
  (* ECDSA library *)
  | ECDSAInvalidSignature
  | ECDSAInvalidSignatureLength (length : Z)
  | ECDSAInvalidSignatureS (s : Z)
  (* reentrancy guard, SafeERC20, the callee, the EVM *)
  | ReentrancyGuardReentrantCall
  | SafeERC20FailedOperation
  | ERC20InsufficientAllowance (spender : Z) (allowance needed : Z)
  | ExternalCallReverted
  | ReturnDataDecodeFailed
  | Panic (code : Z).

Inductive Event : Type :=
  | Deposit (user amount : Z)
  | Redeem (user amount : Z)
  | AuthorizationUsed (authorizer to value nonce : Z)
  | AuthorizationUsedLegacy (authorizer nonce : Z)
  | AuthorizationCanceled (authorizer nonce : Z)
  | Transfer (from to value : Z).

(** Storage of the wrapped token: the ERC-20 ledger it inherits, the
    EIP-3009 registry and the status word of the reentrancy guard. *)
Record Storage : Type := mkStorage {
  _balances : gmap Z Z;
  _totalSupply : Z;
  _authorizationStates : gmap (Z * Z) bool;
  _status : Z
}.

Definition NOT_ENTERED : Z := 1.
Definition ENTERED : Z := 2.

(** Ledger of the underlying token, an ERC-20 of its own. *)
Record TokenLedger : Type := mkTokenLedger {
  tl_balances : gmap Z Z;
  tl_allowances : gmap (Z * Z) Z
}.

Record World : Type := mkWorld {
  pie : Storage;
  usd : TokenLedger;
  logs : list Event
}.

(** Transaction context: [msg.sender] and [block.timestamp]. *)
Record Env : Type := mkEnv {
  msg_sender : Z;
  block_timestamp : Z
}.

(** ** Calls: state passing with reverts *)

Inductive Result (A : Type) : Type :=
  | Ok (a : A) (w : World)
  | Revert (e : Error).
Arguments Ok {A} a w.
Arguments Revert {A} e.

Definition M (A : Type) : Type := World -> Result A.

Definition ret {A} (a : A) : M A := fun w => Ok a w.
Definition bind {A B} (c : M A) (k : A -> M B) : M B :=
  fun w => match c w with
           | Ok a w' => k a w'
           | Revert e => Revert e
           end.
Definition revert {A} (e : Error) : M A := fun _ => Revert e.
Definition get : M World := fun w => Ok w w.
Definition put_pie (s : Storage) : M unit :=
  fun w => Ok tt (mkWorld s (usd w) (logs w)).
Definition emit (ev : Event) : M unit :=
  fun w => Ok tt (mkWorld (pie w) (usd w) (logs w ++ [ev])).

Declare Scope evm_scope.
Delimit Scope evm_scope with evm.
Notation "'let*' x ':=' c 'in' k" := (bind c (fun x => k))
  (at level 10, x name, c at level 100, k at level 200) : evm_scope.
Notation "c '>>' k" := (bind c (fun _ => k))
  (at level 100, k at level 200, right associativity) : evm_scope.
Local Open Scope evm_scope.

(** [if (cond) revert E();] *)
Definition revert_if (cond : bool) (e : Error) : M unit :=
  if cond then revert e else ret tt.

(** Outcome of a transaction at the top level: a revert rolls the world
    back to what it was. *)
Definition transact (c : M unit) (w : World) : World * option Error :=
  match c w with
  | Ok _ w' => (w', None)
  | Revert e => (w, Some e)
  end.

(** ** ERC-20 base contract

    The wrapper inherits its ledger from the ERC-20 base contract it
    imports; the functions below are the ones it calls. *)

Definition balance_in (s : Storage) (account : Z) : Z :=
  default 0 (_balances s !! account).

Definition balanceOf (w : World) (account : Z) : Z := balance_in (pie w) account.
Definition totalSupply (w : World) : Z := _totalSupply (pie w).

Definition set_balance (s : Storage) (account value : Z) : Storage :=
  mkStorage (<[account := value]> (_balances s)) (_totalSupply s)
            (_authorizationStates s) (_status s).
Definition set_totalSupply (s : Storage) (value : Z) : Storage :=
  mkStorage (_balances s) value (_authorizationStates s) (_status s).
Definition set_authorization (s : Storage) (authorizer nonce : Z) (b : bool) : Storage :=
  mkStorage (_balances s) (_totalSupply s)
            (<[(authorizer, nonce) := b]> (_authorizationStates s)) (_status s).
Definition set_status (s : Storage) (value : Z) : Storage :=
  mkStorage (_balances s) (_totalSupply s) (_authorizationStates s) value.

(** Modelled from the spec: the ERC-20 base contract is imported, not among
    the sources.  "Move value from [from] to [to]", "credit wrapped balance"
    and "burn wrapped balance" are taken as the ledger update of the
    imported base: a zero [from] mints (checked addition to the total
    supply), a zero [to] burns, a debit needs the balance, and the balance
    of [to] is credited unchecked. *)
Definition _update (from to value : Z) : M unit :=
  (let* w := get in
   if from =? 0 then
     if _totalSupply (pie w) + value <? UINT256_MOD
     then put_pie (set_totalSupply (pie w) (_totalSupply (pie w) + value))
     else revert (Panic 0x11)
   else
     let fromBalance := balance_in (pie w) from in
     if fromBalance <? value
     then revert (ERC20InsufficientBalance from fromBalance value)
     else put_pie (set_balance (pie w) from (fromBalance - value))) >>
  (let* w := get in
   if to =? 0 then
     put_pie (set_totalSupply (pie w) ((_totalSupply (pie w) - value) mod UINT256_MOD))
   else
     put_pie (set_balance (pie w) to ((balance_in (pie w) to + value) mod UINT256_MOD))) >>
  emit (Transfer from to value).

(** Modelled from the spec: "move value from [from] to [to]"; neither end
    may be the zero address. *)
Definition _transfer (from to value : Z) : M unit :=
  revert_if (from =? 0) (ERC20InvalidSender 0) >>
  revert_if (to =? 0) (ERC20InvalidReceiver 0) >>
  _update from to value.

(** Modelled from the spec: "credit wrapped balance". *)
Definition _mint (account value : Z) : M unit :=
  revert_if (account =? 0) (ERC20InvalidReceiver 0) >>
  _update 0 account value.

(** Modelled from the spec: "burn wrapped balance". *)
Definition _burn (account value : Z) : M unit :=
  revert_if (account =? 0) (ERC20InvalidSender 0) >>
  _update account 0 value.

(** ** Environment of the contract

    The hash functions and the [ecrecover] precompile are left abstract;
    the three type hashes are the constants of the contract. *)
Record Platform : Type := mkPlatform {
  self : Z;                               (* address(this) *)
  keccak256 : list Z -> Z;                (* keccak256(abi.encode(words)) *)
  _hashTypedDataV4 : Z -> Z;              (* EIP-712 digest under the contract's domain *)
  ecrecover : Z -> Z -> Z -> Z -> Z;      (* precompile 0x01; zero when it fails *)
  TRANSFER_WITH_AUTHORIZATION_TYPEHASH : Z;
  RECEIVE_WITH_AUTHORIZATION_TYPEHASH : Z;
  CANCEL_AUTHORIZATION_TYPEHASH : Z
}.

(** ** ECDSA library: the two recovery entry points *)

(** Modelled from the spec: the ECDSA library is imported, not among the
    sources.  "Recover the signing party" in its two encodings, "structured
    v/r/s vs. packed byte signature ... one internal canonical signature
    type with two parsing adapters at the boundary", is taken as the
    imported library has it: the packed form is 65 bytes, [r] then [s] as
    32 big-endian bytes each, then [v]; both entry points end in the same
    recovery, which rejects an [s] in the upper half of the curve order and
    a zero signer. *)
Module ECDSA.

Inductive RecoverError : Type :=
  | NoError
  | InvalidSignature
  | InvalidSignatureLength
  | InvalidSignatureS.

Definition HALF_ORDER : Z :=
  0x7FFFFFFFFFFFFFFFFFFFFFFFFFFFFFFF5D576E7357A4501DDFE92F46681B20A0.

(** Big-endian value of a run of bytes, as [mload] reads it. *)
Definition be_to_Z (bs : list Byte.byte) : Z :=
  fold_left (fun acc b => acc * 256 + Z.of_N (Byte.to_N b)) bs 0.

Definition sig_r (signature : list Byte.byte) : Z := be_to_Z (take 32 signature).
Definition sig_s (signature : list Byte.byte) : Z := be_to_Z (take 32 (drop 32 signature)).
Definition sig_v (signature : list Byte.byte) : Z := be_to_Z (take 1 (drop 64 signature)).

Section Recover.
Context (P : Platform).

(** Modelled from the spec: recovery from the structured form. *)
Definition tryRecover (hash v r s : Z) : Z * RecoverError * Z :=
  if HALF_ORDER <? s then (0, InvalidSignatureS, s)
  else
    let signer := ecrecover P hash v r s in
    if signer =? 0 then (0, InvalidSignature, 0)
    else (signer, NoError, 0).

(** Modelled from the spec: the adapter for the packed form; 65
    bytes are split into [r], [s], [v] and handed to [tryRecover]. *)
Definition tryRecover_sig (hash : Z) (signature : list Byte.byte) : Z * RecoverError * Z :=
  if (length signature =? 65)%nat then
    tryRecover hash (sig_v signature) (sig_r signature) (sig_s signature)
  else (0, InvalidSignatureLength, Z.of_nat (length signature)).

Definition _throwError (error : RecoverError) (errorArg : Z) : M unit :=
  match error with
  | NoError => ret tt
  | InvalidSignature => revert ECDSAInvalidSignature
  | InvalidSignatureLength => revert (ECDSAInvalidSignatureLength errorArg)
  | InvalidSignatureS => revert (ECDSAInvalidSignatureS errorArg)
  end.

Definition recover (hash v r s : Z) : M Z :=
  let '(recovered, error, errorArg) := tryRecover hash v r s in
  _throwError error errorArg >> ret recovered.

Definition recover_sig (hash : Z) (signature : list Byte.byte) : M Z :=
  let '(recovered, error, errorArg) := tryRecover_sig hash signature in
  _throwError error errorArg >> ret recovered.
End Recover.

(** The packed form of a signature: [r], [s] as 32 big-endian bytes each,
    then the byte [v]. *)
Definition byte_of_Z (z : Z) : Byte.byte :=
  default Byte.x00 (Byte.of_N (Z.to_N (z mod 256))).

Fixpoint Z_to_be (n : nat) (z : Z) : list Byte.byte :=
  match n with
  | O => []
  | S n' => Z_to_be n' (z / 256) ++ [byte_of_Z z]
  end.

Definition pack (v r s : Z) : list Byte.byte :=
  Z_to_be 32 r ++ Z_to_be 32 s ++ Z_to_be 1 v.

End ECDSA.

(** ** The underlying token, seen through [IERC20]

    A call to the underlying token runs foreign code: it may change the
    world (re-entering the wrapper included), return nothing, return a
    boolean, or revert.  [balanceOf] is a static call and changes nothing. *)
Record IERC20 : Type := mkIERC20 {
  ierc20_balanceOf : Z -> World -> option Z;
  ierc20_transfer : Z -> Z -> Z -> M (option bool);        (* caller, to, value *)
  ierc20_transferFrom : Z -> Z -> Z -> Z -> M (option bool) (* caller, from, to, value *)
}.

(** Modelled from the spec: SafeERC20 is imported, not among the sources.
    "Lock external funds" and "release external funds" go through its
    wrappers: a revert of the callee bubbles up, a returned [false] is a
    failure, an empty return is accepted. *)
Module SafeERC20.
Definition _callOptionalReturn (call : M (option bool)) : M unit :=
  let* returndata := call in
  match returndata with
  | Some false => revert SafeERC20FailedOperation
  | _ => ret tt
  end.

Definition safeTransfer (token : IERC20) (caller to value : Z) : M unit :=
  _callOptionalReturn (ierc20_transfer token caller to value).

Definition safeTransferFrom (token : IERC20) (caller from to value : Z) : M unit :=
  _callOptionalReturn (ierc20_transferFrom token caller from to value).
End SafeERC20.

(** A high-level interface call [bool ok = token.f(...)]: the return data
    must decode as a boolean. *)
Definition call_returning_bool (call : M (option bool)) : M bool :=
  let* returndata := call in
  match returndata with
  | Some b => ret b
  | None => revert ReturnDataDecodeFailed
  end.

Definition static_balanceOf (token : IERC20) (account : Z) : M Z :=
  fun w => match ierc20_balanceOf token account w with
           | Some b => Ok b w
           | None => Revert ExternalCallReverted
           end.

(** Checked subtraction of Solidity 0.8. *)
Definition checked_sub (a b : Z) : M Z :=
  if a <? b then revert (Panic 0x11) else ret (a - b).

(** ** Reentrancy guard *)

(** Modelled from the spec: the guard is imported, not among the sources.
    "Reentrancy-safe" is taken as the status word of the imported guard: a
    guarded function reverts when entered while the word is [ENTERED], sets
    it for the time of its body and resets it afterwards. *)
Definition _nonReentrantBefore : M unit :=
  let* w := get in
  revert_if (_status (pie w) =? ENTERED) ReentrancyGuardReentrantCall >>
  put_pie (set_status (pie w) ENTERED).

Definition _nonReentrantAfter : M unit :=
  let* w := get in
  put_pie (set_status (pie w) NOT_ENTERED).

Definition nonReentrant (body : M unit) : M unit :=
  _nonReentrantBefore >> body >> _nonReentrantAfter.

(** ** EIP-3009 registry

    The registry, its query and the two private checks read the same in
    [PieWrappedERC20] and in [pieUSD]; they are embedded once. *)
Definition authorization_in (s : Storage) (authorizer nonce : Z) : bool :=
  default false (_authorizationStates s !! (authorizer, nonce)).

Definition authorizationState (authorizer nonce : Z) (w : World) : bool :=
  authorization_in (pie w) authorizer nonce.

Definition _requireUnusedAuthorization (authorizer nonce : Z) : M unit :=
  let* w := get in
  revert_if (authorization_in (pie w) authorizer nonce) AuthorizationAlreadyUsed.

Definition _requireValidAuthorization (env : Env)
    (authorizer nonce validAfter validBefore : Z) : M unit :=
  revert_if (block_timestamp env <? validAfter) AuthorizationNotYetValid >>
  revert_if (validBefore <? block_timestamp env) AuthorizationExpired >>
  _requireUnusedAuthorization authorizer nonce.

Definition mark_authorization (authorizer nonce : Z) : M unit :=
  let* w := get in
  put_pie (set_authorization (pie w) authorizer nonce true).

(** ** PieWrappedERC20 *)
Module PieWrappedERC20.
Section Contract.
Context (P : Platform) (underlying : IERC20).

Definition deposit (env : Env) (amount : Z) : M unit :=
  nonReentrant (
    revert_if (amount =? 0) AmountMustBeGreaterThanZero >>
    let* balanceBefore := static_balanceOf underlying (self P) in
    SafeERC20.safeTransferFrom underlying (self P) (msg_sender env) (self P) amount >>
    let* balanceAfter := static_balanceOf underlying (self P) in
    let* received := checked_sub balanceAfter balanceBefore in
    revert_if (negb (received =? amount)) TransferAmountMismatch >>
    _mint (msg_sender env) received >>
    emit (Deposit (msg_sender env) received)).

Definition redeem (env : Env) (amount : Z) : M unit :=
  nonReentrant (
    revert_if (amount =? 0) AmountMustBeGreaterThanZero >>
    let* w := get in
    revert_if (balanceOf w (msg_sender env) <? amount) InsufficientBalance >>
    _burn (msg_sender env) amount >>
    SafeERC20.safeTransfer underlying (self P) (msg_sender env) amount >>
    emit (Redeem (msg_sender env) amount)).

Definition _executeAuthorization (authorizer to value nonce : Z) : M unit :=
  mark_authorization authorizer nonce >>
  emit (AuthorizationUsed authorizer to value nonce).

Definition transferWithAuthorization (env : Env)
    (from to value validAfter validBefore nonce v r s : Z) : M unit :=
  _requireValidAuthorization env from nonce validAfter validBefore >>
  let structHash :=
    keccak256 P [TRANSFER_WITH_AUTHORIZATION_TYPEHASH P;
                 from; to; value; validAfter; validBefore; nonce] in
  let digest := _hashTypedDataV4 P structHash in
  let* signer := ECDSA.recover P digest v r s in
  revert_if (negb (signer =? from)) InvalidAuthorization >>
  _executeAuthorization from to value nonce >>
  _transfer from to value.

Definition transferWithAuthorization_sig (env : Env)
    (from to value validAfter validBefore nonce : Z)
    (signature : list Byte.byte) : M unit :=
  _requireValidAuthorization env from nonce validAfter validBefore >>
  let structHash :=
    keccak256 P [TRANSFER_WITH_AUTHORIZATION_TYPEHASH P;
                 from; to; value; validAfter; validBefore; nonce] in
  let digest := _hashTypedDataV4 P structHash in
  let* signer := ECDSA.recover_sig P digest signature in
  revert_if (negb (signer =? from)) InvalidAuthorization >>
  _executeAuthorization from to value nonce >>
  _transfer from to value.

Definition receiveWithAuthorization (env : Env)
    (from to value validAfter validBefore nonce v r s : Z) : M unit :=
  revert_if (negb (to =? msg_sender env)) UnauthorizedReceiver >>
  _requireValidAuthorization env from nonce validAfter validBefore >>
  let structHash :=
    keccak256 P [RECEIVE_WITH_AUTHORIZATION_TYPEHASH P;
                 from; to; value; validAfter; validBefore; nonce] in
  let digest := _hashTypedDataV4 P structHash in
  let* signer := ECDSA.recover P digest v r s in
  revert_if (negb (signer =? from)) InvalidAuthorization >>
  _executeAuthorization from to value nonce >>
  _transfer from to value.

Definition receiveWithAuthorization_sig (env : Env)
    (from to value validAfter validBefore nonce : Z)
    (signature : list Byte.byte) : M unit :=
  revert_if (negb (to =? msg_sender env)) UnauthorizedReceiver >>
  _requireValidAuthorization env from nonce validAfter validBefore >>
  let structHash :=
    keccak256 P [RECEIVE_WITH_AUTHORIZATION_TYPEHASH P;
                 from; to; value; validAfter; validBefore; nonce] in
  let digest := _hashTypedDataV4 P structHash in
  let* signer := ECDSA.recover_sig P digest signature in
  revert_if (negb (signer =? from)) InvalidAuthorization >>
  _executeAuthorization from to value nonce >>
  _transfer from to value.

Definition cancelAuthorization (env : Env) (authorizer nonce v r s : Z) : M unit :=
  _requireUnusedAuthorization authorizer nonce >>
  let structHash :=
    keccak256 P [CANCEL_AUTHORIZATION_TYPEHASH P; authorizer; nonce] in
  let digest := _hashTypedDataV4 P structHash in
  let* signer := ECDSA.recover P digest v r s in
  revert_if (negb (signer =? authorizer)) InvalidAuthorization >>
  mark_authorization authorizer nonce >>
  emit (AuthorizationCanceled authorizer nonce).

Definition getReserves : M Z := static_balanceOf underlying (self P).

(** The external functions the contract declares, as one datatype, and
    the execution of a list of transactions. *)
Inductive Call : Type :=
  | CallDeposit (amount : Z)
  | CallRedeem (amount : Z)
  | CallTransfer (from to value validAfter validBefore nonce v r s : Z)
  | CallTransferSig (from to value validAfter validBefore nonce : Z)
                    (signature : list Byte.byte)
  | CallReceive (from to value validAfter validBefore nonce v r s : Z)
  | CallReceiveSig (from to value validAfter validBefore nonce : Z)
                   (signature : list Byte.byte)
  | CallCancel (authorizer nonce v r s : Z).

Definition exec (env : Env) (c : Call) : M unit :=
  match c with
  | CallDeposit amount => deposit env amount
  | CallRedeem amount => redeem env amount
  | CallTransfer from to value va vb nonce v r s =>
      transferWithAuthorization env from to value va vb nonce v r s
  | CallTransferSig from to value va vb nonce signature =>
      transferWithAuthorization_sig env from to value va vb nonce signature
  | CallReceive from to value va vb nonce v r s =>
      receiveWithAuthorization env from to value va vb nonce v r s
  | CallReceiveSig from to value va vb nonce signature =>
      receiveWithAuthorization_sig env from to value va vb nonce signature
  | CallCancel authorizer nonce v r s =>
      cancelAuthorization env authorizer nonce v r s
  end.

Fixpoint run (txs : list (Env * Call)) (w : World) : World :=
  match txs with
  | [] => w
  | (env, c) :: rest => run rest (fst (transact (exec env c) w))
  end.
End Contract.

(** The registry entry a call is about, if any. *)
Definition call_authorization (c : Call) : option (Z * Z) :=
  match c with
  | CallDeposit _ | CallRedeem _ => None
  | CallTransfer from _ _ _ _ nonce _ _ _
  | CallTransferSig from _ _ _ _ nonce _
  | CallReceive from _ _ _ _ nonce _ _ _
  | CallReceiveSig from _ _ _ _ nonce _ => Some (from, nonce)
  | CallCancel authorizer nonce _ _ _ => Some (authorizer, nonce)
  end.

Definition in_window (env : Env) (validAfter validBefore : Z) : bool :=
  (validAfter <=? block_timestamp env) && (block_timestamp env <=? validBefore).

(** The checks that the source places before the registry lookup pass:
    the time window for a transfer, the caller and the time window for a
    receive, nothing for a cancel. *)
Definition registry_reached (env : Env) (c : Call) : bool :=
  match c with
  | CallDeposit _ | CallRedeem _ => false
  | CallTransfer _ _ _ va vb _ _ _ _
  | CallTransferSig _ _ _ va vb _ _ => in_window env va vb
  | CallReceive _ to _ va vb _ _ _ _
  | CallReceiveSig _ to _ va vb _ _ => (to =? msg_sender env) && in_window env va vb
  | CallCancel _ _ _ _ _ => true
  end.

(** The error of the first check that the source places before the
    registry lookup and that fails, if there is one: the caller check of
    a receive, then the two time checks in the order of
    [_requireValidAuthorization]. *)
Definition earlier_error (env : Env) (c : Call) : option Error :=
  let window validAfter validBefore :=
    if block_timestamp env <? validAfter then Some AuthorizationNotYetValid
    else if validBefore <? block_timestamp env then Some AuthorizationExpired
    else None in
  match c with
  | CallDeposit _ | CallRedeem _ => None
  | CallTransfer _ _ _ va vb _ _ _ _
  | CallTransferSig _ _ _ va vb _ _ => window va vb
  | CallReceive _ to _ va vb _ _ _ _
  | CallReceiveSig _ to _ va vb _ _ =>
      if to =? msg_sender env then window va vb else Some UnauthorizedReceiver
  | CallCancel _ _ _ _ _ => None
  end.
End PieWrappedERC20.

(** ** pieUSD, the earlier contract *)
Module PieUSD.
Section Contract.
Context (P : Platform) (usdt : IERC20).

Definition deposit (env : Env) (amount : Z) : M unit :=
  revert_if (negb (0 <? amount)) RequireAmountPositive >>
  let* success :=
    call_returning_bool
      (ierc20_transferFrom usdt (self P) (msg_sender env) (self P) amount) in
  revert_if (negb success) DepositFailed >>
  _mint (msg_sender env) amount >>
  emit (Deposit (msg_sender env) amount).

Definition redeem (env : Env) (amount : Z) : M unit :=
  revert_if (negb (0 <? amount)) RequireAmountPositive >>
  let* w := get in
  revert_if (negb (amount <=? balanceOf w (msg_sender env))) RequireSufficientBalance >>
  _burn (msg_sender env) amount >>
  let* success :=
    call_returning_bool (ierc20_transfer usdt (self P) (msg_sender env) amount) in
  revert_if (negb success) RedeemFailed >>
  emit (Redeem (msg_sender env) amount).

Definition transferWithAuthorization (env : Env)
    (from to value validAfter validBefore nonce v r s : Z) : M unit :=
  _requireValidAuthorization env from nonce validAfter validBefore >>
  let structHash :=
    keccak256 P [TRANSFER_WITH_AUTHORIZATION_TYPEHASH P;
                 from; to; value; validAfter; validBefore; nonce] in
  let digest := _hashTypedDataV4 P structHash in
  let* signer := ECDSA.recover P digest v r s in
  revert_if (negb (signer =? from)) InvalidAuthorization >>
  mark_authorization from nonce >>
  emit (AuthorizationUsedLegacy from nonce) >>
  _transfer from to value.

Definition transferWithAuthorization_sig (env : Env)
    (from to value validAfter validBefore nonce : Z)
    (signature : list Byte.byte) : M unit :=
  _requireValidAuthorization env from nonce validAfter validBefore >>
  let structHash :=
    keccak256 P [TRANSFER_WITH_AUTHORIZATION_TYPEHASH P;
                 from; to; value; validAfter; validBefore; nonce] in
  let digest := _hashTypedDataV4 P structHash in
  let* signer := ECDSA.recover_sig P digest signature in
  revert_if (negb (signer =? from)) InvalidAuthorization >>
  mark_authorization from nonce >>
  emit (AuthorizationUsedLegacy from nonce) >>
  _transfer from to value.

Definition cancelAuthorization (env : Env) (authorizer nonce v r s : Z) : M unit :=
  _requireUnusedAuthorization authorizer nonce >>
  let structHash :=
    keccak256 P [CANCEL_AUTHORIZATION_TYPEHASH P; authorizer; nonce] in
  let digest := _hashTypedDataV4 P structHash in
  let* signer := ECDSA.recover P digest v r s in
  revert_if (negb (signer =? authorizer)) InvalidAuthorization >>
  mark_authorization authorizer nonce >>
  emit (AuthorizationCanceled authorizer nonce).

Definition getReserves : M Z := static_balanceOf usdt (self P).
End Contract.
End PieUSD.

(** ** A plain ERC-20 as the underlying token *)

(** Modelled from the spec: the external token whose funds [deposit] locks
    and [redeem] releases 1:1 lives outside the repository.  It is taken to
    be a plain ERC-20 ledger: balances and allowances, no fee, no callback,
    [true] returned on success. *)
Module StandardToken.
Definition balance (l : TokenLedger) (account : Z) : Z :=
  default 0 (tl_balances l !! account).
Definition allowance (l : TokenLedger) (owner spender : Z) : Z :=
  default 0 (tl_allowances l !! (owner, spender)).

Definition put_usd (l : TokenLedger) : M unit :=
  fun w => Ok tt (mkWorld (pie w) l (logs w)).

Definition set_balance (l : TokenLedger) (account value : Z) : TokenLedger :=
  mkTokenLedger (<[account := value]> (tl_balances l)) (tl_allowances l).
Definition set_allowance (l : TokenLedger) (owner spender value : Z) : TokenLedger :=
  mkTokenLedger (tl_balances l) (<[(owner, spender) := value]> (tl_allowances l)).

Definition move (from to value : Z) : M unit :=
  revert_if (from =? 0) (ERC20InvalidSender 0) >>
  revert_if (to =? 0) (ERC20InvalidReceiver 0) >>
  let* w := get in
  let fromBalance := balance (usd w) from in
  revert_if (fromBalance <? value) (ERC20InsufficientBalance from fromBalance value) >>
  put_usd (set_balance (usd w) from (fromBalance - value)) >>
  let* w := get in
  put_usd (set_balance (usd w) to ((balance (usd w) to + value) mod UINT256_MOD)).

Definition spendAllowance (owner spender value : Z) : M unit :=
  let* w := get in
  let currentAllowance := allowance (usd w) owner spender in
  if currentAllowance =? UINT256_MOD - 1 then ret tt
  else
    revert_if (currentAllowance <? value)
              (ERC20InsufficientAllowance spender currentAllowance value) >>
    put_usd (set_allowance (usd w) owner spender (currentAllowance - value)).

Definition transfer (caller to value : Z) : M (option bool) :=
  move caller to value >> ret (Some true).

Definition transferFrom (caller from to value : Z) : M (option bool) :=
  spendAllowance from caller value >>
  move from to value >>
  ret (Some true).

Definition token : IERC20 := {|
  ierc20_balanceOf := fun account w => Some (balance (usd w) account);
  ierc20_transfer := transfer;
  ierc20_transferFrom := transferFrom
|}.
End StandardToken.

(** ** A concrete platform for worked examples

    A toy signature scheme stands in for secp256k1: the signature
    [(27, signer, digest)] is the signature of [digest] by [signer]. *)
Module Demo.
Definition keccak (words : list Z) : Z :=
  fold_left (fun acc x => (acc * 31 + x) mod 1000003) words 7.

Definition recover_toy (hash v r s : Z) : Z :=
  if (v =? 27) && (s =? hash) then r else 0.

Definition platform : Platform := {|
  self := 900;
  keccak256 := keccak;
  _hashTypedDataV4 := fun structHash => (structHash * 17 + 5) mod 1000003;
  ecrecover := recover_toy;
  TRANSFER_WITH_AUTHORIZATION_TYPEHASH := 101;
  RECEIVE_WITH_AUTHORIZATION_TYPEHASH := 102;
  CANCEL_AUTHORIZATION_TYPEHASH := 103
|}.

Definition alice : Z := 11.
Definition bob : Z := 22.
Definition carol : Z := 33.

(** Alice holds 100 wrapped tokens and 50 underlying ones, of which the
    wrapper may pull 40; the wrapper holds the 100 underlying tokens that
    back the supply. *)
Definition world0 : World := {|
  pie := {| _balances := {[ alice := 100 ]};
            _totalSupply := 100;
            _authorizationStates := ∅;
            _status := NOT_ENTERED |};
  usd := {| tl_balances := {[ alice := 50; 900 := 100 ]};
            tl_allowances := {[ (alice, 900) := 40 ]} |};
  logs := []
|}.

Definition at_time (sender t : Z) : Env := {| msg_sender := sender; block_timestamp := t |}.

Definition transfer_digest (from to value va vb nonce : Z) : Z :=
  _hashTypedDataV4 platform
    (keccak256 platform [TRANSFER_WITH_AUTHORIZATION_TYPEHASH platform;
                         from; to; value; va; vb; nonce]).
Definition receive_digest (from to value va vb nonce : Z) : Z :=
  _hashTypedDataV4 platform
    (keccak256 platform [RECEIVE_WITH_AUTHORIZATION_TYPEHASH platform;
                         from; to; value; va; vb; nonce]).
Definition cancel_digest (authorizer nonce : Z) : Z :=
  _hashTypedDataV4 platform
    (keccak256 platform [CANCEL_AUTHORIZATION_TYPEHASH platform; authorizer; nonce]).
End Demo.

(** ** Closed forms of the authorization entry points *)

(** World after a settled authorization: the registry entry is set, the
    value is moved, and the two events are logged. *)
Definition settled (used : Event) (w : World) (from to value nonce : Z) : World :=
  let s1 := set_authorization (pie w) from nonce true in
  let s2 := set_balance s1 from (balance_in s1 from - value) in
  let s3 := set_balance s2 to ((balance_in s2 to + value) mod UINT256_MOD) in
  mkWorld s3 (usd w) (logs w ++ [used; Transfer from to value]).

Definition canceled (w : World) (authorizer nonce : Z) : World :=
  mkWorld (set_authorization (pie w) authorizer nonce true) (usd w)
          (logs w ++ [AuthorizationCanceled authorizer nonce]).

(** What the code does once every check has passed. *)
Definition settle (used : Event) (from to value nonce : Z) : M unit :=
  fun w =>
    if from =? 0 then Revert (ERC20InvalidSender 0)
    else if to =? 0 then Revert (ERC20InvalidReceiver 0)
    else if balanceOf w from <? value
         then Revert (ERC20InsufficientBalance from (balanceOf w from) value)
         else Ok tt (settled used w from to value nonce).

(** The signature stage: recovery, then the comparison with the signer
    the call names. *)
Definition check_signer (P : Platform) (hash v r s expected : Z) (k : M unit) : M unit :=
  fun w =>
    if ECDSA.HALF_ORDER <? s then Revert (ECDSAInvalidSignatureS s)
    else if ecrecover P hash v r s =? 0 then Revert ECDSAInvalidSignature
    else if ecrecover P hash v r s =? expected then k w
    else Revert InvalidAuthorization.

Definition transfer_hash (P : Platform) (typehash from to value va vb nonce : Z) : Z :=
  _hashTypedDataV4 P (keccak256 P [typehash; from; to; value; va; vb; nonce]).

Definition cancel_hash (P : Platform) (authorizer nonce : Z) : Z :=
  _hashTypedDataV4 P (keccak256 P [CANCEL_AUTHORIZATION_TYPEHASH P; authorizer; nonce]).

(** Every guarded entry point is its checks, in the order of the source,
    followed by what they guard. *)
Definition guarded (env : Env) (from nonce validAfter validBefore : Z)
    (k : M unit) : M unit :=
  fun w =>
    if block_timestamp env <? validAfter then Revert AuthorizationNotYetValid
    else if validBefore <? block_timestamp env then Revert AuthorizationExpired
    else if authorizationState from nonce w then Revert AuthorizationAlreadyUsed
    else k w.

Definition check_signer_sig (P : Platform) (hash : Z) (signature : list Byte.byte)
    (expected : Z) (k : M unit) : M unit :=
  fun w =>
    if (length signature =? 65)%nat then
      check_signer P hash (ECDSA.sig_v signature) (ECDSA.sig_r signature)
                   (ECDSA.sig_s signature) expected k w
    else Revert (ECDSAInvalidSignatureLength (Z.of_nat (length signature))).

Definition cancel_done (authorizer nonce : Z) : M unit :=
  fun w => Ok tt (canceled w authorizer nonce).

(** ** Reason codes

    The four authorization reasons, and the contract errors that carry
    each of them.  A rejected signature surfaces either as the wrapper's
    own [InvalidAuthorization] or as one of the ECDSA library's errors. *)
Inductive Reason : Type :=
  | not_yet_valid
  | expired
  | already_used
  | invalid_signature.

Definition reason_of (e : Error) : option Reason :=
  match e with
  | AuthorizationNotYetValid => Some not_yet_valid
  | AuthorizationExpired => Some expired
  | AuthorizationAlreadyUsed => Some already_used
  | InvalidAuthorization
  | ECDSAInvalidSignature
  | ECDSAInvalidSignatureLength _
  | ECDSAInvalidSignatureS _ => Some invalid_signature
  | _ => None
  end.

(** The signature [(v, r, s)] over [hash] recovers to [signer]. *)
Definition signature_ok (P : Platform) (hash v r s signer : Z) : bool :=
  negb (ECDSA.HALF_ORDER <? s) &&
  negb (ecrecover P hash v r s =? 0) &&
  (ecrecover P hash v r s =? signer).

(** The rule list of the verifier as the specification words it: the
    reason of the first rule that fails, or none. *)
Definition first_violation (currentTime validAfter validBefore : Z)
    (nonce_used signature_valid : bool) : option Reason :=
  if negb (validAfter <=? currentTime) then Some not_yet_valid
  else if negb (currentTime <=? validBefore) then Some expired
  else if nonce_used then Some already_used
  else if negb signature_valid then Some invalid_signature
  else None.

Definition signature_ok_sig (P : Platform) (hash : Z) (signature : list Byte.byte)
    (signer : Z) : bool :=
  (length signature =? 65)%nat &&
  signature_ok P hash (ECDSA.sig_v signature) (ECDSA.sig_r signature)
               (ECDSA.sig_s signature) signer.

(** A token that behaves as the plain one only when it finds the guard set
    and the payee's wrapped balance at 55; anywhere else it answers
    [false] and changes nothing. *)
Module GreedyToken.
Definition transfer (caller to value : Z) : M (option bool) :=
  fun w =>
    if (_status (pie w) =? ENTERED) && (balanceOf w to =? 55)
    then StandardToken.transfer caller to value w
    else Ok (Some false) w.

Definition token : IERC20 := {|
  ierc20_balanceOf := ierc20_balanceOf StandardToken.token;
  ierc20_transfer := transfer;
  ierc20_transferFrom := ierc20_transferFrom StandardToken.token
|}.
End GreedyToken.

(** A token that, when asked to pay out, first re-enters [redeem] on behalf
    of the payee, against the wrapper and against pieUSD. *)
Module ReentrantToken.
Definition transfer_into (reenter : Env -> Z -> M unit) (caller to value : Z)
    : M (option bool) :=
  reenter (mkEnv to 0) value >> StandardToken.transfer caller to value.

Definition against_wrapper : IERC20 := {|
  ierc20_balanceOf := ierc20_balanceOf StandardToken.token;
  ierc20_transfer :=
    transfer_into (PieWrappedERC20.redeem Demo.platform StandardToken.token);
  ierc20_transferFrom := ierc20_transferFrom StandardToken.token
|}.

Definition against_pieUSD : IERC20 := {|
  ierc20_balanceOf := ierc20_balanceOf StandardToken.token;
  ierc20_transfer :=
    transfer_into (PieUSD.redeem Demo.platform StandardToken.token);
  ierc20_transferFrom := ierc20_transferFrom StandardToken.token
|}.
End ReentrantToken.

Module DemoRuns.
Import Demo.

(** Alice's authorization of 10 tokens to Bob, nonce 77, valid from time 0
    to time 10, and its signature in both encodings. *)
Definition digest77 : Z := transfer_digest alice bob 10 0 10 77.
Definition packed77 : list Byte.byte := ECDSA.pack 27 alice digest77.

(** The world once that authorization is settled. *)
Definition world1 : World :=
  settled (AuthorizationUsed alice bob 10 77) world0 alice bob 10 77.
End DemoRuns.

(** ** Registry entries are kept

    A call keeps the authorizations when every entry that reads [true]
    before it still reads [true] after it. *)
Definition keeps_authorizations {A} (c : M A) : Prop :=
  forall w a w', c w = Ok a w' ->
  forall authorizer nonce,
    authorizationState authorizer nonce w = true ->
    authorizationState authorizer nonce w' = true.

(** The wrapper alone writes its registry, so whatever the underlying
    token does during a call, re-entering the wrapper included, it can
    only go through the wrapper's own functions. *)
Definition token_keeps_authorizations (token : IERC20) : Prop :=
  (forall caller to value,
     keeps_authorizations (ierc20_transfer token caller to value)) /\
  (forall caller from to value,
     keeps_authorizations (ierc20_transferFrom token caller from to value)).

(** An authorization is valid at a time and in a world when the time is in
    its window, its nonce is unused and its signature recovers to [from];
    the transfer it orders is funded when the payee is not the zero address
    and [from] holds [value]. *)
Definition authorization_valid (env : Env) (w : World)
    (from nonce validAfter validBefore : Z) (signature_valid : bool) : bool :=
  PieWrappedERC20.in_window env validAfter validBefore &&
  negb (authorizationState from nonce w) &&
  signature_valid.

Definition transfer_funded (w : World) (from to value : Z) : bool :=
  negb (to =? 0) && (value <=? balanceOf w from).

(** ** Closed forms of minting, burning and of the plain token *)

Definition token_balance (w : World) (account : Z) : Z :=
  StandardToken.balance (usd w) account.

Definition minted (w : World) (account value : Z) : World :=
  let s1 := set_totalSupply (pie w) (_totalSupply (pie w) + value) in
  let s2 := set_balance s1 account ((balance_in s1 account + value) mod UINT256_MOD) in
  mkWorld s2 (usd w) (logs w ++ [Transfer 0 account value]).

Definition burned (w : World) (account value : Z) : World :=
  let s1 := set_balance (pie w) account (balance_in (pie w) account - value) in
  let s2 := set_totalSupply s1 ((_totalSupply s1 - value) mod UINT256_MOD) in
  mkWorld s2 (usd w) (logs w ++ [Transfer account 0 value]).

Definition token_moved (w : World) (from to value : Z) : World :=
  let l1 := StandardToken.set_balance (usd w) from (StandardToken.balance (usd w) from - value) in
  let l2 := StandardToken.set_balance l1 to ((StandardToken.balance l1 to + value) mod UINT256_MOD) in
  mkWorld (pie w) l2 (logs w).

Definition allowance_spent (w : World) (owner spender value : Z) : World :=
  if StandardToken.allowance (usd w) owner spender =? UINT256_MOD - 1 then w
  else mkWorld (pie w)
         (StandardToken.set_allowance (usd w) owner spender
            (StandardToken.allowance (usd w) owner spender - value))
         (logs w).

Definition with_status (w : World) (status : Z) : World :=
  mkWorld (set_status (pie w) status) (usd w) (logs w).

Definition logged (w : World) (ev : Event) : World :=
  mkWorld (pie w) (usd w) (logs w ++ [ev]).

(** The world after a deposit into, and after a redemption from, a wrapper
    whose underlying token is the plain one. *)
Definition deposited (P : Platform) (env : Env) (amount : Z) (w : World) : World :=
  let caller := msg_sender env in
  let wA := with_status w ENTERED in
  let wB := allowance_spent wA caller (self P) amount in
  let wC := token_moved wB caller (self P) amount in
  let wD := minted wC caller amount in
  with_status (logged wD (Deposit caller amount)) NOT_ENTERED.

Definition redeemed (P : Platform) (env : Env) (amount : Z) (w : World) : World :=
  let caller := msg_sender env in
  let wA := with_status w ENTERED in
  let wB := burned wA caller amount in
  let wC := token_moved wB (self P) caller amount in
  with_status (logged wC (Redeem caller amount)) NOT_ENTERED.

(** The world in which [redeem] hands control to the underlying token: the
    guard is set and the caller's wrapped tokens are burnt. *)
Definition release_point (env : Env) (amount : Z) (w : World) : World :=
  burned (with_status w ENTERED) (msg_sender env) amount.

(** pieUSD has no guard; its [redeem] calls the token once the tokens are
    burnt. *)
Definition legacy_release_point (env : Env) (amount : Z) (w : World) : World :=
  burned w (msg_sender env) amount.

(** The world in which [deposit] calls the underlying token: the guard is
    set and nothing is minted yet. *)
Definition pull_point (w : World) : World := with_status w ENTERED.

(** What [deposit] does once the token has returned from the pull. *)
Definition deposit_finish (P : Platform) (T : IERC20) (env : Env)
    (amount balanceBefore : Z) : M unit :=
  (let* balanceAfter := static_balanceOf T (self P) in
   let* received := checked_sub balanceAfter balanceBefore in
   revert_if (negb (received =? amount)) TransferAmountMismatch >>
   _mint (msg_sender env) received >>
   emit (Deposit (msg_sender env) received)) >>
  _nonReentrantAfter.

(** ** Soundness of the wrapped ledger

    The ERC-20 ledger is sound when no balance is negative, the balances
    add up to the total supply, and the supply is a [uint256]. *)
Definition sum_balances (m : gmap Z Z) : Z :=
  map_fold (fun _ v acc => v + acc) 0 m.

Definition ledger_sound (w : World) : Prop :=
  map_Forall (fun _ v => 0 <= v) (_balances (pie w)) /\
  sum_balances (_balances (pie w)) = _totalSupply (pie w) /\
  _totalSupply (pie w) < UINT256_MOD.

(** The amount of wrapped tokens a call names. *)
Definition call_value (c : PieWrappedERC20.Call) : Z :=
  match c with
  | PieWrappedERC20.CallDeposit amount
  | PieWrappedERC20.CallRedeem amount => amount
  | PieWrappedERC20.CallTransfer _ _ value _ _ _ _ _ _
  | PieWrappedERC20.CallTransferSig _ _ value _ _ _ _
  | PieWrappedERC20.CallReceive _ _ value _ _ _ _ _ _
  | PieWrappedERC20.CallReceiveSig _ _ value _ _ _ _ => value
  | PieWrappedERC20.CallCancel _ _ _ _ _ => 0
  end.

(** The storage of a freshly initialized wrapper. *)
Definition fresh_storage : Storage :=
  mkStorage ∅ 0 ∅ NOT_ENTERED.

(** * Further definitions: backing, the event log, the documented interface *)

(** ** Backing of the wrapped supply *)

(** Every balance of the underlying ledger is a [uint256]. *)
Definition token_typed (w : World) : Prop :=
  map_Forall (fun _ v => is_uint256 v) (tl_balances (usd w)).

(** The reserve covers the supply: what [getReserves] reports is at least
    [totalSupply]. *)
Definition backed (P : Platform) (w : World) : Prop :=
  totalSupply w <= token_balance w (self P).

(** ** Registry entries named by the event log *)

Definition marked_by (ev : Event) : option (Z * Z) :=
  match ev with
  | AuthorizationUsed authorizer _ _ nonce => Some (authorizer, nonce)
  | AuthorizationUsedLegacy authorizer nonce => Some (authorizer, nonce)
  | AuthorizationCanceled authorizer nonce => Some (authorizer, nonce)
  | _ => None
  end.

Definition marks_of (evs : list Event) : list (Z * Z) := omap marked_by evs.

(** The log and the registry tell the same story: an entry is used exactly
    when the log has an event for it, and no entry has two. *)
Definition log_matches_registry (w : World) : Prop :=
  NoDup (marks_of (logs w)) /\
  forall authorizer nonce,
    authorizationState authorizer nonce w = true <->
    (authorizer, nonce) ∈ marks_of (logs w).

(** A world is solvent when the wrapped ledger is sound, the underlying
    ledger is typed and the reserve covers the supply. *)
Definition solvent (P : Platform) (w : World) : Prop :=
  ledger_sound w /\ token_typed w /\ backed P w.

(** The transactions of a list name amounts that are not negative, as
    their [uint256] type has it. *)
Definition amounts_typed (txs : list (Env * PieWrappedERC20.Call)) : Prop :=
  Forall (fun tx => 0 <= call_value (snd tx)) txs.

(** The payer, the payee and the value of an authorized transfer. *)
Definition call_transfer (c : PieWrappedERC20.Call) : option (Z * Z * Z) :=
  match c with
  | PieWrappedERC20.CallTransfer from to value _ _ _ _ _ _
  | PieWrappedERC20.CallTransferSig from to value _ _ _ _
  | PieWrappedERC20.CallReceive from to value _ _ _ _ _ _
  | PieWrappedERC20.CallReceiveSig from to value _ _ _ _ => Some (from, to, value)
  | _ => None
  end.

(** The worlds after a deposit into, and after a redemption from, pieUSD
    over the plain token. *)
Definition legacy_deposited (P : Platform) (env : Env) (amount : Z) (w : World) : World :=
  let caller := msg_sender env in
  let wB := allowance_spent w caller (self P) amount in
  let wC := token_moved wB caller (self P) amount in
  logged (minted wC caller amount) (Deposit caller amount).

Definition legacy_redeemed (P : Platform) (env : Env) (amount : Z) (w : World) : World :=
  let caller := msg_sender env in
  let wB := burned w caller amount in
  let wC := token_moved wB (self P) caller amount in
  logged wC (Redeem caller amount).

(** Two outcomes agree when both calls revert with the same error, or both
    return leaving the same storage and the same underlying ledger and
    announcing the same authorizations. *)
Definition same_outcome (a b : Result unit) : Prop :=
  match a, b with
  | Ok _ w1, Ok _ w2 =>
      pie w1 = pie w2 /\ usd w1 = usd w2 /\ marks_of (logs w1) = marks_of (logs w2)
  | Revert e1, Revert e2 => e1 = e2
  | _, _ => False
  end.

(** A token that answers [true] to every transfer and moves nothing: the
    least a wrapper has to be prepared for when the token is chosen at
    initialization. *)
Module IdleToken.
Definition token : IERC20 := {|
  ierc20_balanceOf := fun account w => Some (StandardToken.balance (usd w) account);
  ierc20_transfer := fun _ _ _ => ret (Some true);
  ierc20_transferFrom := fun _ _ _ _ => ret (Some true)
|}.
End IdleToken.
(** * Properties *)

Lemma UINT256_MOD_pos : 0 < UINT256_MOD.
Proof. reflexivity. Qed.

(** ** Stepping through a call *)

Lemma bind_ok {A B} (c : M A) (k : A -> M B) w a w' :
  c w = Ok a w' -> bind c k w = k a w'.
Proof. intros H. unfold bind. now rewrite H. Qed.

Lemma bind_revert {A B} (c : M A) (k : A -> M B) w e :
  c w = Revert e -> bind c k w = Revert e.
Proof. intros H. unfold bind. now rewrite H. Qed.

Lemma revert_if_true e w : revert_if true e w = Revert e.
Proof. reflexivity. Qed.

Lemma revert_if_false e w : revert_if false e w = Ok tt w.
Proof. reflexivity. Qed.

Lemma requireUnused_eq authorizer nonce w :
  _requireUnusedAuthorization authorizer nonce w =
  if authorizationState authorizer nonce w
  then Revert AuthorizationAlreadyUsed else Ok tt w.
Proof.
  unfold _requireUnusedAuthorization, authorizationState, bind, get, revert_if.
  now destruct (authorization_in (pie w) authorizer nonce).
Qed.

Lemma requireValid_eq env authorizer nonce validAfter validBefore w :
  _requireValidAuthorization env authorizer nonce validAfter validBefore w =
  if block_timestamp env <? validAfter then Revert AuthorizationNotYetValid
  else if validBefore <? block_timestamp env then Revert AuthorizationExpired
  else _requireUnusedAuthorization authorizer nonce w.
Proof.
  unfold _requireValidAuthorization, bind.
  destruct (block_timestamp env <? validAfter); [reflexivity|].
  now destruct (validBefore <? block_timestamp env).
Qed.

Lemma recover_eq P hash v r s w :
  ECDSA.recover P hash v r s w =
  if ECDSA.HALF_ORDER <? s then Revert (ECDSAInvalidSignatureS s)
  else if ecrecover P hash v r s =? 0 then Revert ECDSAInvalidSignature
  else Ok (ecrecover P hash v r s) w.
Proof.
  unfold ECDSA.recover, ECDSA.tryRecover.
  destruct (ECDSA.HALF_ORDER <? s); [reflexivity|].
  now destruct (ecrecover P hash v r s =? 0).
Qed.

Lemma recover_sig_eq P hash signature w :
  ECDSA.recover_sig P hash signature w =
  if (length signature =? 65)%nat
  then ECDSA.recover P hash (ECDSA.sig_v signature) (ECDSA.sig_r signature)
                     (ECDSA.sig_s signature) w
  else Revert (ECDSAInvalidSignatureLength (Z.of_nat (length signature))).
Proof.
  unfold ECDSA.recover_sig, ECDSA.recover, ECDSA.tryRecover_sig.
  now destruct (length signature =? 65)%nat.
Qed.

(** ** Closed forms: proofs *)

Lemma check_signer_eq P hash v r s expected (k : M unit) w :
  (let* signer := ECDSA.recover P hash v r s in
   revert_if (negb (signer =? expected)) InvalidAuthorization >> k) w =
  check_signer P hash v r s expected k w.
Proof.
  unfold bind, check_signer. rewrite recover_eq.
  destruct (ECDSA.HALF_ORDER <? s); [reflexivity|].
  destruct (ecrecover P hash v r s =? 0); [reflexivity|].
  now destruct (ecrecover P hash v r s =? expected).
Qed.

Lemma mark_then_transfer_eq used from to value nonce w :
  (mark_authorization from nonce >> emit used >> _transfer from to value) w =
  settle used from to value nonce w.
Proof.
  unfold settle, _transfer, _update, mark_authorization, bind, get, put_pie, emit,
    revert_if, revert, ret, balanceOf; cbn.
  destruct (from =? 0) eqn:Hf; [reflexivity|].
  destruct (to =? 0) eqn:Ht; [reflexivity|]; cbn.
  change (balance_in (set_authorization (pie w) from nonce true) from)
    with (balance_in (pie w) from).
  destruct (balance_in (pie w) from <? value); [reflexivity|].
  cbn. unfold settled. f_equal. now rewrite <- app_assoc.
Qed.

Lemma bind_assoc {A B C} (c : M A) (k1 : A -> M B) (k2 : B -> M C) w :
  bind (bind c k1) k2 w = bind c (fun a => bind (k1 a) k2) w.
Proof. unfold bind. now destruct (c w). Qed.

Lemma check_signer_ext P hash v r s expected (k1 k2 : M unit) w :
  (forall w', k1 w' = k2 w') ->
  check_signer P hash v r s expected k1 w = check_signer P hash v r s expected k2 w.
Proof. intros H. unfold check_signer. now rewrite H. Qed.

Lemma executeAuthorization_then_transfer_eq from to value nonce w :
  (PieWrappedERC20._executeAuthorization from to value nonce >>
   _transfer from to value) w =
  settle (AuthorizationUsed from to value nonce) from to value nonce w.
Proof.
  unfold PieWrappedERC20._executeAuthorization.
  rewrite bind_assoc. apply mark_then_transfer_eq.
Qed.

Lemma guarded_eq env from nonce validAfter validBefore (k : M unit) w :
  (_requireValidAuthorization env from nonce validAfter validBefore >> k) w =
  guarded env from nonce validAfter validBefore k w.
Proof.
  unfold bind, guarded. rewrite requireValid_eq, requireUnused_eq.
  destruct (block_timestamp env <? validAfter); [reflexivity|].
  destruct (validBefore <? block_timestamp env); [reflexivity|].
  now destruct (authorizationState from nonce w).
Qed.

Lemma transferWithAuthorization_eq P env from to value validAfter validBefore nonce v r s w :
  PieWrappedERC20.transferWithAuthorization P env from to value validAfter validBefore
    nonce v r s w =
  guarded env from nonce validAfter validBefore
    (check_signer P
       (transfer_hash P (TRANSFER_WITH_AUTHORIZATION_TYPEHASH P)
          from to value validAfter validBefore nonce)
       v r s from
       (settle (AuthorizationUsed from to value nonce) from to value nonce)) w.
Proof.
  unfold PieWrappedERC20.transferWithAuthorization.
  rewrite guarded_eq. unfold guarded.
  repeat (case_match; [reflexivity|]).
  rewrite check_signer_eq. apply check_signer_ext.
  apply executeAuthorization_then_transfer_eq.
Qed.

Lemma check_signer_sig_eq P hash signature expected (k : M unit) w :
  (let* signer := ECDSA.recover_sig P hash signature in
   revert_if (negb (signer =? expected)) InvalidAuthorization >> k) w =
  check_signer_sig P hash signature expected k w.
Proof.
  unfold check_signer_sig.
  destruct (length signature =? 65)%nat eqn:Hlen.
  - rewrite <- check_signer_eq. unfold bind.
    rewrite recover_sig_eq, Hlen. reflexivity.
  - unfold bind. now rewrite recover_sig_eq, Hlen.
Qed.

Lemma check_signer_sig_ext P hash signature expected (k1 k2 : M unit) w :
  (forall w', k1 w' = k2 w') ->
  check_signer_sig P hash signature expected k1 w =
  check_signer_sig P hash signature expected k2 w.
Proof.
  intros H. unfold check_signer_sig.
  destruct (length signature =? 65)%nat; [|reflexivity].
  now apply check_signer_ext.
Qed.

Lemma transferWithAuthorization_sig_eq P env from to value validAfter validBefore nonce
    signature w :
  PieWrappedERC20.transferWithAuthorization_sig P env from to value validAfter validBefore
    nonce signature w =
  guarded env from nonce validAfter validBefore
    (check_signer_sig P
       (transfer_hash P (TRANSFER_WITH_AUTHORIZATION_TYPEHASH P)
          from to value validAfter validBefore nonce)
       signature from
       (settle (AuthorizationUsed from to value nonce) from to value nonce)) w.
Proof.
  unfold PieWrappedERC20.transferWithAuthorization_sig.
  rewrite guarded_eq. unfold guarded.
  repeat (case_match; [reflexivity|]).
  rewrite check_signer_sig_eq. apply check_signer_sig_ext.
  apply executeAuthorization_then_transfer_eq.
Qed.

Lemma receiveWithAuthorization_eq P env from to value validAfter validBefore nonce v r s w :
  PieWrappedERC20.receiveWithAuthorization P env from to value validAfter validBefore
    nonce v r s w =
  if to =? msg_sender env then
    guarded env from nonce validAfter validBefore
      (check_signer P
         (transfer_hash P (RECEIVE_WITH_AUTHORIZATION_TYPEHASH P)
            from to value validAfter validBefore nonce)
         v r s from
         (settle (AuthorizationUsed from to value nonce) from to value nonce)) w
  else Revert UnauthorizedReceiver.
Proof.
  unfold PieWrappedERC20.receiveWithAuthorization. unfold bind at 1.
  destruct (to =? msg_sender env); [|reflexivity]. cbn.
  rewrite guarded_eq. unfold guarded.
  repeat (case_match; [reflexivity|]).
  rewrite check_signer_eq. apply check_signer_ext.
  apply executeAuthorization_then_transfer_eq.
Qed.

Lemma receiveWithAuthorization_sig_eq P env from to value validAfter validBefore nonce
    signature w :
  PieWrappedERC20.receiveWithAuthorization_sig P env from to value validAfter validBefore
    nonce signature w =
  if to =? msg_sender env then
    guarded env from nonce validAfter validBefore
      (check_signer_sig P
         (transfer_hash P (RECEIVE_WITH_AUTHORIZATION_TYPEHASH P)
            from to value validAfter validBefore nonce)
         signature from
         (settle (AuthorizationUsed from to value nonce) from to value nonce)) w
  else Revert UnauthorizedReceiver.
Proof.
  unfold PieWrappedERC20.receiveWithAuthorization_sig. unfold bind at 1.
  destruct (to =? msg_sender env); [|reflexivity]. cbn.
  rewrite guarded_eq. unfold guarded.
  repeat (case_match; [reflexivity|]).
  rewrite check_signer_sig_eq. apply check_signer_sig_ext.
  apply executeAuthorization_then_transfer_eq.
Qed.

Lemma mark_then_cancel_event_eq authorizer nonce w :
  (mark_authorization authorizer nonce >>
   emit (AuthorizationCanceled authorizer nonce)) w =
  cancel_done authorizer nonce w.
Proof. reflexivity. Qed.

Lemma cancelAuthorization_eq P env authorizer nonce v r s w :
  PieWrappedERC20.cancelAuthorization P env authorizer nonce v r s w =
  if authorizationState authorizer nonce w then Revert AuthorizationAlreadyUsed
  else check_signer P (cancel_hash P authorizer nonce) v r s authorizer
         (cancel_done authorizer nonce) w.
Proof.
  unfold PieWrappedERC20.cancelAuthorization. unfold bind at 1.
  rewrite requireUnused_eq.
  destruct (authorizationState authorizer nonce w); [reflexivity|].
  rewrite check_signer_eq. apply check_signer_ext.
  apply mark_then_cancel_event_eq.
Qed.

(** The same for pieUSD. *)
Lemma legacy_transferWithAuthorization_eq P env from to value validAfter validBefore
    nonce v r s w :
  PieUSD.transferWithAuthorization P env from to value validAfter validBefore
    nonce v r s w =
  guarded env from nonce validAfter validBefore
    (check_signer P
       (transfer_hash P (TRANSFER_WITH_AUTHORIZATION_TYPEHASH P)
          from to value validAfter validBefore nonce)
       v r s from
       (settle (AuthorizationUsedLegacy from nonce) from to value nonce)) w.
Proof.
  unfold PieUSD.transferWithAuthorization.
  rewrite guarded_eq. unfold guarded.
  repeat (case_match; [reflexivity|]).
  rewrite check_signer_eq. apply check_signer_ext.
  apply mark_then_transfer_eq.
Qed.

Lemma legacy_transferWithAuthorization_sig_eq P env from to value validAfter validBefore
    nonce signature w :
  PieUSD.transferWithAuthorization_sig P env from to value validAfter validBefore
    nonce signature w =
  guarded env from nonce validAfter validBefore
    (check_signer_sig P
       (transfer_hash P (TRANSFER_WITH_AUTHORIZATION_TYPEHASH P)
          from to value validAfter validBefore nonce)
       signature from
       (settle (AuthorizationUsedLegacy from nonce) from to value nonce)) w.
Proof.
  unfold PieUSD.transferWithAuthorization_sig.
  rewrite guarded_eq. unfold guarded.
  repeat (case_match; [reflexivity|]).
  rewrite check_signer_sig_eq. apply check_signer_sig_ext.
  apply mark_then_transfer_eq.
Qed.

Lemma legacy_cancelAuthorization_eq P env authorizer nonce v r s w :
  PieUSD.cancelAuthorization P env authorizer nonce v r s w =
  if authorizationState authorizer nonce w then Revert AuthorizationAlreadyUsed
  else check_signer P (cancel_hash P authorizer nonce) v r s authorizer
         (cancel_done authorizer nonce) w.
Proof.
  unfold PieUSD.cancelAuthorization. unfold bind at 1.
  rewrite requireUnused_eq.
  destruct (authorizationState authorizer nonce w); [reflexivity|].
  rewrite check_signer_eq. apply check_signer_ext.
  apply mark_then_cancel_event_eq.
Qed.

(** ** The signature stage *)

Lemma check_signer_ok P hash v r s expected (k : M unit) w :
  signature_ok P hash v r s expected = true ->
  check_signer P hash v r s expected k w = k w.
Proof.
  unfold signature_ok, check_signer. intros H.
  apply andb_true_iff in H as [H H3]. apply andb_true_iff in H as [H1 H2].
  apply negb_true_iff in H1, H2. now rewrite H1, H2, H3.
Qed.

Lemma check_signer_bad P hash v r s expected (k : M unit) w :
  signature_ok P hash v r s expected = false ->
  exists e, check_signer P hash v r s expected k w = Revert e /\
            reason_of e = Some invalid_signature.
Proof.
  unfold signature_ok, check_signer. intros H.
  destruct (ECDSA.HALF_ORDER <? s); [eauto|].
  destruct (ecrecover P hash v r s =? 0); [eauto|].
  destruct (ecrecover P hash v r s =? expected); [discriminate|eauto].
Qed.

Lemma check_signer_inv P hash v r s expected (k : M unit) w w' :
  check_signer P hash v r s expected k w = Ok tt w' ->
  signature_ok P hash v r s expected = true /\ k w = Ok tt w'.
Proof.
  unfold signature_ok, check_signer.
  destruct (ECDSA.HALF_ORDER <? s); [discriminate|].
  destruct (ecrecover P hash v r s =? 0); [discriminate|].
  destruct (ecrecover P hash v r s =? expected); [auto|discriminate].
Qed.

Lemma signature_ok_signer P hash v r s signer :
  signature_ok P hash v r s signer = true ->
  ecrecover P hash v r s = signer /\ signer <> 0 /\ s <= ECDSA.HALF_ORDER.
Proof.
  unfold signature_ok. intros H.
  apply andb_true_iff in H as [H H3]. apply andb_true_iff in H as [H1 H2].
  apply negb_true_iff in H1, H2.
  apply Z.eqb_eq in H3. apply Z.eqb_neq in H2. apply Z.ltb_ge in H1.
  subst. auto.
Qed.

(** ** Time window *)

(** C2, as amended: the time checks of [_requireValidAuthorization] let
    through exactly the times of the closed interval from [validAfter] to
    [validBefore].  Before [validAfter] the call reverts with
    [AuthorizationNotYetValid]; at or after [validAfter] and after
    [validBefore] it reverts with [AuthorizationExpired]; inside the
    interval, both ends included, only the registry check remains. *)
Theorem time_window_closed_interval env authorizer nonce validAfter validBefore w :
  let t := block_timestamp env in
  let check := _requireValidAuthorization env authorizer nonce validAfter validBefore w in
  (t < validAfter -> check = Revert AuthorizationNotYetValid) /\
  (validAfter <= t -> validBefore < t -> check = Revert AuthorizationExpired) /\
  (validAfter <= t <= validBefore ->
     check = _requireUnusedAuthorization authorizer nonce w) /\
  (validAfter <= t <= validBefore <->
     check <> Revert AuthorizationNotYetValid /\ check <> Revert AuthorizationExpired).
Proof.
  cbn zeta. rewrite requireValid_eq, requireUnused_eq.
  destruct (Z.ltb_spec (block_timestamp env) validAfter) as [Ha|Ha];
    destruct (Z.ltb_spec validBefore (block_timestamp env)) as [Hb|Hb];
    destruct (authorizationState authorizer nonce w);
    repeat split; intros; try lia; try congruence; try tauto.
Qed.

(** The public entry point fails with the reason of the time check. *)
Lemma transfer_time_window P env from to value validAfter validBefore nonce v r s w :
  let t := block_timestamp env in
  let call := PieWrappedERC20.transferWithAuthorization P env from to value
                validAfter validBefore nonce v r s w in
  (t < validAfter -> call = Revert AuthorizationNotYetValid) /\
  (validAfter <= t -> validBefore < t -> call = Revert AuthorizationExpired).
Proof.
  cbn zeta. rewrite transferWithAuthorization_eq. unfold guarded.
  destruct (Z.ltb_spec (block_timestamp env) validAfter) as [Ha|Ha];
    destruct (Z.ltb_spec validBefore (block_timestamp env)) as [Hb|Hb];
    split; intros; try lia; reflexivity.
Qed.

Lemma time_window_closed_interval_witness :
  _requireValidAuthorization (Demo.at_time Demo.carol 10) Demo.alice 77 10 10 Demo.world0
  = Ok tt Demo.world0.
Proof.
  pose proof (time_window_closed_interval (Demo.at_time Demo.carol 10)
                Demo.alice 77 10 10 Demo.world0) as H.
  cbn zeta in H. destruct H as (_ & _ & H & _).
  rewrite H; [reflexivity|cbn; lia].
Defined.

(** C2 as worded fails on an empty window: with [validAfter = 10] and
    [validBefore = 5], at time 7 the time is after [validBefore], yet the
    reason is not-yet-valid and not expired. *)
Lemma expired_reason_counterexample :
  let env := Demo.at_time Demo.carol 7 in
  let call :=
    PieWrappedERC20.transferWithAuthorization Demo.platform env
      Demo.alice Demo.bob 10 10 5 77
      27 Demo.alice (Demo.transfer_digest Demo.alice Demo.bob 10 10 5 77)
      Demo.world0 in
  block_timestamp env > 5 /\
  call = Revert AuthorizationNotYetValid /\
  call <> Revert AuthorizationExpired /\
  _requireValidAuthorization env Demo.alice 77 10 5 Demo.world0
    = Revert AuthorizationNotYetValid.
Proof.
  cbn zeta. split; [reflexivity|]. split; [reflexivity|].
  split; [discriminate|reflexivity].
Qed.

Lemma check_signer_sig_ok P hash signature expected (k : M unit) w :
  signature_ok_sig P hash signature expected = true ->
  check_signer_sig P hash signature expected k w = k w.
Proof.
  unfold signature_ok_sig, check_signer_sig. intros H.
  apply andb_true_iff in H as [H1 H2]. rewrite H1.
  now apply check_signer_ok.
Qed.

Lemma check_signer_sig_bad P hash signature expected (k : M unit) w :
  signature_ok_sig P hash signature expected = false ->
  exists e, check_signer_sig P hash signature expected k w = Revert e /\
            reason_of e = Some invalid_signature.
Proof.
  unfold signature_ok_sig, check_signer_sig. intros H.
  destruct (length signature =? 65)%nat; [|eauto].
  now apply check_signer_bad.
Qed.

(** ** Order of the checks *)

Lemma guarded_first_violation env from nonce validAfter validBefore (k : M unit)
    (signature_valid : bool) w :
  match first_violation (block_timestamp env) validAfter validBefore
          (authorizationState from nonce w) signature_valid with
  | Some not_yet_valid =>
      guarded env from nonce validAfter validBefore k w = Revert AuthorizationNotYetValid
  | Some expired =>
      guarded env from nonce validAfter validBefore k w = Revert AuthorizationExpired
  | Some already_used =>
      guarded env from nonce validAfter validBefore k w = Revert AuthorizationAlreadyUsed
  | _ => guarded env from nonce validAfter validBefore k w = k w
  end.
Proof.
  unfold first_violation, guarded.
  rewrite (Z.leb_antisym (block_timestamp env) validAfter).
  rewrite (Z.leb_antisym validBefore (block_timestamp env)).
  rewrite !negb_involutive.
  destruct (block_timestamp env <? validAfter); [reflexivity|].
  destruct (validBefore <? block_timestamp env); [reflexivity|].
  destruct (authorizationState from nonce w); [reflexivity|].
  now destruct signature_valid.
Qed.

(** C6: the checks run in the order not-yet-valid, expired, already-used,
    invalid-signature and stop at the first that fails.  Whatever
    combination of rules an authorization violates, both overloads of
    [transferWithAuthorization] revert with an error carrying the reason of
    the first violated rule; when that rule is a time or registry rule the
    outcome is the same for every signature and every recovery function,
    so the signature plays no part in it.  With no rule violated the call
    goes on to [settle]. *)
Theorem verification_order P env from to value validAfter validBefore nonce v r s
    signature w :
  let t := block_timestamp env in
  let hash := transfer_hash P (TRANSFER_WITH_AUTHORIZATION_TYPEHASH P)
                from to value validAfter validBefore nonce in
  let by_vrs P' v' r' s' :=
    PieWrappedERC20.transferWithAuthorization P' env from to value
      validAfter validBefore nonce v' r' s' w in
  let by_sig P' signature' :=
    PieWrappedERC20.transferWithAuthorization_sig P' env from to value
      validAfter validBefore nonce signature' w in
  let done := settle (AuthorizationUsed from to value nonce) from to value nonce w in
  match first_violation t validAfter validBefore (authorizationState from nonce w)
          (signature_ok P hash v r s from) with
  | Some reason =>
      (exists e, by_vrs P v r s = Revert e /\ reason_of e = Some reason) /\
      (reason <> invalid_signature ->
       forall P' v' r' s', by_vrs P' v' r' s' = by_vrs P v r s)
  | None => by_vrs P v r s = done
  end /\
  match first_violation t validAfter validBefore (authorizationState from nonce w)
          (signature_ok_sig P hash signature from) with
  | Some reason =>
      (exists e, by_sig P signature = Revert e /\ reason_of e = Some reason) /\
      (reason <> invalid_signature ->
       forall P' signature', by_sig P' signature' = by_sig P signature)
  | None => by_sig P signature = done
  end.
Proof.
  cbn zeta. split.
  - pose proof (guarded_first_violation env from nonce validAfter validBefore
      (check_signer P
         (transfer_hash P (TRANSFER_WITH_AUTHORIZATION_TYPEHASH P)
            from to value validAfter validBefore nonce) v r s from
         (settle (AuthorizationUsed from to value nonce) from to value nonce))
      (signature_ok P
         (transfer_hash P (TRANSFER_WITH_AUTHORIZATION_TYPEHASH P)
            from to value validAfter validBefore nonce) v r s from) w) as H.
    rewrite transferWithAuthorization_eq.
    destruct (first_violation _ _ _ _ _) as [[| | |]|] eqn:Hfv.
    1-3: split; [rewrite H; eauto|];
         intros _ P' v' r' s'; rewrite transferWithAuthorization_eq, H;
         unfold first_violation in Hfv; unfold guarded;
         rewrite (Z.leb_antisym (block_timestamp env) validAfter) in Hfv;
         rewrite (Z.leb_antisym validBefore (block_timestamp env)) in Hfv;
         rewrite !negb_involutive in Hfv;
         repeat (case_match; try reflexivity; try discriminate).
    + split; [|congruence]. rewrite H.
      apply check_signer_bad.
      unfold first_violation in Hfv.
      repeat (case_match; try discriminate);
        first [reflexivity | now apply negb_true_iff | now apply negb_false_iff].
    + rewrite H. apply check_signer_ok.
      unfold first_violation in Hfv.
      repeat (case_match; try discriminate);
        first [reflexivity | now apply negb_true_iff | now apply negb_false_iff].
  - pose proof (guarded_first_violation env from nonce validAfter validBefore
      (check_signer_sig P
         (transfer_hash P (TRANSFER_WITH_AUTHORIZATION_TYPEHASH P)
            from to value validAfter validBefore nonce) signature from
         (settle (AuthorizationUsed from to value nonce) from to value nonce))
      (signature_ok_sig P
         (transfer_hash P (TRANSFER_WITH_AUTHORIZATION_TYPEHASH P)
            from to value validAfter validBefore nonce) signature from) w) as H.
    rewrite transferWithAuthorization_sig_eq.
    destruct (first_violation _ _ _ _ _) as [[| | |]|] eqn:Hfv.
    1-3: split; [rewrite H; eauto|];
         intros _ P' signature'; rewrite transferWithAuthorization_sig_eq, H;
         unfold first_violation in Hfv; unfold guarded;
         rewrite (Z.leb_antisym (block_timestamp env) validAfter) in Hfv;
         rewrite (Z.leb_antisym validBefore (block_timestamp env)) in Hfv;
         rewrite !negb_involutive in Hfv;
         repeat (case_match; try reflexivity; try discriminate).
    + split; [|congruence]. rewrite H.
      apply check_signer_sig_bad.
      unfold first_violation in Hfv.
      repeat (case_match; try discriminate);
        first [reflexivity | now apply negb_true_iff | now apply negb_false_iff].
    + rewrite H. apply check_signer_sig_ok.
      unfold first_violation in Hfv.
      repeat (case_match; try discriminate);
        first [reflexivity | now apply negb_true_iff | now apply negb_false_iff].
Qed.

Lemma verification_order_witness :
  exists e,
    PieWrappedERC20.transferWithAuthorization_sig Demo.platform
      (Demo.at_time Demo.carol 11) Demo.alice Demo.bob 10 0 10 77
      DemoRuns.packed77 DemoRuns.world1 = Revert e /\
    reason_of e = Some expired.
Proof.
  pose proof (verification_order Demo.platform (Demo.at_time Demo.carol 11)
                Demo.alice Demo.bob 10 0 10 77 27 Demo.alice DemoRuns.digest77
                DemoRuns.packed77 DemoRuns.world1) as H.
  cbn zeta in H. destruct H as [_ H].
  change (first_violation _ _ _ _ _) with (Some expired) in H.
  exact (proj1 H).
Defined.

(** ** The registry only grows *)

Lemma keeps_bind {A B} (c : M A) (k : A -> M B) :
  keeps_authorizations c -> (forall a, keeps_authorizations (k a)) ->
  keeps_authorizations (bind c k).
Proof.
  intros Hc Hk w b w' H authorizer nonce Hused. unfold bind in H.
  destruct (c w) as [a w1|e] eqn:Hcw; [|discriminate].
  eapply Hk; [exact H|]. eapply Hc; eauto.
Qed.

Lemma keeps_ret {A} (a : A) : keeps_authorizations (ret a).
Proof. intros w b w' H. inversion H; subst. auto. Qed.

Lemma keeps_revert {A} e : keeps_authorizations (@revert A e).
Proof. intros w b w' H. discriminate. Qed.

Lemma keeps_revert_if cond e : keeps_authorizations (revert_if cond e).
Proof. destruct cond; [apply keeps_revert|apply keeps_ret]. Qed.

Lemma keeps_emit ev : keeps_authorizations (emit ev).
Proof. intros w b w' H. inversion H; subst. auto. Qed.

Lemma keeps_static_balanceOf token account :
  keeps_authorizations (static_balanceOf token account).
Proof.
  intros w b w' H. unfold static_balanceOf in H.
  destruct (ierc20_balanceOf token account w); inversion H; subst. auto.
Qed.

Lemma keeps_checked_sub a b : keeps_authorizations (checked_sub a b).
Proof.
  unfold checked_sub. destruct (a <? b); [apply keeps_revert|apply keeps_ret].
Qed.

Lemma keeps_update from to value : keeps_authorizations (_update from to value).
Proof.
  intros w b w' H authorizer nonce Hused.
  unfold _update, bind, get, put_pie, emit, revert in H.
  repeat case_match; simplify_eq; exact Hused.
Qed.

Lemma keeps_transfer from to value : keeps_authorizations (_transfer from to value).
Proof.
  unfold _transfer.
  apply keeps_bind; [apply keeps_revert_if|intros _].
  apply keeps_bind; [apply keeps_revert_if|intros _].
  apply keeps_update.
Qed.

Lemma keeps_mint account value : keeps_authorizations (_mint account value).
Proof.
  unfold _mint.
  apply keeps_bind; [apply keeps_revert_if|intros _]. apply keeps_update.
Qed.

Lemma keeps_burn account value : keeps_authorizations (_burn account value).
Proof.
  unfold _burn.
  apply keeps_bind; [apply keeps_revert_if|intros _]. apply keeps_update.
Qed.

Lemma authorization_after_mark s authorizer nonce a n :
  authorization_in (set_authorization s authorizer nonce true) a n =
  if decide ((authorizer, nonce) = (a, n)) then true else authorization_in s a n.
Proof.
  unfold authorization_in, set_authorization; cbn.
  rewrite lookup_insert. now case_decide.
Qed.

Lemma keeps_mark authorizer nonce :
  keeps_authorizations (mark_authorization authorizer nonce).
Proof.
  intros w b w' H a n Hused. inversion H; subst.
  unfold authorizationState in *; cbn.
  rewrite authorization_after_mark. now case_decide.
Qed.

Lemma keeps_nonReentrant (body : M unit) :
  keeps_authorizations body -> keeps_authorizations (nonReentrant body).
Proof.
  intros Hbody. unfold nonReentrant, _nonReentrantBefore, _nonReentrantAfter.
  apply keeps_bind; [|intros _; apply keeps_bind; [exact Hbody|intros _]].
  - intros w b w' H a n Hused. unfold bind, get, revert_if in H.
    destruct (_status (pie w) =? ENTERED); inversion H; subst. exact Hused.
  - intros w b w' H a n Hused. inversion H; subst. exact Hused.
Qed.

Lemma keeps_callOptionalReturn (call : M (option bool)) :
  keeps_authorizations call ->
  keeps_authorizations (SafeERC20._callOptionalReturn call).
Proof.
  intros Hcall. unfold SafeERC20._callOptionalReturn.
  apply keeps_bind; [exact Hcall|].
  intros [[|]|]; auto using keeps_ret, keeps_revert.
Qed.

Lemma keeps_settle used from to value nonce :
  keeps_authorizations (settle used from to value nonce).
Proof.
  intros w b w' H a n Hused. unfold settle in H.
  repeat case_match; inversion H; subst.
  unfold authorizationState, settled in *; cbn.
  change (authorization_in (set_authorization (pie w) from nonce true) a n = true).
  rewrite authorization_after_mark. now case_decide.
Qed.

Lemma keeps_cancel_done authorizer nonce :
  keeps_authorizations (cancel_done authorizer nonce).
Proof.
  intros w b w' H a n Hused. inversion H; subst.
  unfold authorizationState, canceled in *; cbn.
  rewrite authorization_after_mark. now case_decide.
Qed.

Lemma keeps_check_signer P hash v r s expected (k : M unit) :
  keeps_authorizations k ->
  keeps_authorizations (check_signer P hash v r s expected k).
Proof.
  intros Hk w b w' H. destruct b.
  apply check_signer_inv in H as [_ H]. eapply Hk; eauto.
Qed.

Lemma keeps_check_signer_sig P hash signature expected (k : M unit) :
  keeps_authorizations k ->
  keeps_authorizations (check_signer_sig P hash signature expected k).
Proof.
  intros Hk w b w' H. unfold check_signer_sig in H.
  destruct (length signature =? 65)%nat; [|discriminate].
  eapply keeps_check_signer; eauto.
Qed.

Lemma keeps_guarded env from nonce validAfter validBefore (k : M unit) :
  keeps_authorizations k ->
  keeps_authorizations (guarded env from nonce validAfter validBefore k).
Proof.
  intros Hk w b w' H. unfold guarded in H.
  repeat (case_match; [discriminate|]). eapply Hk; eauto.
Qed.

Lemma keeps_ext {A} (c1 c2 : M A) :
  (forall w, c1 w = c2 w) -> keeps_authorizations c2 -> keeps_authorizations c1.
Proof. intros Heq H w a w' Hc. rewrite Heq in Hc. eapply H; eauto. Qed.

Section SingleUse.
Context (P : Platform) (underlying : IERC20).
Hypothesis Htoken : token_keeps_authorizations underlying.

Import PieWrappedERC20.

Lemma keeps_deposit env amount :
  keeps_authorizations (deposit P underlying env amount).
Proof.
  destruct Htoken as [_ Hfrom].
  unfold deposit. apply keeps_nonReentrant.
  apply keeps_bind; [apply keeps_revert_if|intros _].
  apply keeps_bind; [apply keeps_static_balanceOf|intros balanceBefore].
  apply keeps_bind; [apply keeps_callOptionalReturn, Hfrom|intros _].
  apply keeps_bind; [apply keeps_static_balanceOf|intros balanceAfter].
  apply keeps_bind; [apply keeps_checked_sub|intros received].
  apply keeps_bind; [apply keeps_revert_if|intros _].
  apply keeps_bind; [apply keeps_mint|intros _].
  apply keeps_emit.
Qed.

Lemma keeps_redeem env amount :
  keeps_authorizations (redeem P underlying env amount).
Proof.
  destruct Htoken as [Hto _].
  unfold redeem. apply keeps_nonReentrant.
  apply keeps_bind; [apply keeps_revert_if|intros _].
  apply keeps_bind; [intros w a w' H; inversion H; subst; auto|intros w0].
  apply keeps_bind; [apply keeps_revert_if|intros _].
  apply keeps_bind; [apply keeps_burn|intros _].
  apply keeps_bind; [apply keeps_callOptionalReturn, Hto|intros _].
  apply keeps_emit.
Qed.

Lemma keeps_exec env c : keeps_authorizations (exec P underlying env c).
Proof.
  destruct c; cbn [exec].
  - apply keeps_deposit.
  - apply keeps_redeem.
  - eapply keeps_ext; [intros; apply transferWithAuthorization_eq|].
    apply keeps_guarded, keeps_check_signer, keeps_settle.
  - eapply keeps_ext; [intros; apply transferWithAuthorization_sig_eq|].
    apply keeps_guarded, keeps_check_signer_sig, keeps_settle.
  - eapply keeps_ext; [intros; apply receiveWithAuthorization_eq|].
    destruct (to =? msg_sender env); [|apply keeps_revert].
    apply keeps_guarded, keeps_check_signer, keeps_settle.
  - eapply keeps_ext; [intros; apply receiveWithAuthorization_sig_eq|].
    destruct (to =? msg_sender env); [|apply keeps_revert].
    apply keeps_guarded, keeps_check_signer_sig, keeps_settle.
  - eapply keeps_ext; [intros; apply cancelAuthorization_eq|].
    intros w b w' H. destruct (authorizationState authorizer nonce w); [discriminate|].
    revert H. apply keeps_check_signer, keeps_cancel_done.
Qed.

Lemma keeps_run txs : forall w authorizer nonce,
  authorizationState authorizer nonce w = true ->
  authorizationState authorizer nonce (run P underlying txs w) = true.
Proof.
  induction txs as [|[env c] rest IH]; intros w authorizer nonce Hused; cbn [run].
  - exact Hused.
  - apply IH. unfold transact.
    destruct (exec P underlying env c w) as [[] w'|e] eqn:Hexec; cbn [fst].
    + eapply keeps_exec; eauto.
    + exact Hused.
Qed.

Lemma settled_marks used w from to value nonce :
  authorizationState from nonce (settled used w from to value nonce) = true.
Proof.
  unfold authorizationState, settled; cbn.
  change (authorization_in (set_authorization (pie w) from nonce true) from nonce = true).
  rewrite authorization_after_mark. now case_decide.
Qed.

Lemma guarded_marks env used from to value nonce validAfter validBefore
    (check : M unit -> M unit) w w' :
  (forall k w1 w2, check k w1 = Ok tt w2 -> k w1 = Ok tt w2) ->
  guarded env from nonce validAfter validBefore
    (check (settle used from to value nonce)) w = Ok tt w' ->
  authorizationState from nonce w = false /\
  authorizationState from nonce w' = true.
Proof.
  intros Hcheck H. unfold guarded in H.
  repeat (case_match; [discriminate|]).
  split; [reflexivity|].
  apply Hcheck in H. unfold settle in H.
  repeat (case_match; [discriminate|]).
  inversion H; subst. apply settled_marks.
Qed.

Lemma check_signer_through P' hash v r s expected :
  forall k w1 w2, check_signer P' hash v r s expected k w1 = Ok tt w2 -> k w1 = Ok tt w2.
Proof. intros k w1 w2 H. now apply check_signer_inv in H. Qed.

Lemma check_signer_sig_through P' hash signature expected :
  forall k w1 w2,
    check_signer_sig P' hash signature expected k w1 = Ok tt w2 -> k w1 = Ok tt w2.
Proof.
  intros k w1 w2 H. unfold check_signer_sig in H.
  destruct (length signature =? 65)%nat; [|discriminate].
  now apply check_signer_inv in H.
Qed.

(** A successful call on an entry finds it unused and leaves it used. *)
Lemma exec_marks env c w w' authorizer nonce :
  call_authorization c = Some (authorizer, nonce) ->
  exec P underlying env c w = Ok tt w' ->
  authorizationState authorizer nonce w = false /\
  authorizationState authorizer nonce w' = true.
Proof.
  intros Hc H. destruct c; cbn [call_authorization exec] in *; simplify_eq.
  - rewrite transferWithAuthorization_eq in H.
    eapply guarded_marks; [apply check_signer_through|exact H].
  - rewrite transferWithAuthorization_sig_eq in H.
    eapply guarded_marks; [apply check_signer_sig_through|exact H].
  - rewrite receiveWithAuthorization_eq in H.
    destruct (to =? msg_sender env); [|discriminate].
    eapply guarded_marks; [apply check_signer_through|exact H].
  - rewrite receiveWithAuthorization_sig_eq in H.
    destruct (to =? msg_sender env); [|discriminate].
    eapply guarded_marks; [apply check_signer_sig_through|exact H].
  - rewrite cancelAuthorization_eq in H.
    destruct (authorizationState authorizer nonce w) eqn:Hused; [discriminate|].
    split; [reflexivity|].
    apply check_signer_inv in H as [_ H]. inversion H; subst.
    unfold authorizationState, canceled; cbn.
    rewrite authorization_after_mark. now case_decide.
Qed.

Lemma guarded_used env from nonce validAfter validBefore (k : M unit) w :
  authorizationState from nonce w = true ->
  exists e,
    guarded env from nonce validAfter validBefore k w = Revert e /\
    (in_window env validAfter validBefore = true -> e = AuthorizationAlreadyUsed).
Proof.
  intros Hused. unfold guarded, in_window. rewrite Hused.
  rewrite (Z.leb_antisym (block_timestamp env) validAfter).
  rewrite (Z.leb_antisym validBefore (block_timestamp env)).
  destruct (block_timestamp env <? validAfter); [eexists; split; [reflexivity|discriminate]|].
  destruct (validBefore <? block_timestamp env); eexists; split;
    first [reflexivity | discriminate].
Qed.

(** A call on a used entry reverts, and with [AuthorizationAlreadyUsed]
    when the checks before the registry lookup pass. *)
Lemma exec_used_fails env c w authorizer nonce :
  call_authorization c = Some (authorizer, nonce) ->
  authorizationState authorizer nonce w = true ->
  exists e,
    exec P underlying env c w = Revert e /\
    (registry_reached env c = true -> e = AuthorizationAlreadyUsed).
Proof.
  intros Hc Hused.
  destruct c; cbn [call_authorization exec registry_reached] in *; simplify_eq.
  - rewrite transferWithAuthorization_eq. now apply guarded_used.
  - rewrite transferWithAuthorization_sig_eq. now apply guarded_used.
  - rewrite receiveWithAuthorization_eq.
    destruct (to =? msg_sender env); [now apply guarded_used|].
    eexists; split; [reflexivity|discriminate].
  - rewrite receiveWithAuthorization_sig_eq.
    destruct (to =? msg_sender env); [now apply guarded_used|].
    eexists; split; [reflexivity|discriminate].
  - rewrite cancelAuthorization_eq, Hused. eauto.
Qed.

(** The error of a call on a used entry: that of the first failing
    check before the registry lookup, and [AuthorizationAlreadyUsed] when
    there is none. *)
Lemma exec_used_error env c w authorizer nonce :
  call_authorization c = Some (authorizer, nonce) ->
  authorizationState authorizer nonce w = true ->
  exec P underlying env c w =
    Revert (default AuthorizationAlreadyUsed (earlier_error env c)).
Proof.
  intros Hc Hused.
  destruct c; cbn [call_authorization exec earlier_error] in *; simplify_eq.
  - rewrite transferWithAuthorization_eq. unfold guarded. rewrite Hused.
    repeat (case_match; [reflexivity|]). reflexivity.
  - rewrite transferWithAuthorization_sig_eq. unfold guarded. rewrite Hused.
    repeat (case_match; [reflexivity|]). reflexivity.
  - rewrite receiveWithAuthorization_eq.
    destruct (to =? msg_sender env); [|reflexivity].
    unfold guarded. rewrite Hused.
    repeat (case_match; [reflexivity|]). reflexivity.
  - rewrite receiveWithAuthorization_sig_eq.
    destruct (to =? msg_sender env); [|reflexivity].
    unfold guarded. rewrite Hused.
    repeat (case_match; [reflexivity|]). reflexivity.
  - rewrite cancelAuthorization_eq, Hused. reflexivity.
Qed.

(** The registry lookup is reached exactly when no earlier check fails. *)
Lemma earlier_error_reached env c authorizer nonce :
  call_authorization c = Some (authorizer, nonce) ->
  (registry_reached env c = true -> earlier_error env c = None) /\
  (registry_reached env c = false -> exists e,
     earlier_error env c = Some e /\
     (e = UnauthorizedReceiver \/ e = AuthorizationNotYetValid \/
      e = AuthorizationExpired)).
Proof.
  intros Hc.
  destruct c; cbn [call_authorization registry_reached earlier_error] in *;
    simplify_eq; unfold in_window;
    try rewrite (Z.leb_antisym (block_timestamp env) validAfter);
    try rewrite (Z.leb_antisym validBefore (block_timestamp env));
    try destruct (to =? msg_sender env);
    try destruct (block_timestamp env <? validAfter);
    try destruct (validBefore <? block_timestamp env);
    cbn; split; intros; try discriminate; try reflexivity; eauto 6.
Qed.

(** C1, as amended: an entry of the registry goes from unused to used at
    most once and never back.  The underlying token is any token whose
    [transfer] and [transferFrom] do not reset a registry entry, and the
    transactions are calls of the functions the contract declares.
    After any successful [transferWithAuthorization],
    [receiveWithAuthorization] or [cancelAuthorization] on
    [(authorizer, nonce)], and after any further transactions, the entry
    still reads used; every later transfer, receive or cancel on that
    entry reverts and changes nothing; it reverts with
    [AuthorizationAlreadyUsed] whenever the checks that precede the
    registry lookup pass, which for a cancel is always, and with the
    error of the first failing earlier check otherwise
    ([UnauthorizedReceiver], [AuthorizationNotYetValid] or
    [AuthorizationExpired]). *)
Theorem authorization_single_use env c w w1 authorizer nonce txs :
  call_authorization c = Some (authorizer, nonce) ->
  exec P underlying env c w = Ok tt w1 ->
  let w2 := run P underlying txs w1 in
  authorizationState authorizer nonce w = false /\
  authorizationState authorizer nonce w2 = true /\
  forall env' c',
    call_authorization c' = Some (authorizer, nonce) ->
    exists e,
      exec P underlying env' c' w2 = Revert e /\
      fst (transact (exec P underlying env' c') w2) = w2 /\
      (registry_reached env' c' = true -> e = AuthorizationAlreadyUsed) /\
      (registry_reached env' c' = false ->
       earlier_error env' c' = Some e /\
       (e = UnauthorizedReceiver \/ e = AuthorizationNotYetValid \/
        e = AuthorizationExpired)).
Proof.
  intros Hc Hexec w2.
  destruct (exec_marks env c w w1 authorizer nonce Hc Hexec) as [Hbefore Hafter].
  assert (Hused : authorizationState authorizer nonce w2 = true)
    by (apply keeps_run; exact Hafter).
  split; [exact Hbefore|]. split; [exact Hused|].
  intros env' c' Hc'.
  pose proof (exec_used_error env' c' w2 authorizer nonce Hc' Hused) as He.
  destruct (earlier_error_reached env' c' authorizer nonce Hc') as [Hreached Hearlier].
  eexists. split; [exact He|].
  split; [unfold transact; now rewrite He|].
  split.
  - intros Hr. now rewrite (Hreached Hr).
  - intros Hr. destruct (Hearlier Hr) as (e & He' & Hcases).
    rewrite He'. cbn. auto.
Qed.
End SingleUse.

Lemma standard_token_keeps_authorizations :
  token_keeps_authorizations StandardToken.token.
Proof.
  assert (Hmove : forall from to value, keeps_authorizations (StandardToken.move from to value)).
  { intros from to value w b w' H authorizer nonce Hused.
    unfold StandardToken.move, StandardToken.put_usd, bind, get, revert_if, revert, ret in H.
    repeat case_match; simplify_eq; exact Hused. }
  split.
  - intros caller to value. cbn. unfold StandardToken.transfer.
    apply keeps_bind; [apply Hmove|intros _; apply keeps_ret].
  - intros caller from to value. cbn. unfold StandardToken.transferFrom.
    apply keeps_bind; [|intros _; apply keeps_bind; [apply Hmove|intros _; apply keeps_ret]].
    intros w b w' H authorizer nonce Hused.
    unfold StandardToken.spendAllowance, StandardToken.put_usd, bind, get, revert_if,
      revert, ret in H.
    repeat case_match; simplify_eq; exact Hused.
Qed.

Lemma authorization_single_use_witness :
  let txs := [ (Demo.at_time Demo.alice 6, PieWrappedERC20.CallDeposit 30);
               (Demo.at_time Demo.bob 7,
                PieWrappedERC20.CallCancel Demo.alice 77 27 Demo.alice
                  (Demo.cancel_digest Demo.alice 77)) ] in
  let w2 := PieWrappedERC20.run Demo.platform StandardToken.token txs DemoRuns.world1 in
  authorizationState Demo.alice 77 Demo.world0 = false /\
  authorizationState Demo.alice 77 w2 = true /\
  forall env' c',
    PieWrappedERC20.call_authorization c' = Some (Demo.alice, 77) ->
    exists e,
      PieWrappedERC20.exec Demo.platform StandardToken.token env' c' w2 = Revert e /\
      fst (transact (PieWrappedERC20.exec Demo.platform StandardToken.token env' c') w2) = w2 /\
      (PieWrappedERC20.registry_reached env' c' = true -> e = AuthorizationAlreadyUsed) /\
      (PieWrappedERC20.registry_reached env' c' = false ->
       PieWrappedERC20.earlier_error env' c' = Some e /\
       (e = UnauthorizedReceiver \/ e = AuthorizationNotYetValid \/
        e = AuthorizationExpired)).
Proof.
  apply (authorization_single_use Demo.platform StandardToken.token
           standard_token_keeps_authorizations
           (Demo.at_time Demo.carol 5)
           (PieWrappedERC20.CallTransfer Demo.alice Demo.bob 10 0 10 77
              27 Demo.alice DemoRuns.digest77)
           Demo.world0 DemoRuns.world1 Demo.alice 77).
  - reflexivity.
  - vm_compute. reflexivity.
Defined.

(** C1 as worded fails on a replay outside the time window: the
    authorization settled at time 5 is submitted again at time 11, after
    [validBefore = 10]; the call reverts, but with [AuthorizationExpired],
    not with [AuthorizationAlreadyUsed]. *)
Lemma replay_reason_counterexample :
  let submit t w :=
    PieWrappedERC20.transferWithAuthorization Demo.platform (Demo.at_time Demo.carol t)
      Demo.alice Demo.bob 10 0 10 77 27 Demo.alice DemoRuns.digest77 w in
  submit 5 Demo.world0 = Ok tt DemoRuns.world1 /\
  authorizationState Demo.alice 77 DemoRuns.world1 = true /\
  submit 11 DemoRuns.world1 = Revert AuthorizationExpired /\
  submit 11 DemoRuns.world1 <> Revert AuthorizationAlreadyUsed.
Proof.
  cbn zeta. split; [vm_compute; reflexivity|].
  split; [vm_compute; reflexivity|].
  split; [reflexivity|discriminate].
Qed.

(** ** Settling an authorization *)

Lemma balance_after_set s account value a :
  balance_in (set_balance s account value) a =
  if decide (account = a) then value else balance_in s a.
Proof.
  unfold balance_in, set_balance; cbn.
  rewrite lookup_insert. now case_decide.
Qed.

Lemma settled_balance used w from to value nonce a :
  balanceOf (settled used w from to value nonce) a =
  if decide (to = a) then
    ((if decide (from = to) then balanceOf w from - value else balanceOf w to) + value)
      mod UINT256_MOD
  else if decide (from = a) then balanceOf w from - value
  else balanceOf w a.
Proof.
  unfold balanceOf, settled; cbn [pie].
  rewrite !balance_after_set.
  change (balance_in (set_authorization (pie w) from nonce true))
    with (balance_in (pie w)).
  repeat case_decide; subst; try reflexivity; congruence.
Qed.

Lemma settled_authorization used w from to value nonce a n :
  authorizationState a n (settled used w from to value nonce) =
  if decide ((from, nonce) = (a, n)) then true else authorizationState a n w.
Proof.
  unfold authorizationState, settled; cbn [pie].
  change (authorization_in (set_authorization (pie w) from nonce true) a n =
          if decide ((from, nonce) = (a, n)) then true else authorization_in (pie w) a n).
  apply authorization_after_mark.
Qed.

Lemma settled_frame used w from to value nonce :
  totalSupply (settled used w from to value nonce) = totalSupply w /\
  _status (pie (settled used w from to value nonce)) = _status (pie w) /\
  usd (settled used w from to value nonce) = usd w /\
  logs (settled used w from to value nonce) =
    logs w ++ [used; Transfer from to value].
Proof. repeat split. Qed.

Lemma guarded_settle_inv P env used hash from to value validAfter validBefore nonce v r s w w' :
  guarded env from nonce validAfter validBefore
    (check_signer P hash v r s from (settle used from to value nonce)) w = Ok tt w' ->
  PieWrappedERC20.in_window env validAfter validBefore = true /\
  authorizationState from nonce w = false /\
  signature_ok P hash v r s from = true /\
  to <> 0 /\ value <= balanceOf w from /\
  w' = settled used w from to value nonce.
Proof.
  unfold guarded, PieWrappedERC20.in_window.
  rewrite (Z.leb_antisym (block_timestamp env) validAfter).
  rewrite (Z.leb_antisym validBefore (block_timestamp env)).
  destruct (block_timestamp env <? validAfter); [discriminate|].
  destruct (validBefore <? block_timestamp env); [discriminate|].
  destruct (authorizationState from nonce w); [discriminate|].
  intros H. apply check_signer_inv in H as [Hsig H].
  unfold settle in H.
  destruct (from =? 0); [discriminate|].
  destruct (Z.eqb_spec to 0); [discriminate|].
  destruct (Z.ltb_spec (balanceOf w from) value); [discriminate|].
  inversion H; subst. repeat split; auto.
Qed.

Lemma transfer_ok_inv P env from to value validAfter validBefore nonce v r s w w' :
  PieWrappedERC20.transferWithAuthorization P env from to value validAfter validBefore
    nonce v r s w = Ok tt w' ->
  PieWrappedERC20.in_window env validAfter validBefore = true /\
  authorizationState from nonce w = false /\
  signature_ok P (transfer_hash P (TRANSFER_WITH_AUTHORIZATION_TYPEHASH P)
                    from to value validAfter validBefore nonce) v r s from = true /\
  to <> 0 /\ value <= balanceOf w from /\
  w' = settled (AuthorizationUsed from to value nonce) w from to value nonce.
Proof. rewrite transferWithAuthorization_eq. apply guarded_settle_inv. Qed.

(** What a settled world looks like from outside. *)
Lemma settled_changes used w from to value nonce :
  let w' := settled used w from to value nonce in
  authorizationState from nonce w' = true /\
  (forall a n, (a, n) <> (from, nonce) ->
     authorizationState a n w' = authorizationState a n w) /\
  (from <> to ->
     balanceOf w' from = balanceOf w from - value /\
     balanceOf w' to = (balanceOf w to + value) mod UINT256_MOD /\
     (0 <= balanceOf w to + value < UINT256_MOD ->
      balanceOf w' to = balanceOf w to + value)) /\
  (from = to -> balanceOf w' from = balanceOf w from mod UINT256_MOD) /\
  (forall a, a <> from -> a <> to -> balanceOf w' a = balanceOf w a) /\
  totalSupply w' = totalSupply w /\
  usd w' = usd w.
Proof.
  cbn zeta.
  split; [apply settled_marks|].
  split.
  { intros a n Hne. rewrite settled_authorization.
    case_decide; [congruence|reflexivity]. }
  split.
  { intros Hne. rewrite !settled_balance.
    repeat case_decide; try congruence.
    repeat split; try reflexivity.
    intros Hrange. now apply Z.mod_small. }
  split.
  { intros ->. rewrite settled_balance.
    repeat case_decide; try congruence. f_equal. lia. }
  split.
  { intros a Ha1 Ha2. rewrite settled_balance.
    repeat case_decide; congruence. }
  split; reflexivity.
Qed.

(** C3: a successful [transferWithAuthorization] makes exactly two changes
    of state, together: the registry entry of [(from, nonce)] goes from
    unused to used, and [value] moves from the balance of [from] to the
    balance of [to]; no other entry, balance, the total supply or the
    underlying ledger changes.  A call that fails, at whichever check or in
    the transfer itself, changes nothing: the world after the transaction
    is the world before it. *)
Theorem transfer_authorization_atomic P env from to value validAfter validBefore
    nonce v r s w :
  let call := PieWrappedERC20.transferWithAuthorization P env from to value
                validAfter validBefore nonce v r s in
  match call w with
  | Ok _ w' =>
      fst (transact call w) = w' /\
      w' = settled (AuthorizationUsed from to value nonce) w from to value nonce /\
      authorizationState from nonce w = false /\
      authorizationState from nonce w' = true /\
      (forall a n, (a, n) <> (from, nonce) ->
         authorizationState a n w' = authorizationState a n w) /\
      (from <> to ->
         balanceOf w' from = balanceOf w from - value /\
         balanceOf w' to = (balanceOf w to + value) mod UINT256_MOD /\
         (0 <= balanceOf w to + value < UINT256_MOD ->
          balanceOf w' to = balanceOf w to + value)) /\
      (from = to -> balanceOf w' from = balanceOf w from mod UINT256_MOD) /\
      (forall a, a <> from -> a <> to -> balanceOf w' a = balanceOf w a) /\
      totalSupply w' = totalSupply w /\
      usd w' = usd w
  | Revert e =>
      fst (transact call w) = w /\
      snd (transact call w) = Some e
  end.
Proof.
  cbn zeta. unfold transact.
  destruct (PieWrappedERC20.transferWithAuthorization P env from to value
              validAfter validBefore nonce v r s w) as [[] w'|e] eqn:Hcall;
    [|split; reflexivity].
  apply transfer_ok_inv in Hcall as (_ & Hunused & _ & _ & _ & ->).
  split; [reflexivity|]. split; [reflexivity|]. split; [exact Hunused|].
  apply settled_changes.
Qed.

Lemma transfer_authorization_atomic_witness :
  let call :=
    PieWrappedERC20.transferWithAuthorization Demo.platform (Demo.at_time Demo.carol 5)
      Demo.alice Demo.bob 500 0 10 78
      27 Demo.alice (Demo.transfer_digest Demo.alice Demo.bob 500 0 10 78) in
  fst (transact call Demo.world0) = Demo.world0 /\
  snd (transact call Demo.world0) = Some (ERC20InsufficientBalance Demo.alice 100 500).
Proof.
  cbn zeta.
  pose proof (transfer_authorization_atomic Demo.platform (Demo.at_time Demo.carol 5)
                Demo.alice Demo.bob 500 0 10 78
                27 Demo.alice (Demo.transfer_digest Demo.alice Demo.bob 500 0 10 78)
                Demo.world0) as H.
  cbn zeta in H.
  remember (PieWrappedERC20.transferWithAuthorization Demo.platform
              (Demo.at_time Demo.carol 5) Demo.alice Demo.bob 500 0 10 78
              27 Demo.alice (Demo.transfer_digest Demo.alice Demo.bob 500 0 10 78)
              Demo.world0) as outcome eqn:Hrun in H.
  vm_compute in Hrun. subst outcome. exact H.
Defined.

(** The same holds of pieUSD, whose entry point differs in the event it
    logs. *)
Lemma pieusd_transfer_atomic P env from to value validAfter validBefore
    nonce v r s w :
  let call := PieUSD.transferWithAuthorization P env from to value
                validAfter validBefore nonce v r s in
  match call w with
  | Ok _ w' =>
      fst (transact call w) = w' /\
      w' = settled (AuthorizationUsedLegacy from nonce) w from to value nonce /\
      authorizationState from nonce w = false /\
      authorizationState from nonce w' = true
  | Revert e =>
      fst (transact call w) = w /\ snd (transact call w) = Some e
  end.
Proof.
  cbn zeta. unfold transact.
  destruct (PieUSD.transferWithAuthorization P env from to value
              validAfter validBefore nonce v r s w) as [[] w'|e] eqn:Hcall;
    [|split; reflexivity].
  rewrite legacy_transferWithAuthorization_eq in Hcall.
  apply guarded_settle_inv in Hcall as (_ & Hunused & _ & _ & _ & ->).
  split; [reflexivity|]. split; [reflexivity|]. split; [exact Hunused|].
  apply settled_marks.
Qed.

(** ** Push and pull *)

Lemma guarded_pass env from nonce validAfter validBefore (k : M unit) w b :
  authorization_valid env w from nonce validAfter validBefore b = true ->
  guarded env from nonce validAfter validBefore k w = k w /\ b = true.
Proof.
  unfold authorization_valid, PieWrappedERC20.in_window, guarded. intros H.
  apply andb_true_iff in H as [H Hb]. apply andb_true_iff in H as [H Hn].
  apply andb_true_iff in H as [Ha Hv].
  rewrite (Z.leb_antisym (block_timestamp env) validAfter) in Ha.
  rewrite (Z.leb_antisym validBefore (block_timestamp env)) in Hv.
  apply negb_true_iff in Ha, Hv, Hn. now rewrite Ha, Hv, Hn.
Qed.

Lemma settle_funded used from to value nonce w :
  from <> 0 -> transfer_funded w from to value = true ->
  settle used from to value nonce w = Ok tt (settled used w from to value nonce).
Proof.
  unfold transfer_funded, settle. intros Hfrom H.
  apply andb_true_iff in H as [Hto Hbal]. apply negb_true_iff in Hto.
  apply Z.eqb_neq in Hfrom. rewrite Hfrom, Hto.
  rewrite (Z.leb_antisym (balanceOf w from) value) in Hbal.
  apply negb_true_iff in Hbal. now rewrite Hbal.
Qed.

Lemma guarded_settle_ok P env used hash from to value validAfter validBefore nonce v r s w :
  authorization_valid env w from nonce validAfter validBefore
    (signature_ok P hash v r s from) = true ->
  transfer_funded w from to value = true ->
  guarded env from nonce validAfter validBefore
    (check_signer P hash v r s from (settle used from to value nonce)) w
  = Ok tt (settled used w from to value nonce).
Proof.
  intros Hvalid Hfunded.
  apply (guarded_pass _ _ _ _ _
           (check_signer P hash v r s from (settle used from to value nonce))) in Hvalid
    as [-> Hsig].
  rewrite check_signer_ok by exact Hsig.
  apply settle_funded; [|exact Hfunded].
  now apply signature_ok_signer in Hsig.
Qed.

Lemma guarded_settle_sig_ok P env used hash from to value validAfter validBefore nonce
    signature w :
  authorization_valid env w from nonce validAfter validBefore
    (signature_ok_sig P hash signature from) = true ->
  transfer_funded w from to value = true ->
  guarded env from nonce validAfter validBefore
    (check_signer_sig P hash signature from (settle used from to value nonce)) w
  = Ok tt (settled used w from to value nonce).
Proof.
  intros Hvalid Hfunded.
  apply (guarded_pass _ _ _ _ _
           (check_signer_sig P hash signature from (settle used from to value nonce)))
    in Hvalid as [-> Hsig].
  rewrite check_signer_sig_ok by exact Hsig.
  apply settle_funded; [|exact Hfunded].
  unfold signature_ok_sig in Hsig. apply andb_true_iff in Hsig as [_ Hsig].
  now apply signature_ok_signer in Hsig.
Qed.

(** C4, as amended: both styles are honoured.  Push: the outcome of
    [transferWithAuthorization] does not depend on who submits it, and an
    authorization that is valid and funded is settled for every submitter.
    Pull:
    [receiveWithAuthorization] reverts with [UnauthorizedReceiver] for
    every caller other than [to], so it can succeed only for [to]; called
    by [to] with a valid, funded authorization it is settled.  The same
    holds of the overloads that take the packed signature. *)
Theorem both_authorization_styles P env other from to value validAfter validBefore
    nonce v r s signature w :
  let push e := PieWrappedERC20.transferWithAuthorization P e from to value
                  validAfter validBefore nonce v r s w in
  let push_sig e := PieWrappedERC20.transferWithAuthorization_sig P e from to value
                      validAfter validBefore nonce signature w in
  let pull e := PieWrappedERC20.receiveWithAuthorization P e from to value
                  validAfter validBefore nonce v r s w in
  let pull_sig e := PieWrappedERC20.receiveWithAuthorization_sig P e from to value
                      validAfter validBefore nonce signature w in
  let hash typehash := transfer_hash P typehash from to value validAfter validBefore nonce in
  let valid typehash :=
    authorization_valid env w from nonce validAfter validBefore
      (signature_ok P (hash typehash) v r s from) in
  let valid_sig typehash :=
    authorization_valid env w from nonce validAfter validBefore
      (signature_ok_sig P (hash typehash) signature from) in
  let done := Ok tt (settled (AuthorizationUsed from to value nonce) w from to value nonce) in
  (* push: any submitter *)
  push (mkEnv other (block_timestamp env)) = push env /\
  push_sig (mkEnv other (block_timestamp env)) = push_sig env /\
  (valid (TRANSFER_WITH_AUTHORIZATION_TYPEHASH P) = true ->
   transfer_funded w from to value = true -> push env = done) /\
  (valid_sig (TRANSFER_WITH_AUTHORIZATION_TYPEHASH P) = true ->
   transfer_funded w from to value = true -> push_sig env = done) /\
  (* pull: the payee only *)
  (msg_sender env <> to ->
   pull env = Revert UnauthorizedReceiver /\ pull_sig env = Revert UnauthorizedReceiver) /\
  (forall w', pull env = Ok tt w' \/ pull_sig env = Ok tt w' -> msg_sender env = to) /\
  (msg_sender env = to ->
   valid (RECEIVE_WITH_AUTHORIZATION_TYPEHASH P) = true ->
   transfer_funded w from to value = true -> pull env = done) /\
  (msg_sender env = to ->
   valid_sig (RECEIVE_WITH_AUTHORIZATION_TYPEHASH P) = true ->
   transfer_funded w from to value = true -> pull_sig env = done).
Proof.
  cbv beta zeta.
  rewrite !transferWithAuthorization_eq, !transferWithAuthorization_sig_eq,
    !receiveWithAuthorization_eq, !receiveWithAuthorization_sig_eq.
  split; [reflexivity|]. split; [reflexivity|].
  split; [apply guarded_settle_ok|]. split; [apply guarded_settle_sig_ok|].
  destruct (Z.eqb_spec to (msg_sender env)) as [Heq|Hne].
  - split; [congruence|]. split; [auto|].
    split; intros _; [apply guarded_settle_ok|apply guarded_settle_sig_ok].
  - split; [auto|]. split; [intros w' [H|H]; discriminate|].
    split; congruence.
Qed.

Lemma both_authorization_styles_witness :
  let env := Demo.at_time Demo.bob 5 in
  PieWrappedERC20.receiveWithAuthorization Demo.platform env
    Demo.alice Demo.bob 10 0 10 77
    27 Demo.alice (Demo.receive_digest Demo.alice Demo.bob 10 0 10 77) Demo.world0
  = Ok tt DemoRuns.world1 /\
  PieWrappedERC20.receiveWithAuthorization Demo.platform (Demo.at_time Demo.carol 5)
    Demo.alice Demo.bob 10 0 10 77
    27 Demo.alice (Demo.receive_digest Demo.alice Demo.bob 10 0 10 77) Demo.world0
  = Revert UnauthorizedReceiver.
Proof.
  cbn zeta. split.
  - apply (both_authorization_styles Demo.platform (Demo.at_time Demo.bob 5) Demo.carol
             Demo.alice Demo.bob 10 0 10 77
             27 Demo.alice (Demo.receive_digest Demo.alice Demo.bob 10 0 10 77)
             DemoRuns.packed77 Demo.world0);
      vm_compute; reflexivity.
  - apply (both_authorization_styles Demo.platform (Demo.at_time Demo.carol 5) Demo.carol
             Demo.alice Demo.bob 10 0 10 77
             27 Demo.alice (Demo.receive_digest Demo.alice Demo.bob 10 0 10 77)
             DemoRuns.packed77 Demo.world0).
    vm_compute. discriminate.
Defined.

(** C4 as worded fails on a valid authorization that is not funded: Alice
    holds 100 tokens and has signed a transfer of 500; the authorization
    passes every check of the verifier, and the call reverts in the
    transfer, whoever submits it. *)
Lemma unfunded_push_counterexample :
  let digest := Demo.transfer_digest Demo.alice Demo.bob 500 0 10 78 in
  let push sender :=
    PieWrappedERC20.transferWithAuthorization Demo.platform (Demo.at_time sender 5)
      Demo.alice Demo.bob 500 0 10 78 27 Demo.alice digest Demo.world0 in
  authorization_valid (Demo.at_time Demo.carol 5) Demo.world0 Demo.alice 78 0 10
    (signature_ok Demo.platform digest 27 Demo.alice digest Demo.alice) = true /\
  push Demo.carol = Revert (ERC20InsufficientBalance Demo.alice 100 500) /\
  push Demo.bob = Revert (ERC20InsufficientBalance Demo.alice 100 500) /\
  push Demo.alice = Revert (ERC20InsufficientBalance Demo.alice 100 500).
Proof.
  cbv zeta. split; [vm_compute; reflexivity|].
  split; [vm_compute; reflexivity|].
  split; vm_compute; reflexivity.
Qed.

(** ** Cancelling *)

Lemma cancel_ok_inv P hash v r s authorizer nonce w w' :
  (if authorizationState authorizer nonce w then Revert AuthorizationAlreadyUsed
   else check_signer P hash v r s authorizer (cancel_done authorizer nonce) w) = Ok tt w' ->
  authorizationState authorizer nonce w = false /\
  signature_ok P hash v r s authorizer = true /\
  w' = canceled w authorizer nonce.
Proof.
  destruct (authorizationState authorizer nonce w); [discriminate|].
  intros H. apply check_signer_inv in H as [Hsig H].
  inversion H; subst. auto.
Qed.

Lemma canceled_changes w authorizer nonce :
  let w' := canceled w authorizer nonce in
  authorizationState authorizer nonce w' = true /\
  (forall a n, (a, n) <> (authorizer, nonce) ->
     authorizationState a n w' = authorizationState a n w) /\
  _balances (pie w') = _balances (pie w) /\
  (forall a, balanceOf w' a = balanceOf w a) /\
  totalSupply w' = totalSupply w /\
  usd w' = usd w /\
  _status (pie w') = _status (pie w) /\
  logs w' = logs w ++ [AuthorizationCanceled authorizer nonce].
Proof.
  cbn zeta. unfold authorizationState, canceled; cbn [pie].
  split; [rewrite authorization_after_mark; now case_decide|].
  split; [|repeat split].
  intros a n Hne. rewrite authorization_after_mark.
  case_decide; [congruence|reflexivity].
Qed.

(** C8: on an unused entry and with a signature of the cancellation that
    recovers to the authorizer, [cancelAuthorization] succeeds, sets that
    one entry of the registry and moves no value: every wrapped balance,
    the total supply and the whole ledger of the underlying token are what
    they were, and every other entry of the registry is unchanged. *)
Theorem cancel_moves_no_value P env authorizer nonce v r s w :
  authorizationState authorizer nonce w = false ->
  signature_ok P (cancel_hash P authorizer nonce) v r s authorizer = true ->
  exists w',
    PieWrappedERC20.cancelAuthorization P env authorizer nonce v r s w = Ok tt w' /\
    authorizationState authorizer nonce w' = true /\
    (forall a n, (a, n) <> (authorizer, nonce) ->
       authorizationState a n w' = authorizationState a n w) /\
    _balances (pie w') = _balances (pie w) /\
    (forall a, balanceOf w' a = balanceOf w a) /\
    totalSupply w' = totalSupply w /\
    usd w' = usd w /\
    _status (pie w') = _status (pie w) /\
    logs w' = logs w ++ [AuthorizationCanceled authorizer nonce].
Proof.
  intros Hunused Hsig. exists (canceled w authorizer nonce).
  split; [|apply canceled_changes].
  rewrite cancelAuthorization_eq, Hunused.
  now rewrite check_signer_ok.
Qed.

Lemma cancel_moves_no_value_witness :
  exists w',
    PieWrappedERC20.cancelAuthorization Demo.platform (Demo.at_time Demo.carol 5)
      Demo.alice 77 27 Demo.alice (Demo.cancel_digest Demo.alice 77) Demo.world0 = Ok tt w' /\
    authorizationState Demo.alice 77 w' = true /\
    (forall a n, (a, n) <> (Demo.alice, 77) ->
       authorizationState a n w' = authorizationState a n Demo.world0) /\
    _balances (pie w') = _balances (pie Demo.world0) /\
    (forall a, balanceOf w' a = balanceOf Demo.world0 a) /\
    totalSupply w' = totalSupply Demo.world0 /\
    usd w' = usd Demo.world0 /\
    _status (pie w') = _status (pie Demo.world0) /\
    logs w' = logs Demo.world0 ++ [AuthorizationCanceled Demo.alice 77].
Proof.
  apply (cancel_moves_no_value Demo.platform (Demo.at_time Demo.carol 5)
           Demo.alice 77 27 Demo.alice (Demo.cancel_digest Demo.alice 77) Demo.world0).
  - vm_compute. reflexivity.
  - vm_compute. reflexivity.
Defined.

(** pieUSD cancels the same way. *)
Lemma pieusd_cancel_frame P env authorizer nonce v r s w :
  authorizationState authorizer nonce w = false ->
  signature_ok P (cancel_hash P authorizer nonce) v r s authorizer = true ->
  PieUSD.cancelAuthorization P env authorizer nonce v r s w =
    Ok tt (canceled w authorizer nonce).
Proof.
  intros Hunused Hsig.
  rewrite legacy_cancelAuthorization_eq, Hunused.
  now rewrite check_signer_ok.
Qed.

(** C10: the registry holds one boolean per entry, so a cancelled
    authorization reads exactly as a used one.  After a successful
    [cancelAuthorization] the query [authorizationState] answers [true],
    the very answer it gives after a successful
    [transferWithAuthorization]; starting from the same world the two
    calls even leave the same registry. *)
Theorem cancel_reads_as_used P env env' authorizer nonce v r s
    to value validAfter validBefore v' r' s' w w0 w1 w2 :
  PieWrappedERC20.cancelAuthorization P env authorizer nonce v r s w = Ok tt w1 ->
  PieWrappedERC20.transferWithAuthorization P env' authorizer to value
    validAfter validBefore nonce v' r' s' w0 = Ok tt w2 ->
  authorizationState authorizer nonce w1 = true /\
  authorizationState authorizer nonce w2 = true /\
  authorizationState authorizer nonce w1 = authorizationState authorizer nonce w2 /\
  (w0 = w -> _authorizationStates (pie w1) = _authorizationStates (pie w2)).
Proof.
  intros Hcancel Htransfer.
  rewrite cancelAuthorization_eq in Hcancel.
  apply cancel_ok_inv in Hcancel as (_ & _ & ->).
  apply transfer_ok_inv in Htransfer as (_ & _ & _ & _ & _ & ->).
  assert (H1 : authorizationState authorizer nonce (canceled w authorizer nonce) = true)
    by apply canceled_changes.
  assert (H2 : authorizationState authorizer nonce
                 (settled (AuthorizationUsed authorizer to value nonce) w0
                    authorizer to value nonce) = true)
    by apply settled_marks.
  repeat split; [exact H1|exact H2|congruence|].
  intros ->. reflexivity.
Qed.

Lemma cancel_reads_as_used_witness :
  authorizationState Demo.alice 77 (canceled Demo.world0 Demo.alice 77) = true /\
  authorizationState Demo.alice 77 DemoRuns.world1 = true /\
  authorizationState Demo.alice 77 (canceled Demo.world0 Demo.alice 77) =
    authorizationState Demo.alice 77 DemoRuns.world1 /\
  (Demo.world0 = Demo.world0 ->
   _authorizationStates (pie (canceled Demo.world0 Demo.alice 77)) =
   _authorizationStates (pie DemoRuns.world1)).
Proof.
  apply (cancel_reads_as_used Demo.platform
           (Demo.at_time Demo.carol 5) (Demo.at_time Demo.carol 5)
           Demo.alice 77 27 Demo.alice (Demo.cancel_digest Demo.alice 77)
           Demo.bob 10 0 10 27 Demo.alice DemoRuns.digest77
           Demo.world0 Demo.world0).
  - vm_compute. reflexivity.
  - vm_compute. reflexivity.
Defined.

(** The query of pieUSD reads the same registry: a cancelled entry and a
    used entry both read [true]. *)
Lemma pieusd_cancel_query P env env' authorizer nonce v r s
    to value validAfter validBefore v' r' s' w w0 w1 w2 :
  PieUSD.cancelAuthorization P env authorizer nonce v r s w = Ok tt w1 ->
  PieUSD.transferWithAuthorization P env' authorizer to value
    validAfter validBefore nonce v' r' s' w0 = Ok tt w2 ->
  authorizationState authorizer nonce w1 = true /\
  authorizationState authorizer nonce w2 = true.
Proof.
  intros Hcancel Htransfer.
  rewrite legacy_cancelAuthorization_eq in Hcancel.
  apply cancel_ok_inv in Hcancel as (_ & _ & ->).
  rewrite legacy_transferWithAuthorization_eq in Htransfer.
  apply guarded_settle_inv in Htransfer as (_ & _ & _ & _ & _ & ->).
  split; [apply canceled_changes|apply settled_marks].
Qed.

(** ** The two encodings of a signature *)

Lemma byte_of_Z_value z : Z.of_N (Byte.to_N (ECDSA.byte_of_Z z)) = z mod 256.
Proof.
  unfold ECDSA.byte_of_Z.
  assert (Hrange : 0 <= z mod 256 < 256) by (apply Z.mod_pos_bound; lia).
  destruct (Byte.of_N (Z.to_N (z mod 256))) as [b|] eqn:Hb; unfold default; cbn [from_option id].
  - apply Byte.to_of_N in Hb. rewrite Hb. lia.
  - apply Byte.of_N_None_iff in Hb. lia.
Qed.

Lemma be_to_Z_snoc bs b :
  ECDSA.be_to_Z (bs ++ [b]) = ECDSA.be_to_Z bs * 256 + Z.of_N (Byte.to_N b).
Proof. unfold ECDSA.be_to_Z. now rewrite fold_left_app. Qed.

Lemma length_Z_to_be n z : length (ECDSA.Z_to_be n z) = n.
Proof.
  revert z. induction n as [|n IH]; intros z; cbn [ECDSA.Z_to_be]; [reflexivity|].
  rewrite length_app, IH. cbn. lia.
Qed.

Lemma be_to_Z_of_Z_to_be n z :
  ECDSA.be_to_Z (ECDSA.Z_to_be n z) = z mod 256 ^ Z.of_nat n.
Proof.
  revert z. induction n as [|n IH]; intros z; cbn [ECDSA.Z_to_be].
  - cbn. now rewrite Z.mod_1_r.
  - rewrite be_to_Z_snoc, IH, byte_of_Z_value.
    rewrite Nat2Z.inj_succ, Z.pow_succ_r by lia.
    rewrite Z.rem_mul_r; [lia|lia|].
    apply Z.pow_pos_nonneg; lia.
Qed.

Lemma be_to_Z_round_trip n z :
  0 <= z < 256 ^ Z.of_nat n -> ECDSA.be_to_Z (ECDSA.Z_to_be n z) = z.
Proof. intros H. rewrite be_to_Z_of_Z_to_be. now apply Z.mod_small. Qed.

Lemma length_pack v r s : length (ECDSA.pack v r s) = 65%nat.
Proof. unfold ECDSA.pack. now rewrite !length_app, !length_Z_to_be. Qed.

Lemma unpack_pack v r s :
  is_uint8 v -> is_uint256 r -> is_uint256 s ->
  ECDSA.sig_v (ECDSA.pack v r s) = v /\
  ECDSA.sig_r (ECDSA.pack v r s) = r /\
  ECDSA.sig_s (ECDSA.pack v r s) = s.
Proof.
  intros Hv Hr Hs. unfold ECDSA.sig_v, ECDSA.sig_r, ECDSA.sig_s, ECDSA.pack.
  repeat split.
  - rewrite app_assoc, drop_app_length'
      by (now rewrite length_app, !length_Z_to_be).
    rewrite take_ge by (now rewrite length_Z_to_be).
    now apply be_to_Z_round_trip.
  - rewrite take_app_length' by (now rewrite length_Z_to_be).
    now apply be_to_Z_round_trip.
  - rewrite drop_app_length' by (now rewrite length_Z_to_be).
    rewrite take_app_length' by (now rewrite length_Z_to_be).
    now apply be_to_Z_round_trip.
Qed.

Lemma check_signer_sig_unpacked P hash signature expected (k : M unit) w :
  length signature = 65%nat ->
  check_signer_sig P hash signature expected k w =
  check_signer P hash (ECDSA.sig_v signature) (ECDSA.sig_r signature)
               (ECDSA.sig_s signature) expected k w.
Proof. intros H. unfold check_signer_sig. now rewrite H. Qed.

(** C9: the two overloads of [transferWithAuthorization] agree.  On every
    65-byte signature the packed overload returns what the [v], [r], [s]
    overload returns on the three components read from it, and on the
    packed form of any [v], [r], [s] it returns what the structured
    overload returns on them: the same success with the same world, or the
    same revert.  Either overload succeeds only if the signer recovered
    from the EIP-712 digest of the authorization is [from]. *)
Theorem signature_encodings_agree P env from to value validAfter validBefore nonce
    v r s signature w :
  let by_vrs v r s :=
    PieWrappedERC20.transferWithAuthorization P env from to value
      validAfter validBefore nonce v r s w in
  let by_sig signature :=
    PieWrappedERC20.transferWithAuthorization_sig P env from to value
      validAfter validBefore nonce signature w in
  let digest := transfer_hash P (TRANSFER_WITH_AUTHORIZATION_TYPEHASH P)
                  from to value validAfter validBefore nonce in
  length signature = 65%nat ->
  is_uint8 v -> is_uint256 r -> is_uint256 s ->
  by_sig signature =
    by_vrs (ECDSA.sig_v signature) (ECDSA.sig_r signature) (ECDSA.sig_s signature) /\
  by_sig (ECDSA.pack v r s) = by_vrs v r s /\
  (forall w', by_vrs v r s = Ok tt w' -> ecrecover P digest v r s = from) /\
  (forall w', by_sig signature = Ok tt w' ->
     ecrecover P digest (ECDSA.sig_v signature) (ECDSA.sig_r signature)
               (ECDSA.sig_s signature) = from).
Proof.
  cbv beta zeta. intros Hlen Hv Hr Hs.
  assert (Hagree : forall sg, length sg = 65%nat ->
            PieWrappedERC20.transferWithAuthorization_sig P env from to value
              validAfter validBefore nonce sg w =
            PieWrappedERC20.transferWithAuthorization P env from to value
              validAfter validBefore nonce
              (ECDSA.sig_v sg) (ECDSA.sig_r sg) (ECDSA.sig_s sg) w).
  { intros sg Hsg.
    rewrite transferWithAuthorization_sig_eq, transferWithAuthorization_eq.
    unfold guarded. repeat (case_match; [reflexivity|]).
    now apply check_signer_sig_unpacked. }
  assert (Hsigner : forall v0 r0 s0 w',
            PieWrappedERC20.transferWithAuthorization P env from to value
              validAfter validBefore nonce v0 r0 s0 w = Ok tt w' ->
            ecrecover P (transfer_hash P (TRANSFER_WITH_AUTHORIZATION_TYPEHASH P)
                           from to value validAfter validBefore nonce) v0 r0 s0 = from).
  { intros v0 r0 s0 w' H. apply transfer_ok_inv in H as (_ & _ & Hsig & _).
    now apply signature_ok_signer in Hsig. }
  split; [now apply Hagree|].
  split.
  { rewrite Hagree by apply length_pack.
    destruct (unpack_pack v r s Hv Hr Hs) as (-> & -> & ->). reflexivity. }
  split; [intros w'; apply Hsigner|].
  intros w' H. rewrite Hagree in H by exact Hlen. revert H. apply Hsigner.
Qed.

Lemma signature_encodings_agree_witness :
  PieWrappedERC20.transferWithAuthorization_sig Demo.platform (Demo.at_time Demo.carol 5)
    Demo.alice Demo.bob 10 0 10 77 DemoRuns.packed77 Demo.world0
  = PieWrappedERC20.transferWithAuthorization Demo.platform (Demo.at_time Demo.carol 5)
      Demo.alice Demo.bob 10 0 10 77 27 Demo.alice DemoRuns.digest77 Demo.world0.
Proof.
  apply (signature_encodings_agree Demo.platform (Demo.at_time Demo.carol 5)
           Demo.alice Demo.bob 10 0 10 77 27 Demo.alice DemoRuns.digest77
           DemoRuns.packed77 Demo.world0).
  - reflexivity.
  - unfold is_uint8, UINT8_MOD. lia.
  - unfold is_uint256, UINT256_MOD, Demo.alice. lia.
  - unfold is_uint256. vm_compute. split; [discriminate|reflexivity].
Defined.

(** The same agreement for [receiveWithAuthorization] and for pieUSD. *)
Lemma receive_encodings P env from to value validAfter validBefore nonce signature w :
  length signature = 65%nat ->
  PieWrappedERC20.receiveWithAuthorization_sig P env from to value
    validAfter validBefore nonce signature w =
  PieWrappedERC20.receiveWithAuthorization P env from to value
    validAfter validBefore nonce
    (ECDSA.sig_v signature) (ECDSA.sig_r signature) (ECDSA.sig_s signature) w.
Proof.
  intros Hlen.
  rewrite receiveWithAuthorization_sig_eq, receiveWithAuthorization_eq.
  destruct (to =? msg_sender env); [|reflexivity].
  unfold guarded. repeat (case_match; [reflexivity|]).
  now apply check_signer_sig_unpacked.
Qed.

Lemma pieusd_encodings P env from to value validAfter validBefore nonce signature w :
  length signature = 65%nat ->
  PieUSD.transferWithAuthorization_sig P env from to value
    validAfter validBefore nonce signature w =
  PieUSD.transferWithAuthorization P env from to value
    validAfter validBefore nonce
    (ECDSA.sig_v signature) (ECDSA.sig_r signature) (ECDSA.sig_s signature) w.
Proof.
  intros Hlen.
  rewrite legacy_transferWithAuthorization_sig_eq, legacy_transferWithAuthorization_eq.
  unfold guarded. repeat (case_match; [reflexivity|]).
  now apply check_signer_sig_unpacked.
Qed.

(** ** The wrapped ledger stays sound *)

Lemma sum_balances_empty : sum_balances ∅ = 0.
Proof. apply map_fold_empty. Qed.

Lemma sum_balances_insert_fresh (m : gmap Z Z) i x :
  m !! i = None -> sum_balances (<[i := x]> m) = x + sum_balances m.
Proof.
  intros Hfresh. unfold sum_balances.
  rewrite map_fold_insert_L; [reflexivity| |exact Hfresh].
  intros; lia.
Qed.

Lemma sum_balances_insert (m : gmap Z Z) i x :
  sum_balances (<[i := x]> m) = x + sum_balances m - default 0 (m !! i).
Proof.
  destruct (m !! i) as [y|] eqn:Hi; cbn.
  - rewrite <- (insert_delete_eq m i x).
    rewrite sum_balances_insert_fresh by apply lookup_delete_eq.
    rewrite <- (insert_delete_id m i y Hi) at 2.
    rewrite sum_balances_insert_fresh by apply lookup_delete_eq. lia.
  - rewrite sum_balances_insert_fresh by exact Hi. lia.
Qed.

Lemma sum_balances_nonneg (m : gmap Z Z) :
  map_Forall (fun _ v => 0 <= v) m -> 0 <= sum_balances m.
Proof.
  induction m as [|i x m Hfresh IH] using map_ind; intros Hall.
  - rewrite sum_balances_empty. lia.
  - rewrite sum_balances_insert_fresh by exact Hfresh.
    apply map_Forall_insert in Hall as [Hx Hrest]; [|exact Hfresh].
    specialize (IH Hrest). lia.
Qed.

Lemma sum_balances_bound (m : gmap Z Z) i :
  map_Forall (fun _ v => 0 <= v) m ->
  0 <= default 0 (m !! i) <= sum_balances m.
Proof.
  intros Hall. destruct (m !! i) as [y|] eqn:Hi; cbn.
  - pose proof (Hall i y Hi) as Hy. cbn in Hy.
    rewrite <- (insert_delete_id m i y Hi).
    rewrite sum_balances_insert_fresh by apply lookup_delete_eq.
    pose proof (sum_balances_nonneg (delete i m) (map_Forall_delete _ _ i Hall)). lia.
  - pose proof (sum_balances_nonneg m Hall). lia.
Qed.

(** In a sound ledger every balance lies between zero and the supply. *)
Lemma ledger_sound_balance w account :
  ledger_sound w ->
  0 <= balanceOf w account <= totalSupply w /\ totalSupply w < UINT256_MOD.
Proof.
  intros (Hall & Hsum & Hsupply). split; [|exact Hsupply].
  unfold balanceOf, balance_in, totalSupply. rewrite <- Hsum.
  now apply sum_balances_bound.
Qed.

Lemma ledger_sound_fresh usd0 logs0 : ledger_sound (mkWorld fresh_storage usd0 logs0).
Proof.
  unfold ledger_sound, fresh_storage; cbn. split; [apply map_Forall_empty|].
  split; [apply sum_balances_empty|reflexivity].
Qed.

(** Worlds with the same ERC-20 ledger are sound together. *)
Lemma ledger_sound_same w w' :
  _balances (pie w') = _balances (pie w) ->
  _totalSupply (pie w') = _totalSupply (pie w) ->
  ledger_sound w -> ledger_sound w'.
Proof. unfold ledger_sound. intros -> ->. auto. Qed.

Lemma ledger_sound_minted w account value :
  0 <= value -> totalSupply w + value < UINT256_MOD ->
  ledger_sound w -> ledger_sound (minted w account value).
Proof.
  intros Hvalue Hroom Hsound.
  destruct (ledger_sound_balance w account Hsound) as [Hbal _].
  destruct Hsound as (Hall & Hsum & Hsupply).
  unfold balanceOf, balance_in, totalSupply in *.
  unfold ledger_sound, minted; cbn.
  unfold balance_in; cbn.
  rewrite Z.mod_small by lia.
  split; [|split].
  - apply map_Forall_insert_2; [lia|exact Hall].
  - rewrite sum_balances_insert. lia.
  - exact Hroom.
Qed.

Lemma ledger_sound_burned w account value :
  0 <= value -> value <= balanceOf w account ->
  ledger_sound w -> ledger_sound (burned w account value).
Proof.
  intros Hvalue Hheld Hsound.
  destruct (ledger_sound_balance w account Hsound) as [Hbal _].
  destruct Hsound as (Hall & Hsum & Hsupply).
  unfold balanceOf, balance_in, totalSupply in *.
  unfold ledger_sound, burned; cbn.
  assert (Hrange : 0 <= _totalSupply (pie w) - value < UINT256_MOD) by lia.
  rewrite Z.mod_small by exact Hrange.
  unfold balance_in.
  split; [|split].
  - apply map_Forall_insert_2; [lia|exact Hall].
  - rewrite sum_balances_insert. lia.
  - lia.
Qed.

Lemma ledger_sound_settled used w from to value nonce :
  0 <= value -> value <= balanceOf w from ->
  ledger_sound w -> ledger_sound (settled used w from to value nonce).
Proof.
  intros Hvalue Hheld Hsound.
  destruct (ledger_sound_balance w from Hsound) as [Hfrom _].
  destruct (ledger_sound_balance w to Hsound) as [Hto _].
  destruct Hsound as (Hall & Hsum & Hsupply).
  unfold balanceOf, balance_in, totalSupply in *.
  unfold ledger_sound, settled; cbn.
  unfold balance_in; cbn.
  rewrite lookup_insert.
  assert (Hpair : from <> to ->
            default 0 (_balances (pie w) !! from) + default 0 (_balances (pie w) !! to)
            <= sum_balances (_balances (pie w))).
  { intros Hne.
    pose proof (sum_balances_bound (delete from (_balances (pie w))) to
                  (map_Forall_delete _ _ from Hall)) as Hrest.
    rewrite lookup_delete_ne in Hrest by exact Hne.
    pose proof (sum_balances_insert (delete from (_balances (pie w))) from
                  (default 0 (_balances (pie w) !! from))) as Hsplit.
    rewrite lookup_delete_eq in Hsplit. cbn in Hsplit.
    destruct (_balances (pie w) !! from) as [y|] eqn:Hy; cbn in *.
    - rewrite insert_delete_eq, (insert_id _ _ _ Hy) in Hsplit. lia.
    - rewrite delete_id in Hrest by exact Hy. lia. }
  case_decide as Heq.
  - subst to. cbn.
    replace (default 0 (_balances (pie w) !! from) - value + value)
      with (default 0 (_balances (pie w) !! from)) by lia.
    rewrite Z.mod_small by lia.
    split; [|split; [|exact Hsupply]].
    + apply map_Forall_insert_2; [lia|].
      apply map_Forall_insert_2; [lia|exact Hall].
    + rewrite !sum_balances_insert, lookup_insert_eq. cbn. lia.
  - specialize (Hpair Heq).
    rewrite Z.mod_small by lia.
    split; [|split; [|exact Hsupply]].
    + apply map_Forall_insert_2; [lia|].
      apply map_Forall_insert_2; [lia|exact Hall].
    + rewrite !sum_balances_insert, lookup_insert_ne by exact Heq. lia.
Qed.

(** ** Deposit and redeem over a plain token *)

Lemma bind_inv {A B} (c : M A) (k : A -> M B) w b w' :
  bind c k w = Ok b w' -> exists a w1, c w = Ok a w1 /\ k a w1 = Ok b w'.
Proof.
  unfold bind. destruct (c w) as [a w1|e]; [eauto|discriminate].
Qed.

Lemma revert_if_inv cond e w u w' :
  revert_if cond e w = Ok u w' -> cond = false /\ w' = w.
Proof. destruct cond; cbn; intros H; inversion H; auto. Qed.

Lemma mint_eq account value w :
  _mint account value w =
  if account =? 0 then Revert (ERC20InvalidReceiver 0)
  else if _totalSupply (pie w) + value <? UINT256_MOD
       then Ok tt (minted w account value)
       else Revert (Panic 0x11).
Proof.
  unfold _mint, _update, bind, get, put_pie, emit, revert_if, revert, ret.
  destruct (account =? 0) eqn:Ha; cbn; [reflexivity|].
  now destruct (_totalSupply (pie w) + value <? UINT256_MOD).
Qed.

Lemma burn_eq account value w :
  _burn account value w =
  if account =? 0 then Revert (ERC20InvalidSender 0)
  else if balanceOf w account <? value
       then Revert (ERC20InsufficientBalance account (balanceOf w account) value)
       else Ok tt (burned w account value).
Proof.
  unfold _burn, _update, bind, get, put_pie, emit, revert_if, revert, ret, balanceOf.
  destruct (account =? 0) eqn:Ha; cbn; [reflexivity|].
  now destruct (balance_in (pie w) account <? value).
Qed.

Lemma token_move_eq from to value w :
  StandardToken.move from to value w =
  if from =? 0 then Revert (ERC20InvalidSender 0)
  else if to =? 0 then Revert (ERC20InvalidReceiver 0)
  else if token_balance w from <? value
       then Revert (ERC20InsufficientBalance from (token_balance w from) value)
       else Ok tt (token_moved w from to value).
Proof.
  unfold StandardToken.move, StandardToken.put_usd, bind, get, revert_if, revert, ret,
    token_balance.
  destruct (from =? 0); cbn; [reflexivity|].
  destruct (to =? 0); cbn; [reflexivity|].
  now destruct (StandardToken.balance (usd w) from <? value).
Qed.

Lemma token_spend_eq owner spender value w :
  StandardToken.spendAllowance owner spender value w =
  if (negb (StandardToken.allowance (usd w) owner spender =? UINT256_MOD - 1)) &&
     (StandardToken.allowance (usd w) owner spender <? value)
  then Revert (ERC20InsufficientAllowance spender
                 (StandardToken.allowance (usd w) owner spender) value)
  else Ok tt (allowance_spent w owner spender value).
Proof.
  unfold StandardToken.spendAllowance, StandardToken.put_usd, allowance_spent,
    bind, get, revert_if, revert, ret.
  destruct (StandardToken.allowance (usd w) owner spender =? UINT256_MOD - 1);
    cbn; [reflexivity|].
  now destruct (StandardToken.allowance (usd w) owner spender <? value).
Qed.

Lemma nonReentrantBefore_eq w :
  _nonReentrantBefore w =
  if _status (pie w) =? ENTERED then Revert ReentrancyGuardReentrantCall
  else Ok tt (with_status w ENTERED).
Proof.
  unfold _nonReentrantBefore, bind, get, revert_if.
  now destruct (_status (pie w) =? ENTERED).
Qed.

Lemma nonReentrantAfter_eq w :
  _nonReentrantAfter w = Ok tt (with_status w NOT_ENTERED).
Proof. reflexivity. Qed.

Lemma static_balanceOf_std account w :
  static_balanceOf StandardToken.token account w = Ok (token_balance w account) w.
Proof. reflexivity. Qed.

Lemma pie_allowance_spent w owner spender value :
  pie (allowance_spent w owner spender value) = pie w.
Proof. unfold allowance_spent. now destruct (_ =? _). Qed.

Lemma token_balance_allowance_spent w owner spender value a :
  token_balance (allowance_spent w owner spender value) a = token_balance w a.
Proof. unfold allowance_spent, token_balance. now destruct (_ =? _). Qed.

Lemma token_transferFrom_inv caller from to value w ret w' :
  StandardToken.transferFrom caller from to value w = Ok ret w' ->
  ret = Some true /\
  from <> 0 /\ to <> 0 /\
  value <= token_balance w from /\
  w' = token_moved (allowance_spent w from caller value) from to value.
Proof.
  unfold StandardToken.transferFrom. intros H.
  apply bind_inv in H as ([] & w1 & Hspend & H).
  apply bind_inv in H as ([] & w2 & Hmove & H).
  inversion H; subst; clear H.
  rewrite token_spend_eq in Hspend.
  destruct (_ && _); [discriminate|]. inversion Hspend; subst; clear Hspend.
  rewrite token_move_eq in Hmove.
  destruct (Z.eqb_spec from 0); [discriminate|].
  destruct (Z.eqb_spec to 0); [discriminate|].
  destruct (Z.ltb_spec (token_balance (allowance_spent w from caller value) from) value);
    [discriminate|].
  inversion Hmove; subst; clear Hmove.
  repeat split; auto.
  unfold token_balance, allowance_spent in *.
  destruct (_ =? _); exact H.
Qed.

Lemma deposit_inv P env amount w w1 :
  PieWrappedERC20.deposit P StandardToken.token env amount w = Ok tt w1 ->
  let caller := msg_sender env in
  let wC := token_moved (allowance_spent (with_status w ENTERED) caller (self P) amount)
              caller (self P) amount in
  _status (pie w) <> ENTERED /\
  amount <> 0 /\ caller <> 0 /\ self P <> 0 /\
  amount <= token_balance w caller /\
  token_balance wC (self P) = token_balance w (self P) + amount /\
  totalSupply w + amount < UINT256_MOD /\
  w1 = deposited P env amount w.
Proof.
  unfold PieWrappedERC20.deposit, nonReentrant. intros H.
  apply bind_inv in H as ([] & wA & Hbefore & H).
  rewrite nonReentrantBefore_eq in Hbefore.
  destruct (Z.eqb_spec (_status (pie w)) ENTERED) as [|Hstatus]; [discriminate|].
  inversion Hbefore; subst; clear Hbefore.
  apply bind_inv in H as ([] & wE & Hbody & Hafter).
  rewrite nonReentrantAfter_eq in Hafter. inversion Hafter; subst; clear Hafter.
  apply bind_inv in Hbody as ([] & w0 & Hzero & Hbody).
  apply revert_if_inv in Hzero as [Hzero ->]. apply Z.eqb_neq in Hzero.
  apply bind_inv in Hbody as (balanceBefore & w0 & Hb & Hbody).
  rewrite static_balanceOf_std in Hb. inversion Hb; subst; clear Hb.
  apply bind_inv in Hbody as ([] & wC & Hpull & Hbody).
  unfold SafeERC20.safeTransferFrom, SafeERC20._callOptionalReturn in Hpull.
  apply bind_inv in Hpull as (returndata & wC' & Hpull & Hret).
  cbn [ierc20_transferFrom StandardToken.token] in Hpull.
  apply token_transferFrom_inv in Hpull as (-> & Hcaller & Hself & Hheld & ->).
  inversion Hret; subst; clear Hret.
  apply bind_inv in Hbody as (balanceAfter & w0 & Ha & Hbody).
  rewrite static_balanceOf_std in Ha. inversion Ha; subst; clear Ha.
  apply bind_inv in Hbody as (received & w0 & Hsub & Hbody).
  unfold checked_sub in Hsub.
  destruct (_ <? _); [discriminate|]. inversion Hsub; subst; clear Hsub.
  apply bind_inv in Hbody as ([] & w0 & Hsame & Hbody).
  apply revert_if_inv in Hsame as [Hsame ->].
  apply negb_false_iff, Z.eqb_eq in Hsame.
  apply bind_inv in Hbody as ([] & wD & Hmint & Hemit).
  rewrite mint_eq in Hmint.
  destruct (msg_sender env =? 0); [discriminate|].
  destruct (_ <? UINT256_MOD) eqn:Hsupply in Hmint; [|discriminate].
  apply Z.ltb_lt in Hsupply.
  inversion Hmint; subst; clear Hmint.
  inversion Hemit; subst; clear Hemit.
  cbn zeta. rewrite Hsame in *.
  change (token_balance (with_status w ENTERED)) with (token_balance w) in *.
  change (_totalSupply (pie (token_moved ?x _ _ _))) with (_totalSupply (pie x)) in Hsupply.
  rewrite pie_allowance_spent in Hsupply.
  repeat split; auto.
  lia.
Qed.

Lemma token_transfer_ok caller to value w :
  caller <> 0 -> to <> 0 -> value <= token_balance w caller ->
  SafeERC20.safeTransfer StandardToken.token caller to value w =
    Ok tt (token_moved w caller to value).
Proof.
  intros Hcaller Hto Hheld.
  unfold SafeERC20.safeTransfer, SafeERC20._callOptionalReturn.
  cbn [ierc20_transfer StandardToken.token]. unfold StandardToken.transfer.
  rewrite (bind_ok _ _ _ (Some true) (token_moved w caller to value)); [reflexivity|].
  rewrite (bind_ok _ _ _ tt (token_moved w caller to value)); [reflexivity|].
  rewrite token_move_eq.
  apply Z.eqb_neq in Hcaller, Hto. rewrite Hcaller, Hto.
  apply Z.ltb_ge in Hheld. now rewrite Hheld.
Qed.

Lemma redeem_ok P env amount w :
  let caller := msg_sender env in
  _status (pie w) <> ENTERED ->
  amount <> 0 -> caller <> 0 -> self P <> 0 ->
  amount <= balanceOf w caller ->
  amount <= token_balance w (self P) ->
  PieWrappedERC20.redeem P StandardToken.token env amount w =
    Ok tt (redeemed P env amount w).
Proof.
  cbn zeta. intros Hstatus Hzero Hcaller Hself Hbal Hreserve.
  unfold PieWrappedERC20.redeem, nonReentrant.
  apply Z.eqb_neq in Hstatus, Hzero. apply Z.ltb_ge in Hbal.
  set (wA := with_status w ENTERED).
  set (wB := burned wA (msg_sender env) amount).
  set (wC := token_moved wB (self P) (msg_sender env) amount).
  rewrite (bind_ok _ _ _ tt wA);
    [|rewrite nonReentrantBefore_eq; now rewrite Hstatus].
  rewrite (bind_ok _ _ _ tt (logged wC (Redeem (msg_sender env) amount)));
    [apply nonReentrantAfter_eq|].
  rewrite (bind_ok _ _ _ tt wA); [|now rewrite Hzero].
  rewrite (bind_ok _ _ _ wA wA); [|reflexivity].
  rewrite (bind_ok _ _ _ tt wA);
    [|change (balanceOf wA) with (balanceOf w); now rewrite Hbal].
  rewrite (bind_ok _ _ _ tt wB);
    [|rewrite burn_eq; apply Z.eqb_neq in Hcaller; rewrite Hcaller;
      change (balanceOf wA) with (balanceOf w); now rewrite Hbal].
  rewrite (bind_ok _ _ _ tt wC); [reflexivity|].
  now apply token_transfer_ok.
Qed.

Lemma token_balance_moved w from to value a :
  token_balance (token_moved w from to value) a =
  if decide (to = a) then
    ((if decide (from = to) then token_balance w from - value else token_balance w to)
     + value) mod UINT256_MOD
  else if decide (from = a) then token_balance w from - value
  else token_balance w a.
Proof.
  unfold token_balance, token_moved, StandardToken.balance, StandardToken.set_balance;
    cbn [usd tl_balances].
  rewrite !lookup_insert.
  repeat case_decide; subst; cbn; try reflexivity; congruence.
Qed.

Lemma balanceOf_minted w account value a :
  balanceOf (minted w account value) a =
  if decide (account = a) then (balanceOf w account + value) mod UINT256_MOD
  else balanceOf w a.
Proof.
  unfold balanceOf, minted; cbn [pie]. rewrite balance_after_set.
  now case_decide.
Qed.

Lemma balanceOf_burned w account value a :
  balanceOf (burned w account value) a =
  if decide (account = a) then balanceOf w account - value else balanceOf w a.
Proof.
  unfold balanceOf, burned; cbn [pie].
  change (balance_in (set_totalSupply ?s _) a) with (balance_in s a).
  rewrite balance_after_set. now case_decide.
Qed.

Lemma deposited_observed P env amount w a :
  let caller := msg_sender env in
  let w1 := deposited P env amount w in
  token_balance w1 a =
    token_balance (token_moved w caller (self P) amount) a /\
  balanceOf w1 a =
    (if decide (caller = a) then (balanceOf w caller + amount) mod UINT256_MOD
     else balanceOf w a) /\
  totalSupply w1 = totalSupply w + amount /\
  _status (pie w1) = NOT_ENTERED.
Proof.
  cbn zeta. unfold deposited.
  set (wB := allowance_spent (with_status w ENTERED) (msg_sender env) (self P) amount).
  assert (HtB : forall b, token_balance wB b = token_balance w b)
    by (intros b; unfold wB; now rewrite token_balance_allowance_spent).
  assert (HpB : pie wB = pie (with_status w ENTERED))
    by apply pie_allowance_spent.
  split; [|split; [|split]].
  - change (token_balance (token_moved wB (msg_sender env) (self P) amount) a =
            token_balance (token_moved w (msg_sender env) (self P) amount) a).
    rewrite !token_balance_moved, !HtB. reflexivity.
  - change (balanceOf (minted (token_moved wB (msg_sender env) (self P) amount)
                         (msg_sender env) amount) a =
            if decide (msg_sender env = a)
            then (balanceOf w (msg_sender env) + amount) mod UINT256_MOD
            else balanceOf w a).
    rewrite balanceOf_minted.
    unfold balanceOf. cbn [pie token_moved]. rewrite HpB. reflexivity.
  - unfold totalSupply. cbn. rewrite HpB. reflexivity.
  - reflexivity.
Qed.

Lemma redeemed_observed P env amount w a :
  let caller := msg_sender env in
  let w2 := redeemed P env amount w in
  token_balance w2 a =
    token_balance (token_moved w (self P) caller amount) a /\
  balanceOf w2 a =
    (if decide (caller = a) then balanceOf w caller - amount else balanceOf w a) /\
  totalSupply w2 = (totalSupply w - amount) mod UINT256_MOD.
Proof.
  cbn zeta. unfold redeemed. split; [|split].
  - reflexivity.
  - change (balanceOf (burned (with_status w ENTERED) (msg_sender env) amount) a =
            if decide (msg_sender env = a) then balanceOf w (msg_sender env) - amount
            else balanceOf w a).
    now rewrite balanceOf_burned.
  - reflexivity.
Qed.

(** Step by step: what a deposit that goes through does, and that the
    redemption of the same amount then goes through and undoes it. *)
Lemma deposit_then_redeem P env x w w1 :
  let caller := msg_sender env in
  is_uint256 x ->
  is_uint256 (balanceOf w caller) -> balanceOf w caller <= totalSupply w ->
  is_uint256 (token_balance w caller) -> is_uint256 (token_balance w (self P)) ->
  PieWrappedERC20.deposit P StandardToken.token env x w = Ok tt w1 ->
  x <= token_balance w caller /\
  token_balance w1 caller = token_balance w caller - x /\
  balanceOf w1 caller = balanceOf w caller + x /\
  token_balance w1 (self P) = token_balance w (self P) + x /\
  exists w2,
    PieWrappedERC20.redeem P StandardToken.token env x w1 = Ok tt w2 /\
    balanceOf w2 caller = balanceOf w caller /\
    token_balance w2 caller = token_balance w caller /\
    token_balance w2 (self P) = token_balance w (self P) /\
    totalSupply w2 = totalSupply w.
Proof.
  cbn zeta. unfold is_uint256. intros Hx Hwb Hsupply Htb Hreserve Hdeposit.
  apply deposit_inv in Hdeposit
    as (Hstatus & Hzero & Hcaller & Hself & Hheld & Hlocked & Hroom & ->).
  cbn zeta in Hlocked.
  rewrite token_balance_moved, !token_balance_allowance_spent in Hlocked.
  change (token_balance (with_status w ENTERED)) with (token_balance w) in Hlocked.
  destruct (decide (self P = self P)) as [_|]; [|congruence].
  assert (Hne : msg_sender env <> self P).
  { intros Heq. destruct (decide (msg_sender env = self P)); [|congruence].
    rewrite Heq in Hlocked.
    replace (token_balance w (self P) - x + x) with (token_balance w (self P)) in Hlocked
      by lia.
    rewrite Z.mod_small in Hlocked by lia. lia. }
  destruct (decide (msg_sender env = self P)) as [|_]; [congruence|].
  destruct (deposited_observed P env x w (msg_sender env)) as (Ht1 & Hb1 & Hs1 & Hst1).
  destruct (deposited_observed P env x w (self P)) as (Ht1' & _).
  cbn zeta in *.
  rewrite token_balance_moved in Ht1, Ht1'.
  repeat (case_decide; try congruence).
  rewrite Z.mod_small in Hb1 by lia.
  split; [exact Hheld|]. split; [exact Ht1|]. split; [exact Hb1|].
  split; [now rewrite Ht1'|].
  exists (redeemed P env x (deposited P env x w)).
  split.
  { apply redeem_ok; cbn zeta; try assumption.
    - rewrite Hst1. discriminate.
    - rewrite Hb1. lia.
    - rewrite Ht1', Hlocked. lia. }
  destruct (redeemed_observed P env x (deposited P env x w) (msg_sender env))
    as (Ht2 & Hb2 & Hs2).
  destruct (redeemed_observed P env x (deposited P env x w) (self P)) as (Ht2' & _).
  cbn zeta in *.
  rewrite token_balance_moved in Ht2, Ht2'.
  repeat (case_decide; try congruence).
  rewrite Ht1, Ht1' in *. rewrite Hlocked in *.
  split; [rewrite Hb2, Hb1; lia|].
  split; [rewrite Ht2; replace (token_balance w (msg_sender env) - x + x)
            with (token_balance w (msg_sender env)) by lia;
          apply Z.mod_small; lia|].
  split; [rewrite Ht2'; lia|].
  rewrite Hs2, Hs1.
  replace (totalSupply w + x - x) with (totalSupply w) by lia.
  apply Z.mod_small. lia.
Qed.

Lemma world0_ledger_sound : ledger_sound Demo.world0.
Proof.
  unfold ledger_sound, Demo.world0; cbn [pie _balances _totalSupply].
  split; [|split; [|reflexivity]].
  - apply map_Forall_singleton. unfold Demo.alice. lia.
  - unfold sum_balances. rewrite map_fold_singleton. reflexivity.
Qed.

(** The deposit of the example does go through. *)
Lemma deposit_example_runs :
  PieWrappedERC20.deposit Demo.platform StandardToken.token
    (Demo.at_time Demo.alice 5) 30 Demo.world0 =
  Ok tt (deposited Demo.platform (Demo.at_time Demo.alice 5) 30 Demo.world0).
Proof. vm_compute. reflexivity. Qed.

(** When a deposit goes through: a positive amount the caller holds and
    has approved, room left in the supply and in the reserve. *)
Lemma deposit_ok P env amount w :
  let caller := msg_sender env in
  _status (pie w) <> ENTERED ->
  amount <> 0 -> caller <> 0 -> self P <> 0 -> caller <> self P ->
  amount <= token_balance w caller ->
  amount <= StandardToken.allowance (usd w) caller (self P) ->
  0 <= token_balance w (self P) ->
  0 <= amount ->
  token_balance w (self P) + amount < UINT256_MOD ->
  totalSupply w + amount < UINT256_MOD ->
  PieWrappedERC20.deposit P StandardToken.token env amount w =
    Ok tt (deposited P env amount w).
Proof.
  cbn zeta. intros Hstatus Hzero Hcaller Hself Hne Hheld Hallowed Hreserve Hpos Hroom Hsupply.
  unfold PieWrappedERC20.deposit, nonReentrant.
  apply Z.eqb_neq in Hstatus, Hzero.
  set (wA := with_status w ENTERED).
  set (wB := allowance_spent wA (msg_sender env) (self P) amount).
  set (wC := token_moved wB (msg_sender env) (self P) amount).
  set (wD := minted wC (msg_sender env) amount).
  assert (HtB : forall b, token_balance wB b = token_balance w b)
    by (intros b; unfold wB; now rewrite token_balance_allowance_spent).
  assert (HtC : token_balance wC (self P) = token_balance w (self P) + amount).
  { unfold wC. rewrite token_balance_moved, !HtB.
    repeat (case_decide; try congruence). apply Z.mod_small. lia. }
  rewrite (bind_ok _ _ _ tt wA);
    [|rewrite nonReentrantBefore_eq; now rewrite Hstatus].
  rewrite (bind_ok _ _ _ tt (logged wD (Deposit (msg_sender env) amount)));
    [apply nonReentrantAfter_eq|].
  rewrite (bind_ok _ _ _ tt wA); [|now rewrite Hzero].
  rewrite (bind_ok _ _ _ (token_balance w (self P)) wA); [|reflexivity].
  rewrite (bind_ok _ _ _ tt wC).
  2:{ unfold SafeERC20.safeTransferFrom, SafeERC20._callOptionalReturn.
      cbn [ierc20_transferFrom StandardToken.token]. unfold StandardToken.transferFrom.
      rewrite (bind_ok _ _ _ (Some true) wC); [reflexivity|].
      rewrite (bind_ok _ _ _ tt wB).
      2:{ rewrite token_spend_eq.
          change (usd wA) with (usd w).
          apply Z.ltb_ge in Hallowed. rewrite Hallowed, andb_false_r. reflexivity. }
      rewrite (bind_ok _ _ _ tt wC); [reflexivity|].
      rewrite token_move_eq, HtB.
      apply Z.eqb_neq in Hcaller, Hself. rewrite Hcaller, Hself.
      apply Z.ltb_ge in Hheld. now rewrite Hheld. }
  rewrite (bind_ok _ _ _ (token_balance wC (self P)) wC); [|reflexivity].
  rewrite (bind_ok _ _ _ amount wC).
  2:{ unfold checked_sub. rewrite HtC.
      replace (token_balance w (self P) + amount <? token_balance w (self P)) with false
        by (symmetry; apply Z.ltb_ge; lia).
      unfold ret. f_equal. lia. }
  rewrite (bind_ok _ _ _ tt wC); [|now rewrite Z.eqb_refl].
  rewrite (bind_ok _ _ _ tt wD); [reflexivity|].
  rewrite mint_eq. apply Z.eqb_neq in Hcaller. rewrite Hcaller.
  replace (_totalSupply (pie wC)) with (totalSupply w).
  2:{ unfold wC, wB, totalSupply. cbn [pie token_moved].
      now rewrite pie_allowance_spent. }
  apply Z.ltb_lt in Hsupply. now rewrite Hsupply.
Qed.

(** C5, as amended: over a plain underlying token, a deposit of [x]
    followed by a redemption of [x] is a round trip without fee, for every
    caller and every non-zero amount the caller holds in the underlying
    token and has approved the wrapper to pull.  In a state where the
    wrapped ledger is sound, the underlying balances are [uint256] values
    and the guard is released, with the caller neither the zero address
    nor the wrapper and with room for [x] in the reserve and in the
    supply: [deposit(x)] goes through, debits the caller [x] underlying
    tokens, locks them in the wrapper and credits [x] wrapped tokens;
    [redeem(x)] then goes through, burns the [x] wrapped tokens and
    releases [x] underlying tokens; the caller's two balances, the reserve
    and the total supply are back to what they were, and the two calls
    sent as two transactions end in that same state. *)
Theorem deposit_redeem_round_trip P env x w :
  let caller := msg_sender env in
  let deposit := PieWrappedERC20.deposit P StandardToken.token env x in
  let redeem := PieWrappedERC20.redeem P StandardToken.token env x in
  ledger_sound w ->
  is_uint256 (token_balance w caller) -> is_uint256 (token_balance w (self P)) ->
  _status (pie w) <> ENTERED ->
  caller <> 0 -> self P <> 0 -> caller <> self P ->
  0 < x ->
  x <= token_balance w caller ->
  x <= StandardToken.allowance (usd w) caller (self P) ->
  token_balance w (self P) + x < UINT256_MOD ->
  totalSupply w + x < UINT256_MOD ->
  exists w1 w2,
    deposit w = Ok tt w1 /\
    token_balance w1 caller = token_balance w caller - x /\
    balanceOf w1 caller = balanceOf w caller + x /\
    token_balance w1 (self P) = token_balance w (self P) + x /\
    totalSupply w1 = totalSupply w + x /\
    redeem w1 = Ok tt w2 /\
    balanceOf w2 caller = balanceOf w1 caller - x /\
    token_balance w2 caller = token_balance w1 caller + x /\
    token_balance w2 caller = token_balance w caller /\
    balanceOf w2 caller = balanceOf w caller /\
    token_balance w2 (self P) = token_balance w (self P) /\
    totalSupply w2 = totalSupply w /\
    PieWrappedERC20.run P StandardToken.token
      [(env, PieWrappedERC20.CallDeposit x); (env, PieWrappedERC20.CallRedeem x)] w = w2.
Proof.
  cbv zeta. intros Hsound Htb Hreserve Hstatus Hcaller Hself Hother Hpos
                   Hheld Hallowed Hroom Hsupply.
  destruct (ledger_sound_balance w (msg_sender env) Hsound) as [[Hwb0 Hwb1] Hmax].
  assert (Hwb : is_uint256 (balanceOf w (msg_sender env)))
    by (unfold is_uint256; lia).
  assert (Hx : is_uint256 x) by (unfold is_uint256 in *; lia).
  assert (Hdeposit : PieWrappedERC20.deposit P StandardToken.token env x w =
                     Ok tt (deposited P env x w)).
  { unfold is_uint256 in Hreserve. apply deposit_ok; cbn zeta; try assumption; lia. }
  destruct (deposit_then_redeem P env x w _ Hx Hwb Hwb1 Htb Hreserve Hdeposit)
    as (_ & Ht1 & Hb1 & Hr1 & w2 & Hredeem & Hb2 & Ht2 & Hr2 & Hs2).
  destruct (deposited_observed P env x w (msg_sender env)) as (_ & _ & Hs1 & _).
  cbn zeta in *.
  exists (deposited P env x w), w2.
  split; [exact Hdeposit|]. split; [exact Ht1|]. split; [exact Hb1|].
  split; [exact Hr1|]. split; [exact Hs1|]. split; [exact Hredeem|].
  split; [lia|]. split; [lia|]. split; [exact Ht2|]. split; [exact Hb2|].
  split; [exact Hr2|]. split; [exact Hs2|].
  cbn [PieWrappedERC20.run PieWrappedERC20.exec]. unfold transact.
  rewrite Hdeposit. cbn [fst]. now rewrite Hredeem.
Qed.

Lemma deposit_redeem_round_trip_witness :
  let env := Demo.at_time Demo.alice 5 in
  let deposit := PieWrappedERC20.deposit Demo.platform StandardToken.token env 30 in
  let redeem := PieWrappedERC20.redeem Demo.platform StandardToken.token env 30 in
  exists w1 w2,
    deposit Demo.world0 = Ok tt w1 /\
    token_balance w1 Demo.alice = token_balance Demo.world0 Demo.alice - 30 /\
    balanceOf w1 Demo.alice = balanceOf Demo.world0 Demo.alice + 30 /\
    token_balance w1 (self Demo.platform) =
      token_balance Demo.world0 (self Demo.platform) + 30 /\
    totalSupply w1 = totalSupply Demo.world0 + 30 /\
    redeem w1 = Ok tt w2 /\
    balanceOf w2 Demo.alice = balanceOf w1 Demo.alice - 30 /\
    token_balance w2 Demo.alice = token_balance w1 Demo.alice + 30 /\
    token_balance w2 Demo.alice = token_balance Demo.world0 Demo.alice /\
    balanceOf w2 Demo.alice = balanceOf Demo.world0 Demo.alice /\
    token_balance w2 (self Demo.platform) =
      token_balance Demo.world0 (self Demo.platform) /\
    totalSupply w2 = totalSupply Demo.world0 /\
    PieWrappedERC20.run Demo.platform StandardToken.token
      [(env, PieWrappedERC20.CallDeposit 30); (env, PieWrappedERC20.CallRedeem 30)]
      Demo.world0 = w2.
Proof.
  apply (deposit_redeem_round_trip Demo.platform (Demo.at_time Demo.alice 5) 30
           Demo.world0).
  - exact world0_ledger_sound.
  - unfold is_uint256. vm_compute. split; [discriminate|reflexivity].
  - unfold is_uint256. vm_compute. split; [discriminate|reflexivity].
  - vm_compute. discriminate.
  - vm_compute. discriminate.
  - vm_compute. discriminate.
  - vm_compute. discriminate.
  - lia.
  - vm_compute. discriminate.
  - vm_compute. discriminate.
  - vm_compute. reflexivity.
  - vm_compute. reflexivity.
Defined.

(** C5 as worded fails for an amount that is held but not approved: Alice
    holds 50 underlying tokens and has approved the wrapper for 40.  Her
    deposit of 45 reverts in the token's allowance check, debits nothing
    and credits nothing; the redemption of 45 that follows is paid out of
    the wrapped tokens she already had, and leaves her with 95 underlying
    tokens instead of the 50 she started from. *)
Lemma unapproved_deposit_counterexample :
  let env := Demo.at_time Demo.alice 5 in
  let deposit := PieWrappedERC20.deposit Demo.platform StandardToken.token env 45 in
  let after :=
    PieWrappedERC20.run Demo.platform StandardToken.token
      [(env, PieWrappedERC20.CallDeposit 45); (env, PieWrappedERC20.CallRedeem 45)]
      Demo.world0 in
  45 <= token_balance Demo.world0 Demo.alice /\
  StandardToken.allowance (usd Demo.world0) Demo.alice (self Demo.platform) = 40 /\
  deposit Demo.world0 = Revert (ERC20InsufficientAllowance 900 40 45) /\
  fst (transact deposit Demo.world0) = Demo.world0 /\
  token_balance Demo.world0 Demo.alice = 50 /\
  token_balance after Demo.alice = 95 /\
  token_balance after Demo.alice <> token_balance Demo.world0 Demo.alice.
Proof.
  cbn zeta.
  split; [vm_compute; discriminate|].
  split; [vm_compute; reflexivity|].
  split; [vm_compute; reflexivity|].
  split; [vm_compute; reflexivity|].
  split; [vm_compute; reflexivity|].
  split; [vm_compute; reflexivity|].
  vm_compute. discriminate.
Qed.

(** ** Order of effects in redeem *)

Lemma redeem_eq P T env amount w :
  let caller := msg_sender env in
  PieWrappedERC20.redeem P T env amount w =
  if _status (pie w) =? ENTERED then Revert ReentrancyGuardReentrantCall
  else if amount =? 0 then Revert AmountMustBeGreaterThanZero
  else if balanceOf w caller <? amount then Revert InsufficientBalance
  else if caller =? 0 then Revert (ERC20InvalidSender 0)
  else match ierc20_transfer T (self P) caller amount (release_point env amount w) with
       | Revert e => Revert e
       | Ok (Some false) _ => Revert SafeERC20FailedOperation
       | Ok _ w' => Ok tt (with_status (logged w' (Redeem caller amount)) NOT_ENTERED)
       end.
Proof.
  cbn zeta. unfold PieWrappedERC20.redeem, nonReentrant.
  unfold bind at 1. rewrite nonReentrantBefore_eq.
  destruct (_status (pie w) =? ENTERED); [reflexivity|].
  unfold bind at 1. unfold bind at 1.
  destruct (amount =? 0); [reflexivity|]. cbn [revert_if ret].
  unfold bind at 1. cbn [get]. unfold bind at 1.
  change (balanceOf (with_status w ENTERED)) with (balanceOf w).
  destruct (balanceOf w (msg_sender env) <? amount) eqn:Hbal; [reflexivity|].
  cbn [revert_if ret]. unfold bind at 1. rewrite burn_eq.
  destruct (msg_sender env =? 0); [reflexivity|].
  change (balanceOf (with_status w ENTERED)) with (balanceOf w). rewrite Hbal.
  unfold bind at 1.
  unfold SafeERC20.safeTransfer, SafeERC20._callOptionalReturn. unfold bind at 1.
  fold (release_point env amount w).
  destruct (ierc20_transfer T (self P) (msg_sender env) amount (release_point env amount w))
    as [[[|]|] w'|e]; reflexivity.
Qed.

Lemma legacy_redeem_eq P T env amount w :
  let caller := msg_sender env in
  PieUSD.redeem P T env amount w =
  if negb (0 <? amount) then Revert RequireAmountPositive
  else if negb (amount <=? balanceOf w caller) then Revert RequireSufficientBalance
  else if caller =? 0 then Revert (ERC20InvalidSender 0)
  else match ierc20_transfer T (self P) caller amount (legacy_release_point env amount w) with
       | Revert e => Revert e
       | Ok None _ => Revert ReturnDataDecodeFailed
       | Ok (Some false) _ => Revert RedeemFailed
       | Ok (Some true) w' => Ok tt (logged w' (Redeem caller amount))
       end.
Proof.
  cbn zeta. unfold PieUSD.redeem.
  unfold bind at 1.
  destruct (0 <? amount); [|reflexivity]. cbn [negb revert_if ret].
  unfold bind at 1. cbn [get]. unfold bind at 1.
  destruct (Z.leb_spec amount (balanceOf w (msg_sender env))) as [Hbal|Hbal];
    [|reflexivity].
  cbn [negb revert_if ret]. unfold bind at 1. rewrite burn_eq.
  destruct (msg_sender env =? 0); [reflexivity|].
  apply Z.ltb_ge in Hbal. rewrite Hbal.
  unfold bind at 1. unfold call_returning_bool. unfold bind at 1.
  fold (legacy_release_point env amount w).
  destruct (ierc20_transfer T (self P) (msg_sender env) amount
              (legacy_release_point env amount w)) as [[[|]|] w'|e]; reflexivity.
Qed.

Lemma release_point_debited env amount w :
  _status (pie (release_point env amount w)) = ENTERED /\
  balanceOf (release_point env amount w) (msg_sender env) =
    balanceOf w (msg_sender env) - amount /\
  totalSupply (release_point env amount w) = (totalSupply w - amount) mod UINT256_MOD.
Proof.
  unfold release_point. split; [reflexivity|]. split; [|reflexivity].
  rewrite balanceOf_burned. case_decide; [reflexivity|congruence].
Qed.

Lemma deposit_entered P T env amount w :
  _status (pie w) = ENTERED ->
  PieWrappedERC20.deposit P T env amount w = Revert ReentrancyGuardReentrantCall.
Proof.
  intros H. unfold PieWrappedERC20.deposit, nonReentrant.
  apply bind_revert. rewrite nonReentrantBefore_eq, H. reflexivity.
Qed.

Lemma deposit_eq P T env amount w :
  PieWrappedERC20.deposit P T env amount w =
  if _status (pie w) =? ENTERED then Revert ReentrancyGuardReentrantCall
  else if amount =? 0 then Revert AmountMustBeGreaterThanZero
  else match ierc20_balanceOf T (self P) (pull_point w) with
       | None => Revert ExternalCallReverted
       | Some balanceBefore =>
           match ierc20_transferFrom T (self P) (msg_sender env) (self P) amount
                   (pull_point w) with
           | Revert e => Revert e
           | Ok (Some false) _ => Revert SafeERC20FailedOperation
           | Ok _ w' => deposit_finish P T env amount balanceBefore w'
           end
       end.
Proof.
  unfold PieWrappedERC20.deposit, nonReentrant.
  unfold bind at 1. rewrite nonReentrantBefore_eq.
  destruct (_status (pie w) =? ENTERED); [reflexivity|].
  fold (pull_point w).
  unfold bind at 1. unfold bind at 1.
  destruct (amount =? 0); [reflexivity|]. cbn [revert_if ret].
  unfold bind at 1. unfold static_balanceOf at 1.
  destruct (ierc20_balanceOf T (self P) (pull_point w)) as [before|]; [|reflexivity].
  unfold bind at 1.
  unfold SafeERC20.safeTransferFrom, SafeERC20._callOptionalReturn.
  unfold bind at 1.
  destruct (ierc20_transferFrom T (self P) (msg_sender env) (self P) amount (pull_point w))
    as [[[|]|] w'|e]; reflexivity.
Qed.

Lemma deposit_finish_ext P T1 T2 env amount before w :
  (forall account w', ierc20_balanceOf T1 account w' = ierc20_balanceOf T2 account w') ->
  deposit_finish P T1 env amount before w = deposit_finish P T2 env amount before w.
Proof.
  intros Hbal. unfold deposit_finish.
  unfold bind at 1 7. unfold bind at 1 6. unfold static_balanceOf.
  now rewrite Hbal.
Qed.

(** [deposit] depends on the token through its answers at the pull point
    and after it only. *)
Lemma deposit_pull_point P T1 T2 env amount w :
  (forall account w', ierc20_balanceOf T1 account w' = ierc20_balanceOf T2 account w') ->
  ierc20_transferFrom T1 (self P) (msg_sender env) (self P) amount (pull_point w) =
  ierc20_transferFrom T2 (self P) (msg_sender env) (self P) amount (pull_point w) ->
  PieWrappedERC20.deposit P T1 env amount w = PieWrappedERC20.deposit P T2 env amount w.
Proof.
  intros Hbal Hpull. rewrite !deposit_eq, Hbal, Hpull.
  destruct (_status (pie w) =? ENTERED); [reflexivity|].
  destruct (amount =? 0); [reflexivity|].
  destruct (ierc20_balanceOf T2 (self P) (pull_point w)) as [before|]; [|reflexivity].
  destruct (ierc20_transferFrom T2 (self P) (msg_sender env) (self P) amount (pull_point w))
    as [[[|]|] w'|e]; try reflexivity; now apply deposit_finish_ext.
Qed.

(** C7: [redeem] checks the caller's wrapped balance and burns the tokens
    before it calls the underlying token, and both [redeem] and [deposit]
    run under the reentrancy guard.  The one world in which [redeem] hands
    control to the token is the release point, where the guard is set and
    the caller's balance is already debited: two tokens that answer alike
    there give the same [redeem], whatever they would do in any other
    world, and with an insufficient balance the token is not called at
    all.  A [redeem] or [deposit] entered while the guard is set reverts;
    [deposit] calls the token at the pull point, with the guard set; and a
    [redeem] that reverts after the burn leaves the world as it was. *)
Theorem redeem_debits_before_release P T1 T2 env amount w :
  let caller := msg_sender env in
  let release := release_point env amount w in
  let redeem_with T := PieWrappedERC20.redeem P T env amount in
  let deposit_with T := PieWrappedERC20.deposit P T env amount in
  _status (pie release) = ENTERED /\
  balanceOf release caller = balanceOf w caller - amount /\
  (ierc20_transfer T1 (self P) caller amount release =
   ierc20_transfer T2 (self P) caller amount release ->
   redeem_with T1 w = redeem_with T2 w) /\
  (balanceOf w caller < amount ->
   redeem_with T1 w = redeem_with T2 w /\ exists e, redeem_with T1 w = Revert e) /\
  (forall w', _status (pie w') = ENTERED ->
   redeem_with T1 w' = Revert ReentrancyGuardReentrantCall /\
   deposit_with T1 w' = Revert ReentrancyGuardReentrantCall) /\
  _status (pie (pull_point w)) = ENTERED /\
  ((forall account w', ierc20_balanceOf T1 account w' = ierc20_balanceOf T2 account w') ->
   ierc20_transferFrom T1 (self P) caller (self P) amount (pull_point w) =
   ierc20_transferFrom T2 (self P) caller (self P) amount (pull_point w) ->
   deposit_with T1 w = deposit_with T2 w) /\
  (forall e, redeem_with T1 w = Revert e -> fst (transact (redeem_with T1) w) = w).
Proof.
  cbv beta zeta.
  destruct (release_point_debited env amount w) as (Hguard & Hdebit & _).
  split; [exact Hguard|]. split; [exact Hdebit|].
  split.
  { intros Hsame. rewrite !redeem_eq. cbn zeta. now rewrite Hsame. }
  split.
  { intros Hshort. rewrite !redeem_eq. cbn zeta.
    apply Z.ltb_lt in Hshort. rewrite Hshort.
    split; [reflexivity|].
    destruct (_status (pie w) =? ENTERED); [eauto|].
    destruct (amount =? 0); eauto. }
  split.
  { intros w' Hentered. split; [|now apply deposit_entered].
    rewrite redeem_eq. cbn zeta. now rewrite Hentered. }
  split; [reflexivity|].
  split; [apply deposit_pull_point|].
  intros e He. unfold transact. now rewrite He.
Qed.

Lemma redeem_debits_before_release_witness :
  PieWrappedERC20.redeem Demo.platform StandardToken.token
    (Demo.at_time Demo.alice 5) 45 Demo.world0 =
  PieWrappedERC20.redeem Demo.platform GreedyToken.token
    (Demo.at_time Demo.alice 5) 45 Demo.world0.
Proof.
  pose proof (redeem_debits_before_release Demo.platform StandardToken.token
                GreedyToken.token (Demo.at_time Demo.alice 5) 45 Demo.world0)
    as (_ & _ & Hsame & _).
  apply Hsame. vm_compute. reflexivity.
Defined.

(** A token that re-enters [redeem] while being paid is refused by the
    guard, and the outer call reverts with it. *)
Lemma reentrant_redeem_refused :
  PieWrappedERC20.redeem Demo.platform ReentrantToken.against_wrapper
    (Demo.at_time Demo.alice 5) 45 Demo.world0
  = Revert ReentrancyGuardReentrantCall.
Proof. vm_compute. reflexivity. Qed.

(** pieUSD lets the token re-enter; since the tokens are burnt before the
    call, the nested redemption is paid out of what is left: two
    redemptions of 45 burn 90 wrapped tokens and release 90. *)
Lemma pieusd_reentrant_redeem_accounted :
  exists w',
    PieUSD.redeem Demo.platform ReentrantToken.against_pieUSD
      (Demo.at_time Demo.alice 5) 45 Demo.world0 = Ok tt w' /\
    balanceOf w' Demo.alice = 100 - 90 /\
    totalSupply w' = 100 - 90 /\
    token_balance w' Demo.alice = 50 + 90 /\
    token_balance w' (self Demo.platform) = 100 - 90.
Proof.
  eexists. split; [vm_compute; reflexivity|].
  split; [vm_compute; reflexivity|]. split; [vm_compute; reflexivity|].
  split; vm_compute; reflexivity.
Qed.

(** The redeem of pieUSD has no guard but the same order: the check, the
    burn, and only then the call to the token. *)
Lemma pieusd_redeem_order P T1 T2 env amount w :
  let caller := msg_sender env in
  let release := legacy_release_point env amount w in
  balanceOf release caller = balanceOf w caller - amount /\
  (ierc20_transfer T1 (self P) caller amount release =
   ierc20_transfer T2 (self P) caller amount release ->
   PieUSD.redeem P T1 env amount w = PieUSD.redeem P T2 env amount w) /\
  (balanceOf w caller < amount ->
   PieUSD.redeem P T1 env amount w = PieUSD.redeem P T2 env amount w).
Proof.
  cbn zeta. split; [|split].
  - unfold legacy_release_point. rewrite balanceOf_burned.
    case_decide; [reflexivity|congruence].
  - intros Hsame. rewrite !legacy_redeem_eq. cbn zeta. now rewrite Hsame.
  - intros Hshort. rewrite !legacy_redeem_eq. cbn zeta.
    apply Z.leb_gt in Hshort. rewrite Hshort.
    now destruct (0 <? amount).
Qed.

(** ** Soundness is kept by every call *)

Lemma guarded_settle_world env used from to value nonce validAfter validBefore
    (check : M unit -> M unit) w w' :
  (forall k w1 w2, check k w1 = Ok tt w2 -> k w1 = Ok tt w2) ->
  guarded env from nonce validAfter validBefore
    (check (settle used from to value nonce)) w = Ok tt w' ->
  value <= balanceOf w from /\ w' = settled used w from to value nonce.
Proof.
  intros Hcheck H. unfold guarded in H.
  repeat (case_match; [discriminate|]).
  apply Hcheck in H. unfold settle in H.
  destruct (from =? 0); [discriminate|].
  destruct (to =? 0); [discriminate|].
  destruct (Z.ltb_spec (balanceOf w from) value); [discriminate|].
  inversion H; subst. auto.
Qed.

Lemma redeem_inv P env amount w w' :
  PieWrappedERC20.redeem P StandardToken.token env amount w = Ok tt w' ->
  amount <= balanceOf w (msg_sender env) /\
  amount <= token_balance w (self P) /\
  w' = redeemed P env amount w.
Proof.
  rewrite redeem_eq. cbn zeta.
  destruct (_status (pie w) =? ENTERED); [discriminate|].
  destruct (amount =? 0); [discriminate|].
  destruct (Z.ltb_spec (balanceOf w (msg_sender env)) amount) as [|Hheld];
    [discriminate|].
  destruct (msg_sender env =? 0); [discriminate|].
  cbn [ierc20_transfer StandardToken.token]. unfold StandardToken.transfer.
  unfold bind at 1. rewrite token_move_eq.
  destruct (self P =? 0); [discriminate|].
  destruct (msg_sender env =? 0); [discriminate|].
  destruct (Z.ltb_spec (token_balance (release_point env amount w) (self P)) amount)
    as [|Hreserve]; [discriminate|].
  cbn [ret]. intros H. inversion H; subst. auto.
Qed.

(** Every call of the wrapper over a plain token keeps the wrapped ledger
    sound, and so does every list of transactions. *)
Lemma exec_keeps_ledger_sound P env c w w' :
  0 <= call_value c ->
  ledger_sound w ->
  PieWrappedERC20.exec P StandardToken.token env c w = Ok tt w' ->
  ledger_sound w'.
Proof.
  intros Hvalue Hsound H.
  destruct c; cbn [PieWrappedERC20.exec call_value] in *.
  - apply deposit_inv in H as (_ & _ & _ & _ & _ & _ & Hroom & ->).
    cbn zeta in *.
    apply (ledger_sound_same
             (minted (token_moved
                        (allowance_spent (with_status w ENTERED) (msg_sender env)
                           (self P) amount) (msg_sender env) (self P) amount)
                     (msg_sender env) amount)); [reflexivity|reflexivity|].
    apply ledger_sound_minted; [exact Hvalue| |].
    + unfold totalSupply in *. cbn [pie token_moved].
      now rewrite pie_allowance_spent.
    + apply (ledger_sound_same w); [| |exact Hsound]; cbn [pie token_moved];
        now rewrite pie_allowance_spent.
  - apply redeem_inv in H as (Hheld & _ & ->).
    apply (ledger_sound_same
             (burned (with_status w ENTERED) (msg_sender env) amount));
      [reflexivity|reflexivity|].
    apply ledger_sound_burned; [exact Hvalue|exact Hheld|].
    now apply (ledger_sound_same w).
  - rewrite transferWithAuthorization_eq in H.
    eapply guarded_settle_world in H as [Hheld ->]; [|apply check_signer_through].
    now apply ledger_sound_settled.
  - rewrite transferWithAuthorization_sig_eq in H.
    eapply guarded_settle_world in H as [Hheld ->]; [|apply check_signer_sig_through].
    now apply ledger_sound_settled.
  - rewrite receiveWithAuthorization_eq in H.
    destruct (to =? msg_sender env); [|discriminate].
    eapply guarded_settle_world in H as [Hheld ->]; [|apply check_signer_through].
    now apply ledger_sound_settled.
  - rewrite receiveWithAuthorization_sig_eq in H.
    destruct (to =? msg_sender env); [|discriminate].
    eapply guarded_settle_world in H as [Hheld ->]; [|apply check_signer_sig_through].
    now apply ledger_sound_settled.
  - rewrite cancelAuthorization_eq in H.
    apply cancel_ok_inv in H as (_ & _ & ->).
    now apply (ledger_sound_same w).
Qed.

Lemma run_keeps_ledger_sound P txs : forall w,
  Forall (fun tx => 0 <= call_value (snd tx)) txs ->
  ledger_sound w ->
  ledger_sound (PieWrappedERC20.run P StandardToken.token txs w).
Proof.
  induction txs as [|[env c] rest IH]; intros w Htyped Hsound; cbn [PieWrappedERC20.run].
  - exact Hsound.
  - inversion Htyped as [|tx rest' Hc Hrest]; subst. cbn [snd] in Hc.
    apply IH; [exact Hrest|]. unfold transact.
    destruct (PieWrappedERC20.exec P StandardToken.token env c w) as [[] w'|e] eqn:Hexec;
      cbn [fst]; [|exact Hsound].
    eapply exec_keeps_ledger_sound; eauto.
Qed.

(** * Further properties *)

(** ** The guard is never left locked *)

Lemma deposit_finish_releases P T env amount before w w' :
  deposit_finish P T env amount before w = Ok tt w' ->
  _status (pie w') = NOT_ENTERED.
Proof.
  unfold deposit_finish. intros H.
  apply bind_inv in H as ([] & w0 & _ & H).
  rewrite nonReentrantAfter_eq in H. inversion H; subst. reflexivity.
Qed.

Lemma deposit_releases P T env amount w w' :
  PieWrappedERC20.deposit P T env amount w = Ok tt w' ->
  _status (pie w') = NOT_ENTERED.
Proof.
  rewrite deposit_eq.
  destruct (_status (pie w) =? ENTERED); [discriminate|].
  destruct (amount =? 0); [discriminate|].
  destruct (ierc20_balanceOf T (self P) (pull_point w)) as [before|]; [|discriminate].
  destruct (ierc20_transferFrom T (self P) (msg_sender env) (self P) amount (pull_point w))
    as [[[|]|] w0|e]; try discriminate; apply deposit_finish_releases.
Qed.

Lemma redeem_releases P T env amount w w' :
  PieWrappedERC20.redeem P T env amount w = Ok tt w' ->
  _status (pie w') = NOT_ENTERED.
Proof.
  rewrite redeem_eq. cbn zeta.
  destruct (_status (pie w) =? ENTERED); [discriminate|].
  destruct (amount =? 0); [discriminate|].
  destruct (balanceOf w (msg_sender env) <? amount); [discriminate|].
  destruct (msg_sender env =? 0); [discriminate|].
  destruct (ierc20_transfer T (self P) (msg_sender env) amount (release_point env amount w))
    as [[[|]|] w0|e]; try discriminate; intros H; inversion H; subst; reflexivity.
Qed.

Lemma exec_keeps_released P T env c w w' :
  _status (pie w) = NOT_ENTERED ->
  PieWrappedERC20.exec P T env c w = Ok tt w' ->
  _status (pie w') = NOT_ENTERED.
Proof.
  intros Hreleased H. destruct c; cbn [PieWrappedERC20.exec] in H.
  - eapply deposit_releases; eauto.
  - eapply redeem_releases; eauto.
  - rewrite transferWithAuthorization_eq in H.
    eapply guarded_settle_world in H as [_ ->]; [|apply check_signer_through].
    exact Hreleased.
  - rewrite transferWithAuthorization_sig_eq in H.
    eapply guarded_settle_world in H as [_ ->]; [|apply check_signer_sig_through].
    exact Hreleased.
  - rewrite receiveWithAuthorization_eq in H.
    destruct (to =? msg_sender env); [|discriminate].
    eapply guarded_settle_world in H as [_ ->]; [|apply check_signer_through].
    exact Hreleased.
  - rewrite receiveWithAuthorization_sig_eq in H.
    destruct (to =? msg_sender env); [|discriminate].
    eapply guarded_settle_world in H as [_ ->]; [|apply check_signer_sig_through].
    exact Hreleased.
  - rewrite cancelAuthorization_eq in H.
    apply cancel_ok_inv in H as (_ & _ & ->). exact Hreleased.
Qed.

(** X1: whatever the underlying token does when it is called, re-entering
    included, the reentrancy guard is never left locked: a [deposit] or
    [redeem] that returns has released it, the authorization entry points
    do not touch it, and so after any list of transactions that starts
    with the guard released the guard is released. *)
Theorem guard_never_left_locked P T txs : forall w,
  _status (pie w) = NOT_ENTERED ->
  _status (pie (PieWrappedERC20.run P T txs w)) = NOT_ENTERED.
Proof.
  induction txs as [|[env c] rest IH]; intros w Hreleased; cbn [PieWrappedERC20.run].
  - exact Hreleased.
  - apply IH. unfold transact.
    destruct (PieWrappedERC20.exec P T env c w) as [[] w'|e] eqn:Hexec; cbn [fst];
      [|exact Hreleased].
    eapply exec_keeps_released; eauto.
Qed.

Lemma guard_never_left_locked_witness :
  _status (pie (PieWrappedERC20.run Demo.platform GreedyToken.token
                  [ (Demo.at_time Demo.alice 5, PieWrappedERC20.CallRedeem 45);
                    (Demo.at_time Demo.alice 6, PieWrappedERC20.CallRedeem 10);
                    (Demo.at_time Demo.alice 7, PieWrappedERC20.CallDeposit 30) ]
                  Demo.world0)) = NOT_ENTERED.
Proof.
  apply (guard_never_left_locked Demo.platform GreedyToken.token). reflexivity.
Defined.

(** ** What a deposit credits *)

(** X2: for any underlying token, [deposit] credits the caller only with
    what the wrapper's reserve is seen to have grown by.  If [deposit]
    returns, the token's [balanceOf] of the wrapper, read before and after
    the pull, grew by exactly [amount], and exactly [amount] was minted to
    the caller; a token that delivers less (a fee on transfer) or more
    makes [deposit] revert. *)
Theorem deposit_mints_measured_growth P T env amount w w1 :
  PieWrappedERC20.deposit P T env amount w = Ok tt w1 ->
  let caller := msg_sender env in
  exists before after returndata wC,
    ierc20_balanceOf T (self P) (pull_point w) = Some before /\
    ierc20_transferFrom T (self P) caller (self P) amount (pull_point w)
      = Ok returndata wC /\
    returndata <> Some false /\
    ierc20_balanceOf T (self P) wC = Some after /\
    before <= after /\ after - before = amount /\ amount <> 0 /\
    w1 = with_status (logged (minted wC caller amount) (Deposit caller amount))
           NOT_ENTERED /\
    totalSupply w1 = totalSupply wC + amount.
Proof.
  rewrite deposit_eq. cbn zeta.
  destruct (_status (pie w) =? ENTERED); [discriminate|].
  destruct (Z.eqb_spec amount 0) as [|Hamount]; [discriminate|].
  destruct (ierc20_balanceOf T (self P) (pull_point w)) as [before|] eqn:Hbefore;
    [|discriminate].
  destruct (ierc20_transferFrom T (self P) (msg_sender env) (self P) amount (pull_point w))
    as [returndata wC|e] eqn:Hpull; [|discriminate].
  intros H.
  assert (Hret : returndata <> Some false /\
                 deposit_finish P T env amount before wC = Ok tt w1).
  { destruct returndata as [[|]|]; [split; [discriminate|exact H]|discriminate|
                                    split; [discriminate|exact H]]. }
  clear H. destruct Hret as [Hret H].
  unfold deposit_finish in H.
  apply bind_inv in H as ([] & wE & H & Hafter).
  rewrite nonReentrantAfter_eq in Hafter. inversion Hafter; subst w1; clear Hafter.
  apply bind_inv in H as (balanceAfter & w0 & Ha & H).
  unfold static_balanceOf in Ha.
  destruct (ierc20_balanceOf T (self P) wC) as [after|] eqn:Hafter; [|discriminate].
  inversion Ha; subst balanceAfter w0; clear Ha.
  apply bind_inv in H as (received & w0 & Hsub & H).
  unfold checked_sub in Hsub.
  destruct (Z.ltb_spec after before) as [|Hle]; [discriminate|].
  inversion Hsub; subst received w0; clear Hsub.
  apply bind_inv in H as ([] & w0 & Hsame & H).
  apply revert_if_inv in Hsame as [Hsame ->].
  apply negb_false_iff, Z.eqb_eq in Hsame.
  apply bind_inv in H as ([] & wD & Hmint & Hemit).
  rewrite mint_eq in Hmint.
  destruct (msg_sender env =? 0); [discriminate|].
  destruct (_ <? UINT256_MOD); [|discriminate].
  inversion Hmint; subst wD; clear Hmint.
  inversion Hemit; subst wE; clear Hemit.
  rewrite Hsame.
  exists before, after, returndata, wC.
  repeat split; auto.
Qed.

Lemma deposit_mints_measured_growth_witness :
  exists before after returndata wC,
    ierc20_balanceOf StandardToken.token (self Demo.platform) (pull_point Demo.world0)
      = Some before /\
    ierc20_transferFrom StandardToken.token (self Demo.platform) Demo.alice
      (self Demo.platform) 30 (pull_point Demo.world0) = Ok returndata wC /\
    returndata <> Some false /\
    ierc20_balanceOf StandardToken.token (self Demo.platform) wC = Some after /\
    before <= after /\ after - before = 30 /\ 30 <> 0 /\
    deposited Demo.platform (Demo.at_time Demo.alice 5) 30 Demo.world0 =
      with_status (logged (minted wC Demo.alice 30) (Deposit Demo.alice 30)) NOT_ENTERED /\
    totalSupply (deposited Demo.platform (Demo.at_time Demo.alice 5) 30 Demo.world0)
      = totalSupply wC + 30.
Proof.
  apply (deposit_mints_measured_growth Demo.platform StandardToken.token
           (Demo.at_time Demo.alice 5) 30 Demo.world0).
  vm_compute. reflexivity.
Defined.

(** ** The reserve covers the supply *)

Lemma token_typed_balance w account :
  token_typed w -> is_uint256 (token_balance w account).
Proof.
  intros Htyped. unfold token_balance, StandardToken.balance.
  destruct (tl_balances (usd w) !! account) as [v|] eqn:Hv; cbn.
  - exact (Htyped account v Hv).
  - unfold is_uint256. pose proof UINT256_MOD_pos. lia.
Qed.

Lemma token_typed_same w w' :
  tl_balances (usd w') = tl_balances (usd w) -> token_typed w -> token_typed w'.
Proof. unfold token_typed. now intros ->. Qed.

Lemma tl_balances_allowance_spent w owner spender value :
  tl_balances (usd (allowance_spent w owner spender value)) = tl_balances (usd w).
Proof. unfold allowance_spent. now destruct (_ =? _). Qed.

Lemma token_typed_moved w from to value :
  0 <= value -> value <= token_balance w from ->
  token_typed w -> token_typed (token_moved w from to value).
Proof.
  intros Hvalue Hheld Htyped.
  pose proof (token_typed_balance w from Htyped) as Hfrom.
  unfold token_typed, token_moved, StandardToken.set_balance; cbn.
  apply map_Forall_insert_2.
  - unfold is_uint256. apply Z.mod_pos_bound. apply UINT256_MOD_pos.
  - apply map_Forall_insert_2; [|exact Htyped].
    unfold is_uint256, token_balance in *. lia.
Qed.

Lemma exec_keeps_solvent P env c w w' :
  0 <= call_value c ->
  solvent P w ->
  PieWrappedERC20.exec P StandardToken.token env c w = Ok tt w' ->
  solvent P w'.
Proof.
  intros Hvalue (Hsound & Htyped & Hbacked) H.
  split; [eapply exec_keeps_ledger_sound; eauto|].
  unfold backed in *.
  destruct c; cbn [PieWrappedERC20.exec call_value] in *.
  - (* deposit *)
    pose proof H as Hinv.
    apply deposit_inv in Hinv as (_ & _ & _ & _ & Hheld & _ & _ & ->).
    cbn zeta in Hheld.
    destruct (ledger_sound_balance w (msg_sender env) Hsound) as [[Hb0 Hb1] Hmax].
    pose proof (token_typed_balance w (msg_sender env) Htyped) as Htc.
    pose proof (token_typed_balance w (self P) Htyped) as Hts.
    assert (Hx : is_uint256 amount) by (unfold is_uint256 in *; lia).
    assert (Hwb : is_uint256 (balanceOf w (msg_sender env)))
      by (unfold is_uint256; lia).
    destruct (deposit_then_redeem P env amount w _ Hx Hwb Hb1 Htc Hts H)
      as (_ & _ & _ & Hreserve & _).
    destruct (deposited_observed P env amount w (self P)) as (_ & _ & Hsupply & _).
    cbn zeta in *. split.
    + apply (token_typed_same
               (token_moved (allowance_spent (with_status w ENTERED) (msg_sender env)
                               (self P) amount) (msg_sender env) (self P) amount));
        [reflexivity|].
      apply token_typed_moved; [exact Hvalue| |].
      * now rewrite token_balance_allowance_spent.
      * apply (token_typed_same w); [|exact Htyped].
        now rewrite tl_balances_allowance_spent.
    + rewrite Hsupply, Hreserve. lia.
  - (* redeem *)
    apply redeem_inv in H as (Hheld & Hreserve & ->).
    destruct (ledger_sound_balance w (msg_sender env) Hsound) as [[Hb0 Hb1] Hmax].
    pose proof (token_typed_balance w (self P) Htyped) as Hts.
    destruct (redeemed_observed P env amount w (self P)) as (Ht & _ & Hsupply).
    cbn zeta in *. split.
    + apply (token_typed_same (token_moved w (self P) (msg_sender env) amount));
        [reflexivity|].
      now apply token_typed_moved.
    + rewrite Hsupply, Ht, token_balance_moved.
      rewrite (Z.mod_small (totalSupply w - amount)) by lia.
      unfold is_uint256 in Hts.
      repeat case_decide; subst; try congruence; try lia.
      replace (token_balance w (self P) - amount + amount)
        with (token_balance w (self P)) by lia.
      rewrite Z.mod_small by lia. lia.
  - rewrite transferWithAuthorization_eq in H.
    eapply guarded_settle_world in H as [_ ->]; [|apply check_signer_through].
    split; [exact Htyped|exact Hbacked].
  - rewrite transferWithAuthorization_sig_eq in H.
    eapply guarded_settle_world in H as [_ ->]; [|apply check_signer_sig_through].
    split; [exact Htyped|exact Hbacked].
  - rewrite receiveWithAuthorization_eq in H.
    destruct (to =? msg_sender env); [|discriminate].
    eapply guarded_settle_world in H as [_ ->]; [|apply check_signer_through].
    split; [exact Htyped|exact Hbacked].
  - rewrite receiveWithAuthorization_sig_eq in H.
    destruct (to =? msg_sender env); [|discriminate].
    eapply guarded_settle_world in H as [_ ->]; [|apply check_signer_sig_through].
    split; [exact Htyped|exact Hbacked].
  - rewrite cancelAuthorization_eq in H.
    apply cancel_ok_inv in H as (_ & _ & ->).
    split; [exact Htyped|exact Hbacked].
Qed.

Lemma run_keeps_solvent P txs : forall w,
  amounts_typed txs -> solvent P w ->
  solvent P (PieWrappedERC20.run P StandardToken.token txs w).
Proof.
  induction txs as [|[env c] rest IH]; intros w Htyped Hsolvent;
    cbn [PieWrappedERC20.run].
  - exact Hsolvent.
  - inversion Htyped as [|tx rest' Hc Hrest]; subst. cbn [snd] in Hc.
    apply IH; [exact Hrest|]. unfold transact.
    destruct (PieWrappedERC20.exec P StandardToken.token env c w) as [[] w'|e] eqn:Hexec;
      cbn [fst]; [|exact Hsolvent].
    eapply exec_keeps_solvent; eauto.
Qed.

Lemma world0_solvent : solvent Demo.platform Demo.world0.
Proof.
  split; [exact world0_ledger_sound|]. split.
  - unfold token_typed, Demo.world0; cbn [usd tl_balances].
    apply map_Forall_insert_2; [|apply map_Forall_singleton];
      unfold is_uint256, UINT256_MOD; lia.
  - unfold backed. vm_compute. discriminate.
Qed.

(** X3: over a plain underlying token the wrapped supply stays fully
    backed.  Starting from a world in which the reserve covers the supply,
    after any list of deposits, redemptions, authorized transfers and
    cancellations the reserve that [getReserves] reports is still at least
    [totalSupply]: deposits and redemptions move both by the same amount
    and the authorization entry points move neither. *)
Theorem supply_stays_backed P txs w :
  amounts_typed txs -> solvent P w ->
  let w' := PieWrappedERC20.run P StandardToken.token txs w in
  exists reserves,
    PieWrappedERC20.getReserves P StandardToken.token w' = Ok reserves w' /\
    totalSupply w' <= reserves /\
    reserves = token_balance w' (self P).
Proof.
  intros Htyped Hsolvent w'.
  destruct (run_keeps_solvent P txs w Htyped Hsolvent) as (_ & _ & Hbacked).
  exists (token_balance w' (self P)). split; [reflexivity|]. split; [exact Hbacked|reflexivity].
Qed.

Lemma supply_stays_backed_witness :
  let w' := PieWrappedERC20.run Demo.platform StandardToken.token
              [ (Demo.at_time Demo.alice 5, PieWrappedERC20.CallDeposit 30);
                (Demo.at_time Demo.carol 6,
                 PieWrappedERC20.CallTransfer Demo.alice Demo.bob 10 0 10 77
                   27 Demo.alice DemoRuns.digest77);
                (Demo.at_time Demo.bob 7, PieWrappedERC20.CallRedeem 10) ]
              Demo.world0 in
  exists reserves,
    PieWrappedERC20.getReserves Demo.platform StandardToken.token w' = Ok reserves w' /\
    totalSupply w' <= reserves /\
    reserves = token_balance w' (self Demo.platform).
Proof.
  apply (supply_stays_backed Demo.platform).
  - unfold amounts_typed. repeat constructor; cbn; lia.
  - exact world0_solvent.
Defined.

(** X4: a backed wrapper never refuses a redemption.  When the wrapped
    ledger is sound, the reserve covers the supply and the guard is
    released, every holder can redeem any positive amount up to their
    whole wrapped balance over a plain underlying token: the call
    returns, burns exactly that amount from the caller and from the
    supply, and takes it out of the reserve. *)
Theorem backed_redeem_succeeds P env amount w :
  let caller := msg_sender env in
  ledger_sound w -> backed P w ->
  _status (pie w) = NOT_ENTERED ->
  caller <> 0 -> self P <> 0 ->
  0 < amount <= balanceOf w caller ->
  exists w',
    PieWrappedERC20.redeem P StandardToken.token env amount w = Ok tt w' /\
    balanceOf w' caller = balanceOf w caller - amount /\
    totalSupply w' = totalSupply w - amount /\
    (caller <> self P ->
     token_balance w' (self P) = token_balance w (self P) - amount) /\
    _status (pie w') = NOT_ENTERED.
Proof.
  cbn zeta. intros Hsound Hbacked Hstatus Hcaller Hself [Hpos Hheld].
  destruct (ledger_sound_balance w (msg_sender env) Hsound) as [[Hb0 Hb1] Hmax].
  unfold backed in Hbacked.
  exists (redeemed P env amount w).
  destruct (redeemed_observed P env amount w (msg_sender env)) as (_ & Hbal & Hsupply).
  destruct (redeemed_observed P env amount w (self P)) as (Hreserve & _ & _).
  cbn zeta in *.
  split.
  { apply redeem_ok; cbn zeta; try assumption; try lia.
    rewrite Hstatus. unfold NOT_ENTERED, ENTERED. lia. }
  split.
  { rewrite Hbal. now rewrite decide_True by reflexivity. }
  split.
  { rewrite Hsupply. apply Z.mod_small. lia. }
  split; [|reflexivity].
  intros Hother. rewrite Hreserve, token_balance_moved.
  rewrite decide_False by congruence. now rewrite decide_True by reflexivity.
Qed.

Lemma backed_redeem_succeeds_witness :
  exists w',
    PieWrappedERC20.redeem Demo.platform StandardToken.token
      (Demo.at_time Demo.alice 5) 100 Demo.world0 = Ok tt w' /\
    balanceOf w' Demo.alice = balanceOf Demo.world0 Demo.alice - 100 /\
    totalSupply w' = totalSupply Demo.world0 - 100 /\
    (Demo.alice <> self Demo.platform ->
     token_balance w' (self Demo.platform) =
       token_balance Demo.world0 (self Demo.platform) - 100) /\
    _status (pie w') = NOT_ENTERED.
Proof.
  apply (backed_redeem_succeeds Demo.platform (Demo.at_time Demo.alice 5) 100
           Demo.world0).
  - exact world0_ledger_sound.
  - unfold backed. vm_compute. discriminate.
  - reflexivity.
  - vm_compute. discriminate.
  - vm_compute. discriminate.
  - vm_compute. split; [reflexivity|discriminate].
Defined.

(** ** Authorized transfers in a sound ledger *)

Lemma ledger_sound_pair w a b :
  ledger_sound w -> a <> b -> balanceOf w a + balanceOf w b <= totalSupply w.
Proof.
  intros (Hall & Hsum & _) Hne.
  unfold balanceOf, balance_in, totalSupply. rewrite <- Hsum.
  pose proof (sum_balances_bound (delete a (_balances (pie w))) b
                (map_Forall_delete _ _ a Hall)) as Hrest.
  rewrite lookup_delete_ne in Hrest by exact Hne.
  pose proof (sum_balances_insert (delete a (_balances (pie w))) a
                (default 0 (_balances (pie w) !! a))) as Hsplit.
  rewrite lookup_delete_eq in Hsplit. cbn in Hsplit.
  destruct (_balances (pie w) !! a) as [y|] eqn:Hy; cbn in *.
  - rewrite insert_delete_eq, (insert_id _ _ _ Hy) in Hsplit. lia.
  - rewrite delete_id in Hrest by exact Hy. lia.
Qed.

Lemma transfer_call_settles P T env c from to value w w' :
  call_transfer c = Some (from, to, value) ->
  PieWrappedERC20.exec P T env c w = Ok tt w' ->
  exists used nonce,
    PieWrappedERC20.call_authorization c = Some (from, nonce) /\
    used = AuthorizationUsed from to value nonce /\
    authorizationState from nonce w = false /\
    from <> 0 /\ to <> 0 /\ value <= balanceOf w from /\
    w' = settled used w from to value nonce.
Proof.
  intros Hc H.
  destruct c; cbn [call_transfer] in Hc; try discriminate;
    inversion Hc; subst; cbn [PieWrappedERC20.exec PieWrappedERC20.call_authorization] in *.
  - rewrite transferWithAuthorization_eq in H.
    apply guarded_settle_inv in H as (_ & Hunused & Hsig & Hto & Hheld & ->).
    apply signature_ok_signer in Hsig as (_ & Hfrom & _).
    eexists _, _. repeat (split; [reflexivity || eassumption|]). reflexivity.
  - rewrite transferWithAuthorization_sig_eq in H.
    unfold guarded in H. repeat (case_match; [discriminate|]).
    unfold check_signer_sig in H. case_match; [|discriminate].
    apply check_signer_inv in H as [Hsig H].
    apply signature_ok_signer in Hsig as (_ & Hfrom & _).
    unfold settle in H. repeat (case_match; [discriminate|]).
    inversion H; subst.
    eexists _, _. split; [reflexivity|]. split; [reflexivity|].
    split; [assumption|]. split; [assumption|].
    split; [now apply Z.eqb_neq|]. split; [now apply Z.ltb_ge|reflexivity].
  - rewrite receiveWithAuthorization_eq in H.
    destruct (to =? msg_sender env); [|discriminate].
    apply guarded_settle_inv in H as (_ & Hunused & Hsig & Hto & Hheld & ->).
    apply signature_ok_signer in Hsig as (_ & Hfrom & _).
    eexists _, _. repeat (split; [reflexivity || eassumption|]). reflexivity.
  - rewrite receiveWithAuthorization_sig_eq in H.
    destruct (to =? msg_sender env); [|discriminate].
    unfold guarded in H. repeat (case_match; [discriminate|]).
    unfold check_signer_sig in H. case_match; [|discriminate].
    apply check_signer_inv in H as [Hsig H].
    apply signature_ok_signer in Hsig as (_ & Hfrom & _).
    unfold settle in H. repeat (case_match; [discriminate|]).
    inversion H; subst.
    eexists _, _. split; [reflexivity|]. split; [reflexivity|].
    split; [assumption|]. split; [assumption|].
    split; [now apply Z.eqb_neq|]. split; [now apply Z.ltb_ge|reflexivity].
Qed.

(** X5: in a sound ledger an authorized transfer moves exactly the signed
    value and nothing else.  Whichever of the four entry points settles it
    (transfer or receive, either signature encoding), the payer loses
    [value] and the payee gains [value] with no wrap-around, a transfer to
    oneself leaves the balance as it was, every other balance, the supply
    and the underlying ledger are untouched, and the ledger stays sound.
    A transfer of zero is settled like any other and still consumes its
    nonce. *)
Theorem authorized_transfer_exact P T env c from to value w w' :
  call_transfer c = Some (from, to, value) ->
  ledger_sound w -> 0 <= value ->
  PieWrappedERC20.exec P T env c w = Ok tt w' ->
  (from <> to ->
     balanceOf w' from = balanceOf w from - value /\
     balanceOf w' to = balanceOf w to + value) /\
  (from = to -> balanceOf w' from = balanceOf w from) /\
  (forall a, a <> from -> a <> to -> balanceOf w' a = balanceOf w a) /\
  totalSupply w' = totalSupply w /\
  usd w' = usd w /\
  ledger_sound w' /\
  (exists nonce, PieWrappedERC20.call_authorization c = Some (from, nonce) /\
                 authorizationState from nonce w = false /\
                 authorizationState from nonce w' = true).
Proof.
  intros Hc Hsound Hvalue H.
  destruct (transfer_call_settles P T env c from to value w w' Hc H)
    as (used & nonce & Hauth & _ & Hunused & Hfrom & Hto & Hheld & ->).
  destruct (settled_changes used w from to value nonce)
    as (Hmark & _ & Hmove & Hself & Hother & Hsupply & Husd).
  cbn zeta in *.
  destruct (ledger_sound_balance w from Hsound) as [[Hf0 Hf1] Hmax].
  destruct (ledger_sound_balance w to Hsound) as [[Ht0 Ht1] _].
  split.
  { intros Hne. destruct (Hmove Hne) as (Hdebit & _ & Hcredit).
    split; [exact Hdebit|]. apply Hcredit.
    pose proof (ledger_sound_pair w from to Hsound Hne). lia. }
  split.
  { intros Heq. rewrite (Hself Heq). apply Z.mod_small. lia. }
  split; [exact Hother|]. split; [exact Hsupply|]. split; [exact Husd|].
  split; [now apply ledger_sound_settled|].
  exists nonce. auto.
Qed.

Lemma authorized_transfer_exact_witness :
  let c := PieWrappedERC20.CallTransferSig Demo.alice Demo.bob 10 0 10 77
             DemoRuns.packed77 in
  let w' := DemoRuns.world1 in
  (Demo.alice <> Demo.bob ->
     balanceOf w' Demo.alice = balanceOf Demo.world0 Demo.alice - 10 /\
     balanceOf w' Demo.bob = balanceOf Demo.world0 Demo.bob + 10) /\
  (Demo.alice = Demo.bob -> balanceOf w' Demo.alice = balanceOf Demo.world0 Demo.alice) /\
  (forall a, a <> Demo.alice -> a <> Demo.bob ->
     balanceOf w' a = balanceOf Demo.world0 a) /\
  totalSupply w' = totalSupply Demo.world0 /\
  usd w' = usd Demo.world0 /\
  ledger_sound w' /\
  (exists nonce, PieWrappedERC20.call_authorization c = Some (Demo.alice, nonce) /\
                 authorizationState Demo.alice nonce Demo.world0 = false /\
                 authorizationState Demo.alice nonce w' = true).
Proof.
  apply (authorized_transfer_exact Demo.platform StandardToken.token
           (Demo.at_time Demo.carol 5)
           (PieWrappedERC20.CallTransferSig Demo.alice Demo.bob 10 0 10 77
              DemoRuns.packed77)
           Demo.alice Demo.bob 10 Demo.world0 DemoRuns.world1).
  - reflexivity.
  - exact world0_ledger_sound.
  - lia.
  - vm_compute. reflexivity.
Defined.

(** ** Malformed authorizations *)

Lemma guarded_inv env from nonce validAfter validBefore (k : M unit) w w' :
  guarded env from nonce validAfter validBefore k w = Ok tt w' ->
  validAfter <= block_timestamp env <= validBefore /\
  authorizationState from nonce w = false /\
  k w = Ok tt w'.
Proof.
  unfold guarded.
  destruct (Z.ltb_spec (block_timestamp env) validAfter) as [|Hafter]; [discriminate|].
  destruct (Z.ltb_spec validBefore (block_timestamp env)) as [|Hbefore]; [discriminate|].
  destruct (authorizationState from nonce w); [discriminate|].
  intros Hk. repeat split; auto.
Qed.

Lemma check_signer_sig_inv P hash signature expected (k : M unit) w w' :
  check_signer_sig P hash signature expected k w = Ok tt w' ->
  length signature = 65%nat /\
  signature_ok P hash (ECDSA.sig_v signature) (ECDSA.sig_r signature)
    (ECDSA.sig_s signature) expected = true /\
  k w = Ok tt w'.
Proof.
  unfold check_signer_sig.
  destruct (Nat.eqb_spec (length signature) 65); [|discriminate].
  intros H. apply check_signer_inv in H as [Hsig H]. auto.
Qed.

Lemma signature_ok_nonzero P hash v r s : signature_ok P hash v r s 0 = false.
Proof.
  destruct (signature_ok P hash v r s 0) eqn:H; [|reflexivity].
  apply signature_ok_signer in H as (_ & Hzero & _). congruence.
Qed.

(** X6: nobody can act for the zero address.  The precompile answers a
    signature it cannot recover with the zero address, and the library
    turns that answer into an error before the comparison with the named
    authorizer; so a transfer, a receive or a cancellation that names the
    zero address as its authorizer reverts whatever the signature, the
    nonce, the time and the state are, in the wrapper and in pieUSD. *)
Theorem zero_authorizer_never_accepted P T env nonce w :
  (forall c, PieWrappedERC20.call_authorization c = Some (0, nonce) ->
     exists e, PieWrappedERC20.exec P T env c w = Revert e) /\
  (forall to value validAfter validBefore v r s,
     exists e, PieUSD.transferWithAuthorization P env 0 to value validAfter validBefore
                 nonce v r s w = Revert e) /\
  (forall to value validAfter validBefore signature,
     exists e, PieUSD.transferWithAuthorization_sig P env 0 to value validAfter
                 validBefore nonce signature w = Revert e) /\
  (forall v r s,
     exists e, PieUSD.cancelAuthorization P env 0 nonce v r s w = Revert e).
Proof.
  split; [|split; [|split]].
  - intros c Hc.
    destruct (PieWrappedERC20.exec P T env c w) as [[] w'|e] eqn:H; [exfalso|eauto].
    destruct c; cbn [PieWrappedERC20.call_authorization] in Hc; try discriminate;
      inversion Hc; subst; cbn [PieWrappedERC20.exec] in H.
    + rewrite transferWithAuthorization_eq in H.
      apply guarded_inv in H as (_ & _ & H). apply check_signer_inv in H as [Hsig _].
      now rewrite signature_ok_nonzero in Hsig.
    + rewrite transferWithAuthorization_sig_eq in H.
      apply guarded_inv in H as (_ & _ & H).
      apply check_signer_sig_inv in H as (_ & Hsig & _).
      now rewrite signature_ok_nonzero in Hsig.
    + rewrite receiveWithAuthorization_eq in H.
      destruct (to =? msg_sender env); [|discriminate].
      apply guarded_inv in H as (_ & _ & H). apply check_signer_inv in H as [Hsig _].
      now rewrite signature_ok_nonzero in Hsig.
    + rewrite receiveWithAuthorization_sig_eq in H.
      destruct (to =? msg_sender env); [|discriminate].
      apply guarded_inv in H as (_ & _ & H).
      apply check_signer_sig_inv in H as (_ & Hsig & _).
      now rewrite signature_ok_nonzero in Hsig.
    + rewrite cancelAuthorization_eq in H.
      apply cancel_ok_inv in H as (_ & Hsig & _).
      now rewrite signature_ok_nonzero in Hsig.
  - intros to value validAfter validBefore v r s.
    destruct (PieUSD.transferWithAuthorization P env 0 to value validAfter validBefore
                nonce v r s w) as [[] w'|e] eqn:H; [exfalso|eauto].
    rewrite legacy_transferWithAuthorization_eq in H.
    apply guarded_inv in H as (_ & _ & H). apply check_signer_inv in H as [Hsig _].
    now rewrite signature_ok_nonzero in Hsig.
  - intros to value validAfter validBefore signature.
    destruct (PieUSD.transferWithAuthorization_sig P env 0 to value validAfter validBefore
                nonce signature w) as [[] w'|e] eqn:H; [exfalso|eauto].
    rewrite legacy_transferWithAuthorization_sig_eq in H.
    apply guarded_inv in H as (_ & _ & H).
    apply check_signer_sig_inv in H as (_ & Hsig & _).
    now rewrite signature_ok_nonzero in Hsig.
  - intros v r s.
    destruct (PieUSD.cancelAuthorization P env 0 nonce v r s w) as [[] w'|e] eqn:H;
      [exfalso|eauto].
    rewrite legacy_cancelAuthorization_eq in H.
    apply cancel_ok_inv in H as (_ & Hsig & _).
    now rewrite signature_ok_nonzero in Hsig.
Qed.

Lemma zero_authorizer_never_accepted_witness :
  exists e,
    PieWrappedERC20.exec Demo.platform StandardToken.token (Demo.at_time Demo.carol 5)
      (PieWrappedERC20.CallCancel 0 5 27 0 (Demo.cancel_digest 0 5)) Demo.world0 =
    Revert e.
Proof.
  pose proof (zero_authorizer_never_accepted Demo.platform StandardToken.token
                (Demo.at_time Demo.carol 5) 5 Demo.world0) as [Hwrapper _].
  apply Hwrapper. reflexivity.
Defined.

(** X7: the packed-signature overloads accept 65 bytes and nothing else.
    A signature of any other length, the empty one included, never settles
    a transfer or a receive; once the caller, the time window and the
    registry checks have passed, the call fails with the library's
    [ECDSAInvalidSignatureLength] carrying the length it was given, and
    the outcome does not depend on the bytes. *)
Theorem wrong_length_signature_rejected P T env c from to value validAfter validBefore
    nonce signature w :
  c = PieWrappedERC20.CallTransferSig from to value validAfter validBefore nonce signature \/
  c = PieWrappedERC20.CallReceiveSig from to value validAfter validBefore nonce signature ->
  length signature <> 65%nat ->
  (exists e, PieWrappedERC20.exec P T env c w = Revert e) /\
  (PieWrappedERC20.registry_reached env c = true ->
   authorizationState from nonce w = false ->
   PieWrappedERC20.exec P T env c w =
     Revert (ECDSAInvalidSignatureLength (Z.of_nat (length signature)))).
Proof.
  intros Hc Hlen. apply Nat.eqb_neq in Hlen.
  assert (Hk : forall hash k w0,
            check_signer_sig P hash signature from k w0 =
            Revert (ECDSAInvalidSignatureLength (Z.of_nat (length signature)))).
  { intros. unfold check_signer_sig. now rewrite Hlen. }
  destruct Hc as [-> | ->];
    cbn [PieWrappedERC20.exec PieWrappedERC20.registry_reached].
  - rewrite transferWithAuthorization_sig_eq. unfold guarded, PieWrappedERC20.in_window.
    rewrite (Z.leb_antisym (block_timestamp env) validAfter).
    rewrite (Z.leb_antisym validBefore (block_timestamp env)).
    rewrite Hk. split.
    + repeat case_match; eexists; reflexivity.
    + intros Hreached Hunused. rewrite Hunused.
      apply andb_true_iff in Hreached as [H1 H2].
      apply negb_true_iff in H1, H2. now rewrite H1, H2.
  - rewrite receiveWithAuthorization_sig_eq. unfold guarded, PieWrappedERC20.in_window.
    rewrite (Z.leb_antisym (block_timestamp env) validAfter).
    rewrite (Z.leb_antisym validBefore (block_timestamp env)).
    rewrite Hk. split.
    + repeat case_match; eexists; reflexivity.
    + intros Hreached Hunused. rewrite Hunused.
      apply andb_true_iff in Hreached as [H0 Hreached].
      apply andb_true_iff in Hreached as [H1 H2].
      apply negb_true_iff in H1, H2. now rewrite H0, H1, H2.
Qed.

Lemma wrong_length_signature_rejected_witness :
  let c := PieWrappedERC20.CallTransferSig Demo.alice Demo.bob 10 0 10 77 [] in
  (exists e, PieWrappedERC20.exec Demo.platform StandardToken.token
               (Demo.at_time Demo.carol 5) c Demo.world0 = Revert e) /\
  (PieWrappedERC20.registry_reached (Demo.at_time Demo.carol 5) c = true ->
   authorizationState Demo.alice 77 Demo.world0 = false ->
   PieWrappedERC20.exec Demo.platform StandardToken.token
     (Demo.at_time Demo.carol 5) c Demo.world0 =
     Revert (ECDSAInvalidSignatureLength (Z.of_nat (length (@nil Byte.byte))))).
Proof.
  apply (wrong_length_signature_rejected Demo.platform StandardToken.token
           (Demo.at_time Demo.carol 5) _ Demo.alice Demo.bob 10 0 10 77 []).
  - left. reflexivity.
  - cbn. lia.
Defined.

(** ** The event log mirrors the registry *)

Lemma log_matches_registry_same w w' :
  marks_of (logs w') = marks_of (logs w) ->
  _authorizationStates (pie w') = _authorizationStates (pie w) ->
  log_matches_registry w -> log_matches_registry w'.
Proof.
  unfold log_matches_registry, authorizationState, authorization_in.
  now intros -> ->.
Qed.

Lemma log_matches_registry_marked w w' authorizer nonce :
  marks_of (logs w') = marks_of (logs w) ++ [(authorizer, nonce)] ->
  authorizationState authorizer nonce w = false ->
  authorizationState authorizer nonce w' = true ->
  (forall a n, (a, n) <> (authorizer, nonce) ->
     authorizationState a n w' = authorizationState a n w) ->
  log_matches_registry w -> log_matches_registry w'.
Proof.
  intros Hlogs Hunused Hmark Hother [Hnodup Hiff].
  assert (Hfresh : (authorizer, nonce) ∉ marks_of (logs w)).
  { intros Hin. apply Hiff in Hin. congruence. }
  unfold log_matches_registry. rewrite Hlogs. split.
  - apply NoDup_app. split; [exact Hnodup|]. split; [|apply NoDup_singleton].
    intros x Hx Hin. apply list_elem_of_singleton in Hin. now subst.
  - intros a n. rewrite elem_of_app, list_elem_of_singleton.
    destruct (decide ((a, n) = (authorizer, nonce))) as [Heq|Hne].
    + inversion Heq; subst. split; auto.
    + rewrite (Hother a n Hne), Hiff. split; [auto|]. intros [|]; [auto|congruence].
Qed.

Lemma exec_keeps_log_matches P env c w w' :
  log_matches_registry w ->
  PieWrappedERC20.exec P StandardToken.token env c w = Ok tt w' ->
  log_matches_registry w'.
Proof.
  intros Hinv H.
  destruct (call_transfer c) as [[[from to] value]|] eqn:Hc.
  { destruct (transfer_call_settles _ _ _ _ _ _ _ _ _ Hc H)
      as (used & nonce & _ & -> & Hunused & _ & _ & _ & ->).
    destruct (settled_changes (AuthorizationUsed from to value nonce) w from to value nonce)
      as (Hmark & Hother & _).
    apply (log_matches_registry_marked w _ from nonce); auto.
    unfold settled, marks_of; cbn [logs]. now rewrite omap_app. }
  destruct c; cbn [call_transfer] in Hc; try discriminate;
    cbn [PieWrappedERC20.exec] in H.
  - apply deposit_inv in H as (_ & _ & _ & _ & _ & _ & _ & ->).
    apply (log_matches_registry_same w); [| |exact Hinv].
    + unfold deposited, allowance_spent, marks_of.
      destruct (_ =? _); cbn [logs with_status logged minted token_moved];
        rewrite <- !app_assoc, omap_app; cbn; apply app_nil_r.
    + unfold deposited, allowance_spent. now destruct (_ =? _).
  - apply redeem_inv in H as (_ & _ & ->).
    apply (log_matches_registry_same w); [| |exact Hinv].
    + unfold redeemed, marks_of; cbn [logs with_status logged burned token_moved].
      rewrite <- !app_assoc, omap_app; cbn; apply app_nil_r.
    + reflexivity.
  - rewrite cancelAuthorization_eq in H.
    apply cancel_ok_inv in H as (Hunused & _ & ->).
    destruct (canceled_changes w authorizer nonce) as (Hmark & Hother & _).
    apply (log_matches_registry_marked w _ authorizer nonce); auto.
    unfold canceled, marks_of; cbn [logs]. now rewrite omap_app.
Qed.

(** X8: the event log mirrors the registry.  Over a plain underlying
    token, after any list of calls an authorization reads as used exactly
    when an [AuthorizationUsed] or an [AuthorizationCanceled] event naming
    it is in the log, and no authorization is named by two such events:
    each one is spent at most once, and every spending is announced. *)
Theorem registry_mirrors_log P txs : forall w,
  log_matches_registry w ->
  log_matches_registry (PieWrappedERC20.run P StandardToken.token txs w).
Proof.
  induction txs as [|[env c] rest IH]; intros w Hinv; cbn [PieWrappedERC20.run].
  - exact Hinv.
  - apply IH. unfold transact.
    destruct (PieWrappedERC20.exec P StandardToken.token env c w) as [[] w'|e] eqn:Hexec;
      cbn [fst]; [|exact Hinv].
    eapply exec_keeps_log_matches; eauto.
Qed.

Lemma registry_mirrors_log_witness :
  log_matches_registry
    (PieWrappedERC20.run Demo.platform StandardToken.token
       [ (Demo.at_time Demo.carol 5,
          PieWrappedERC20.CallTransfer Demo.alice Demo.bob 10 0 10 77
            27 Demo.alice DemoRuns.digest77);
         (Demo.at_time Demo.carol 6,
          PieWrappedERC20.CallCancel Demo.alice 78 27 Demo.alice
            (Demo.cancel_digest Demo.alice 78));
         (Demo.at_time Demo.carol 7,
          PieWrappedERC20.CallTransfer Demo.alice Demo.bob 10 0 10 77
            27 Demo.alice DemoRuns.digest77) ]
       Demo.world0).
Proof.
  apply (registry_mirrors_log Demo.platform).
  split; [apply NoDup_nil_2|].
  intros authorizer nonce. split; [discriminate|].
  intros Hin. vm_compute in Hin. inversion Hin.
Defined.

(** ** When a deposit and a redemption are accepted *)

Lemma token_transferFrom_eq caller from to value w :
  StandardToken.transferFrom caller from to value w =
  if (negb (StandardToken.allowance (usd w) from caller =? UINT256_MOD - 1)) &&
     (StandardToken.allowance (usd w) from caller <? value)
  then Revert (ERC20InsufficientAllowance caller
                 (StandardToken.allowance (usd w) from caller) value)
  else if from =? 0 then Revert (ERC20InvalidSender 0)
  else if to =? 0 then Revert (ERC20InvalidReceiver 0)
  else if token_balance w from <? value
       then Revert (ERC20InsufficientBalance from (token_balance w from) value)
       else Ok (Some true) (token_moved (allowance_spent w from caller value) from to value).
Proof.
  unfold StandardToken.transferFrom. unfold bind at 1.
  rewrite token_spend_eq.
  destruct (_ && _); [reflexivity|].
  unfold bind at 1. rewrite token_move_eq.
  rewrite token_balance_allowance_spent.
  repeat (destruct (_ =? 0); [reflexivity|]).
  destruct (_ <? value); reflexivity.
Qed.

(** X9: exactly when a deposit is accepted.  Over a plain underlying
    token [deposit] returns if and only if the guard is released, the
    amount is not zero, the caller is neither the zero address nor the
    wrapper itself, the caller holds the amount and has approved the
    wrapper for it, and neither the reserve nor the supply would leave
    [uint256]; the world it returns is then the one with the amount moved
    into the reserve and minted to the caller. *)
Theorem deposit_accepted_iff P env amount w w1 :
  let caller := msg_sender env in
  0 <= amount -> token_typed w ->
  (PieWrappedERC20.deposit P StandardToken.token env amount w = Ok tt w1 <->
   _status (pie w) <> ENTERED /\
   amount <> 0 /\ caller <> 0 /\ self P <> 0 /\ caller <> self P /\
   amount <= token_balance w caller /\
   amount <= StandardToken.allowance (usd w) caller (self P) /\
   token_balance w (self P) + amount < UINT256_MOD /\
   totalSupply w + amount < UINT256_MOD /\
   w1 = deposited P env amount w).
Proof.
  cbn zeta. intros Hamount Htyped.
  pose proof (token_typed_balance w (msg_sender env) Htyped) as Htc.
  pose proof (token_typed_balance w (self P) Htyped) as Hts.
  unfold is_uint256 in Htc, Hts.
  split.
  - intros H. pose proof H as Hinv.
    apply deposit_inv in Hinv
      as (Hstatus & Hzero & Hcaller & Hself & Hheld & Hlocked & Hroom & ->).
    cbn zeta in *.
    rewrite token_balance_moved, !token_balance_allowance_spent in Hlocked.
    change (token_balance (with_status w ENTERED)) with (token_balance w) in Hlocked.
    rewrite decide_True in Hlocked by reflexivity.
    assert (Hother : msg_sender env <> self P).
    { intros Heq. rewrite Heq in Hlocked. rewrite decide_True in Hlocked by reflexivity.
      replace (token_balance w (self P) - amount + amount)
        with (token_balance w (self P)) in Hlocked by lia.
      rewrite Z.mod_small in Hlocked by lia. lia. }
    rewrite decide_False in Hlocked by exact Hother.
    assert (Hreserve : token_balance w (self P) + amount < UINT256_MOD).
    { rewrite <- Hlocked. apply Z.mod_pos_bound. apply UINT256_MOD_pos. }
    assert (Hallowed : amount <= StandardToken.allowance (usd w) (msg_sender env) (self P)).
    { destruct (Z.le_gt_cases amount
                  (StandardToken.allowance (usd w) (msg_sender env) (self P)))
        as [|Hshort]; [assumption|exfalso].
      rewrite deposit_eq in H.
      apply Z.eqb_neq in Hstatus, Hzero. rewrite Hstatus, Hzero in H.
      cbn [ierc20_balanceOf ierc20_transferFrom StandardToken.token] in H.
      rewrite token_transferFrom_eq in H.
      change (usd (pull_point w)) with (usd w) in H.
      assert (Hmax : (StandardToken.allowance (usd w) (msg_sender env) (self P)
                      =? UINT256_MOD - 1) = false) by (apply Z.eqb_neq; lia).
      apply Z.ltb_lt in Hshort. rewrite Hmax, Hshort in H. discriminate. }
    repeat split; auto.
  - intros (Hstatus & Hzero & Hcaller & Hself & Hother & Hheld & Hallowed & Hreserve
            & Hroom & ->).
    apply deposit_ok; cbn zeta; auto; lia.
Qed.

Lemma deposit_accepted_iff_witness :
  PieWrappedERC20.deposit Demo.platform StandardToken.token (Demo.at_time Demo.alice 5)
    30 Demo.world0 =
  Ok tt (deposited Demo.platform (Demo.at_time Demo.alice 5) 30 Demo.world0).
Proof.
  apply (deposit_accepted_iff Demo.platform (Demo.at_time Demo.alice 5) 30 Demo.world0).
  - lia.
  - apply world0_solvent.
  - split; [vm_compute; discriminate|]. split; [lia|].
    split; [vm_compute; discriminate|]. split; [vm_compute; discriminate|].
    split; [vm_compute; discriminate|]. split; [vm_compute; discriminate|].
    split; [vm_compute; discriminate|]. split; [vm_compute; reflexivity|].
    split; [vm_compute; reflexivity|reflexivity].
Defined.

(** X10: exactly when a redemption is accepted.  Over a plain underlying
    token [redeem] returns if and only if the guard is released, the
    amount is not zero, the caller holds that many wrapped tokens, neither
    the caller nor the wrapper is the zero address, and the reserve holds
    the amount; the world it returns is then the one with the amount
    burnt and paid out. *)
Theorem redeem_accepted_iff P env amount w w' :
  let caller := msg_sender env in
  PieWrappedERC20.redeem P StandardToken.token env amount w = Ok tt w' <->
  _status (pie w) <> ENTERED /\
  amount <> 0 /\ caller <> 0 /\ self P <> 0 /\
  amount <= balanceOf w caller /\
  amount <= token_balance w (self P) /\
  w' = redeemed P env amount w.
Proof.
  cbn zeta. split.
  - intros H. pose proof H as Hinv.
    apply redeem_inv in Hinv as (Hheld & Hreserve & ->).
    rewrite redeem_eq in H. cbn zeta in H.
    destruct (Z.eqb_spec (_status (pie w)) ENTERED) as [|Hstatus]; [discriminate|].
    destruct (Z.eqb_spec amount 0) as [|Hzero]; [discriminate|].
    destruct (balanceOf w (msg_sender env) <? amount); [discriminate|].
    destruct (Z.eqb_spec (msg_sender env) 0) as [|Hcaller]; [discriminate|].
    cbn [ierc20_transfer StandardToken.token] in H.
    unfold StandardToken.transfer in H. unfold bind at 1 in H.
    rewrite token_move_eq in H.
    destruct (Z.eqb_spec (self P) 0) as [|Hself]; [discriminate|].
    repeat split; auto.
  - intros (Hstatus & Hzero & Hcaller & Hself & Hheld & Hreserve & ->).
    now apply redeem_ok.
Qed.

Lemma redeem_accepted_iff_witness :
  PieWrappedERC20.redeem Demo.platform StandardToken.token (Demo.at_time Demo.alice 5)
    40 Demo.world0 =
  Ok tt (redeemed Demo.platform (Demo.at_time Demo.alice 5) 40 Demo.world0).
Proof.
  apply (redeem_accepted_iff Demo.platform (Demo.at_time Demo.alice 5) 40 Demo.world0).
  split; [vm_compute; discriminate|]. split; [lia|].
  split; [vm_compute; discriminate|]. split; [vm_compute; discriminate|].
  split; [vm_compute; discriminate|]. split; [vm_compute; discriminate|reflexivity].
Defined.

(** ** pieUSD: deposit and redeem *)

Lemma legacy_deposit_eq P T env amount w :
  let caller := msg_sender env in
  PieUSD.deposit P T env amount w =
  if negb (0 <? amount) then Revert RequireAmountPositive
  else match ierc20_transferFrom T (self P) caller (self P) amount w with
       | Revert e => Revert e
       | Ok None _ => Revert ReturnDataDecodeFailed
       | Ok (Some false) _ => Revert DepositFailed
       | Ok (Some true) wC =>
           if caller =? 0 then Revert (ERC20InvalidReceiver 0)
           else if totalSupply wC + amount <? UINT256_MOD
                then Ok tt (logged (minted wC caller amount) (Deposit caller amount))
                else Revert (Panic 0x11)
       end.
Proof.
  cbn zeta. unfold PieUSD.deposit.
  unfold bind at 1.
  destruct (0 <? amount); [|reflexivity]. cbn [negb revert_if ret].
  unfold bind at 1. unfold call_returning_bool. unfold bind at 1.
  destruct (ierc20_transferFrom T (self P) (msg_sender env) (self P) amount w)
    as [[[|]|] wC|e]; try reflexivity.
  cbn [ret negb]. unfold bind at 1. cbn [revert_if ret].
  unfold bind at 1. rewrite mint_eq.
  destruct (msg_sender env =? 0); [reflexivity|].
  unfold totalSupply. destruct (_ <? UINT256_MOD); reflexivity.
Qed.

Lemma legacy_deposit_inv P env amount w w1 :
  PieUSD.deposit P StandardToken.token env amount w = Ok tt w1 ->
  let caller := msg_sender env in
  0 < amount /\ caller <> 0 /\ self P <> 0 /\
  amount <= token_balance w caller /\
  totalSupply w + amount < UINT256_MOD /\
  w1 = legacy_deposited P env amount w.
Proof.
  rewrite legacy_deposit_eq. cbn zeta.
  destruct (Z.ltb_spec 0 amount) as [Hpos|]; [|discriminate]. cbn [negb].
  cbn [ierc20_transferFrom StandardToken.token].
  rewrite token_transferFrom_eq.
  destruct (_ && _); [discriminate|].
  destruct (Z.eqb_spec (msg_sender env) 0) as [|Hcaller]; [discriminate|].
  destruct (Z.eqb_spec (self P) 0) as [|Hself]; [discriminate|].
  destruct (Z.ltb_spec (token_balance w (msg_sender env)) amount) as [|Hheld];
    [discriminate|].
  destruct (_ <? UINT256_MOD) eqn:Hroom; [|discriminate].
  intros H. inversion H; subst; clear H.
  apply Z.ltb_lt in Hroom.
  change (totalSupply (token_moved ?x _ _ _)) with (totalSupply x) in Hroom.
  unfold totalSupply in Hroom. rewrite pie_allowance_spent in Hroom.
  repeat split; auto.
Qed.

Lemma legacy_redeem_ok P env amount w :
  let caller := msg_sender env in
  0 < amount -> caller <> 0 -> self P <> 0 ->
  amount <= balanceOf w caller ->
  amount <= token_balance w (self P) ->
  PieUSD.redeem P StandardToken.token env amount w =
    Ok tt (legacy_redeemed P env amount w).
Proof.
  cbn zeta. intros Hpos Hcaller Hself Hheld Hreserve.
  rewrite legacy_redeem_eq. cbn zeta.
  apply Z.ltb_lt in Hpos. apply Z.leb_le in Hheld. apply Z.eqb_neq in Hcaller.
  rewrite Hpos, Hheld, Hcaller. cbn [negb].
  cbn [ierc20_transfer StandardToken.token].
  unfold StandardToken.transfer. unfold bind at 1. rewrite token_move_eq.
  apply Z.eqb_neq in Hself. rewrite Hself, Hcaller.
  change (token_balance (legacy_release_point env amount w)) with (token_balance w).
  apply Z.ltb_ge in Hreserve. rewrite Hreserve. reflexivity.
Qed.

(** X11: pieUSD wraps and unwraps one for one.  Over a plain underlying
    token, a deposit of [x] by a caller other than the contract, into a
    reserve that has room for it, moves [x] underlying tokens from the
    caller into the reserve and mints [x] wrapped ones; the redemption of
    the same [x] then goes through and puts the caller's two balances, the
    reserve and the supply back where they were. *)
Theorem pieusd_deposit_redeem_round_trip P env x w w1 :
  let caller := msg_sender env in
  ledger_sound w -> token_typed w ->
  caller <> self P ->
  token_balance w (self P) + x < UINT256_MOD ->
  PieUSD.deposit P StandardToken.token env x w = Ok tt w1 ->
  balanceOf w1 caller = balanceOf w caller + x /\
  token_balance w1 caller = token_balance w caller - x /\
  token_balance w1 (self P) = token_balance w (self P) + x /\
  totalSupply w1 = totalSupply w + x /\
  exists w2,
    PieUSD.redeem P StandardToken.token env x w1 = Ok tt w2 /\
    balanceOf w2 caller = balanceOf w caller /\
    token_balance w2 caller = token_balance w caller /\
    token_balance w2 (self P) = token_balance w (self P) /\
    totalSupply w2 = totalSupply w.
Proof.
  cbn zeta. intros Hsound Htyped Hother Hreserve Hdeposit.
  apply legacy_deposit_inv in Hdeposit as (Hpos & Hcaller & Hself & Hheld & Hroom & ->).
  cbn zeta in *.
  destruct (ledger_sound_balance w (msg_sender env) Hsound) as [[Hb0 Hb1] Hmax].
  pose proof (token_typed_balance w (msg_sender env) Htyped) as Htc.
  pose proof (token_typed_balance w (self P) Htyped) as Hts.
  unfold is_uint256 in Htc, Hts.
  set (wB := allowance_spent w (msg_sender env) (self P) x).
  set (wC := token_moved wB (msg_sender env) (self P) x).
  assert (HtB : forall a, token_balance wB a = token_balance w a)
    by (intros a; apply token_balance_allowance_spent).
  assert (HpB : pie wB = pie w) by apply pie_allowance_spent.
  assert (Hb1' : balanceOf (legacy_deposited P env x w) (msg_sender env) =
                 balanceOf w (msg_sender env) + x).
  { unfold legacy_deposited. fold wB wC.
    change (balanceOf (logged ?y _)) with (balanceOf y).
    rewrite balanceOf_minted, decide_True by reflexivity.
    change (balanceOf wC) with (balanceOf wB). unfold balanceOf. rewrite HpB.
    apply Z.mod_small. unfold balanceOf in *. lia. }
  assert (Ht1 : forall a, token_balance (legacy_deposited P env x w) a =
                          token_balance wC a) by reflexivity.
  assert (Htc1 : token_balance wC (msg_sender env) = token_balance w (msg_sender env) - x).
  { unfold wC. rewrite token_balance_moved, !HtB.
    rewrite decide_False by congruence. now rewrite decide_True by reflexivity. }
  assert (Hts1 : token_balance wC (self P) = token_balance w (self P) + x).
  { unfold wC. rewrite token_balance_moved, !HtB.
    rewrite decide_True by reflexivity. rewrite decide_False by exact Hother.
    apply Z.mod_small. lia. }
  assert (Hs1 : totalSupply (legacy_deposited P env x w) = totalSupply w + x).
  { unfold legacy_deposited. fold wB wC. unfold totalSupply, logged, minted; cbn.
    change (pie wC) with (pie wB). now rewrite HpB. }
  split; [exact Hb1'|]. split; [now rewrite Ht1|]. split; [now rewrite Ht1|].
  split; [exact Hs1|].
  set (w1 := legacy_deposited P env x w) in *.
  exists (legacy_redeemed P env x w1).
  split.
  { apply legacy_redeem_ok; cbn zeta; auto; try lia.
    rewrite Ht1, Hts1. lia. }
  unfold legacy_redeemed.
  change (balanceOf (logged (token_moved ?y _ _ _) _)) with (balanceOf y).
  change (totalSupply (logged (token_moved ?y _ _ _) _)) with (totalSupply y).
  change (token_balance (logged ?y _)) with (token_balance y).
  rewrite balanceOf_burned, decide_True by reflexivity.
  rewrite !token_balance_moved.
  change (token_balance (burned w1 (msg_sender env) x)) with (token_balance w1).
  rewrite !Ht1, Htc1, Hts1.
  split; [lia|]. split.
  { rewrite decide_True by reflexivity. rewrite decide_False by congruence.
    replace (token_balance w (msg_sender env) - x + x)
      with (token_balance w (msg_sender env)) by lia.
    apply Z.mod_small. lia. }
  split.
  { rewrite decide_False by congruence. rewrite decide_True by reflexivity. lia. }
  unfold totalSupply, burned; cbn [pie _totalSupply set_totalSupply set_balance].
  change (_totalSupply (pie w1)) with (totalSupply w1). rewrite Hs1.
  replace (totalSupply w + x - x) with (totalSupply w) by lia.
  apply Z.mod_small. unfold totalSupply in *. lia.
Qed.

Lemma pieusd_deposit_redeem_round_trip_witness :
  let env := Demo.at_time Demo.alice 5 in
  let w1 := legacy_deposited Demo.platform env 30 Demo.world0 in
  balanceOf w1 Demo.alice = balanceOf Demo.world0 Demo.alice + 30 /\
  token_balance w1 Demo.alice = token_balance Demo.world0 Demo.alice - 30 /\
  token_balance w1 (self Demo.platform) =
    token_balance Demo.world0 (self Demo.platform) + 30 /\
  totalSupply w1 = totalSupply Demo.world0 + 30 /\
  exists w2,
    PieUSD.redeem Demo.platform StandardToken.token env 30 w1 = Ok tt w2 /\
    balanceOf w2 Demo.alice = balanceOf Demo.world0 Demo.alice /\
    token_balance w2 Demo.alice = token_balance Demo.world0 Demo.alice /\
    token_balance w2 (self Demo.platform) =
      token_balance Demo.world0 (self Demo.platform) /\
    totalSupply w2 = totalSupply Demo.world0.
Proof.
  apply (pieusd_deposit_redeem_round_trip Demo.platform (Demo.at_time Demo.alice 5) 30
           Demo.world0).
  - exact world0_ledger_sound.
  - apply world0_solvent.
  - vm_compute. discriminate.
  - vm_compute. reflexivity.
  - vm_compute. reflexivity.
Defined.

(** ** The supply is the sum of the balances *)

(** X12: the wrapper's ERC-20 accounting.  Starting from a freshly
    initialized wrapper, after any list of deposits, redemptions,
    authorized transfers and cancellations over a plain underlying token,
    the total supply is the sum of all balances, no balance is negative or
    exceeds the supply, and the supply is a [uint256]. *)
Theorem supply_is_sum_of_balances P txs usd0 logs0 :
  amounts_typed txs ->
  let w := PieWrappedERC20.run P StandardToken.token txs
             (mkWorld fresh_storage usd0 logs0) in
  sum_balances (_balances (pie w)) = totalSupply w /\
  (forall account, 0 <= balanceOf w account <= totalSupply w) /\
  totalSupply w < UINT256_MOD.
Proof.
  intros Htyped w.
  assert (Hsound : ledger_sound w)
    by (apply run_keeps_ledger_sound; [exact Htyped|apply ledger_sound_fresh]).
  split; [apply Hsound|]. split; [|apply Hsound].
  intros account. now apply ledger_sound_balance.
Qed.

Lemma supply_is_sum_of_balances_witness :
  let w := PieWrappedERC20.run Demo.platform StandardToken.token
             [ (Demo.at_time Demo.alice 5, PieWrappedERC20.CallDeposit 30);
               (Demo.at_time Demo.alice 6, PieWrappedERC20.CallRedeem 10) ]
             (mkWorld fresh_storage (usd Demo.world0) []) in
  sum_balances (_balances (pie w)) = totalSupply w /\
  (forall account, 0 <= balanceOf w account <= totalSupply w) /\
  totalSupply w < UINT256_MOD.
Proof.
  apply (supply_is_sum_of_balances Demo.platform).
  unfold amounts_typed. repeat constructor; cbn; lia.
Defined.

(** ** The wrapper and pieUSD settle authorizations alike *)

Lemma guarded_same env from nonce validAfter validBefore (k1 k2 : M unit) w :
  same_outcome (k1 w) (k2 w) ->
  same_outcome (guarded env from nonce validAfter validBefore k1 w)
               (guarded env from nonce validAfter validBefore k2 w).
Proof.
  intros Hk. unfold guarded.
  repeat (case_match; [reflexivity|]). exact Hk.
Qed.

Lemma check_signer_same P hash v r s expected (k1 k2 : M unit) w :
  same_outcome (k1 w) (k2 w) ->
  same_outcome (check_signer P hash v r s expected k1 w)
               (check_signer P hash v r s expected k2 w).
Proof.
  intros Hk. unfold check_signer.
  destruct (_ <? s); [reflexivity|].
  destruct (_ =? 0); [reflexivity|].
  destruct (_ =? expected); [exact Hk|reflexivity].
Qed.

Lemma settle_same used1 used2 from to value nonce w :
  marked_by used1 = marked_by used2 ->
  same_outcome (settle used1 from to value nonce w) (settle used2 from to value nonce w).
Proof.
  intros Hmarks. unfold settle.
  repeat (case_match; [reflexivity|]).
  cbn. split; [reflexivity|]. split; [reflexivity|].
  unfold marks_of. rewrite !omap_app. cbn. now rewrite Hmarks.
Qed.

(** X13: the upgradeable wrapper settles authorizations exactly as pieUSD
    does.  For the same domain, state, time and arguments,
    [transferWithAuthorization] of the two contracts (in both signature
    encodings) either both revert with the same error or both return with
    the same balances, supply, registry and underlying ledger, announcing
    the same authorization; only the shape of the [AuthorizationUsed]
    event differs.  [cancelAuthorization] is the same function in both. *)
Theorem wrapper_settles_as_pieusd P env from to value validAfter validBefore nonce
    v r s signature w :
  same_outcome
    (PieWrappedERC20.transferWithAuthorization P env from to value
       validAfter validBefore nonce v r s w)
    (PieUSD.transferWithAuthorization P env from to value
       validAfter validBefore nonce v r s w) /\
  same_outcome
    (PieWrappedERC20.transferWithAuthorization_sig P env from to value
       validAfter validBefore nonce signature w)
    (PieUSD.transferWithAuthorization_sig P env from to value
       validAfter validBefore nonce signature w) /\
  PieWrappedERC20.cancelAuthorization P env from nonce v r s w =
  PieUSD.cancelAuthorization P env from nonce v r s w.
Proof.
  split; [|split].
  - rewrite transferWithAuthorization_eq, legacy_transferWithAuthorization_eq.
    apply guarded_same, check_signer_same, settle_same. reflexivity.
  - rewrite transferWithAuthorization_sig_eq, legacy_transferWithAuthorization_sig_eq.
    apply guarded_same. unfold check_signer_sig.
    destruct (_ =? 65)%nat; [|reflexivity].
    apply check_signer_same, settle_same. reflexivity.
  - now rewrite cancelAuthorization_eq, legacy_cancelAuthorization_eq.
Qed.

(** ** Wrap, pay, unwrap *)

Lemma registry_deposited P env amount w :
  _authorizationStates (pie (deposited P env amount w)) = _authorizationStates (pie w).
Proof. unfold deposited, allowance_spent. now destruct (_ =? _). Qed.

Lemma settle_ok used from to value nonce w :
  from <> 0 -> to <> 0 -> value <= balanceOf w from ->
  settle used from to value nonce w = Ok tt (settled used w from to value nonce).
Proof.
  intros Hfrom Hto Hheld. unfold settle.
  apply Z.eqb_neq in Hfrom, Hto. apply Z.ltb_ge in Hheld.
  now rewrite Hfrom, Hto, Hheld.
Qed.

Lemma guarded_ok env from nonce validAfter validBefore (k : M unit) w :
  validAfter <= block_timestamp env <= validBefore ->
  authorizationState from nonce w = false ->
  guarded env from nonce validAfter validBefore k w = k w.
Proof.
  intros [Hafter Hbefore] Hunused. unfold guarded.
  apply Z.ltb_ge in Hafter, Hbefore. now rewrite Hafter, Hbefore, Hunused.
Qed.

(** X14: the payment flow end to end.  Over a plain underlying token, a
    payer who wraps [x], signs an authorization of [x] to a payee, and a
    payee who unwraps [x] once anybody has submitted the authorization
    inside its window: the three calls go through in that order, [x]
    underlying tokens have gone from the payer to the payee, and the
    wrapped balances, the supply and the reserve are back where they
    were, with the nonce consumed. *)
Theorem wrap_pay_unwrap P envD envT envR payer payee x validAfter validBefore nonce
    v r s w :
  ledger_sound w -> token_typed w -> _status (pie w) = NOT_ENTERED ->
  msg_sender envD = payer -> msg_sender envR = payee ->
  payer <> 0 -> payee <> 0 -> self P <> 0 ->
  payer <> self P -> payee <> self P -> payer <> payee ->
  0 < x ->
  x <= token_balance w payer ->
  x <= StandardToken.allowance (usd w) payer (self P) ->
  token_balance w (self P) + x < UINT256_MOD ->
  token_balance w payee + x < UINT256_MOD ->
  totalSupply w + x < UINT256_MOD ->
  validAfter <= block_timestamp envT <= validBefore ->
  authorizationState payer nonce w = false ->
  signature_ok P
    (transfer_hash P (TRANSFER_WITH_AUTHORIZATION_TYPEHASH P)
       payer payee x validAfter validBefore nonce) v r s payer = true ->
  exists w1 w2 w3,
    PieWrappedERC20.deposit P StandardToken.token envD x w = Ok tt w1 /\
    PieWrappedERC20.transferWithAuthorization P envT payer payee x
      validAfter validBefore nonce v r s w1 = Ok tt w2 /\
    PieWrappedERC20.redeem P StandardToken.token envR x w2 = Ok tt w3 /\
    token_balance w3 payer = token_balance w payer - x /\
    token_balance w3 payee = token_balance w payee + x /\
    token_balance w3 (self P) = token_balance w (self P) /\
    balanceOf w3 payer = balanceOf w payer /\
    balanceOf w3 payee = balanceOf w payee /\
    totalSupply w3 = totalSupply w /\
    authorizationState payer nonce w3 = true.
Proof.
  intros Hsound Htyped Hstatus HenvD HenvR Hpayer Hpayee Hself Hps Hes Hpe Hpos
         Hheld Hallowed Hreserve Hcredit Hroom Hwindow Hunused Hsig.
  destruct (ledger_sound_balance w payer Hsound) as [[Hp0 Hp1] Hmax].
  destruct (ledger_sound_balance w payee Hsound) as [[He0 He1] _].
  pose proof (token_typed_balance w payer Htyped) as Htp.
  pose proof (token_typed_balance w payee Htyped) as Hte.
  pose proof (token_typed_balance w (self P) Htyped) as Hts.
  unfold is_uint256 in Htp, Hte, Hts.
  (* the deposit *)
  set (w1 := deposited P envD x w).
  assert (Hdeposit : PieWrappedERC20.deposit P StandardToken.token envD x w = Ok tt w1).
  { apply deposit_ok; cbn zeta; rewrite ?HenvD; auto; try lia.
    rewrite Hstatus. unfold NOT_ENTERED, ENTERED. lia. }
  assert (Ht1 : forall a, token_balance w1 a =
                          token_balance (token_moved w payer (self P) x) a).
  { intros a. destruct (deposited_observed P envD x w a) as (Ht & _).
    cbn zeta in Ht. now rewrite HenvD in Ht. }
  assert (Hb1 : forall a, balanceOf w1 a =
                          if decide (payer = a) then balanceOf w payer + x
                          else balanceOf w a).
  { intros a. destruct (deposited_observed P envD x w a) as (_ & Hb & _).
    cbn zeta in Hb. rewrite HenvD in Hb. fold w1 in Hb. rewrite Hb.
    case_decide; [|reflexivity]. apply Z.mod_small. lia. }
  destruct (deposited_observed P envD x w payer) as (_ & _ & Hs1 & Hst1).
  cbn zeta in Hs1, Hst1. fold w1 in Hs1, Hst1.
  assert (Hsound1 : ledger_sound w1).
  { apply (exec_keeps_ledger_sound P envD (PieWrappedERC20.CallDeposit x) w w1);
      [cbn; lia|exact Hsound|exact Hdeposit]. }
  assert (Hunused1 : authorizationState payer nonce w1 = false).
  { unfold authorizationState, authorization_in, w1.
    rewrite registry_deposited. exact Hunused. }
  (* the authorized transfer *)
  set (used := AuthorizationUsed payer payee x nonce).
  set (w2 := settled used w1 payer payee x nonce).
  assert (Hheld1 : x <= balanceOf w1 payer).
  { rewrite Hb1, decide_True by reflexivity. lia. }
  assert (Htransfer : PieWrappedERC20.transferWithAuthorization P envT payer payee x
                        validAfter validBefore nonce v r s w1 = Ok tt w2).
  { rewrite transferWithAuthorization_eq.
    rewrite guarded_ok by assumption.
    rewrite check_signer_ok by exact Hsig.
    now apply settle_ok. }
  destruct (settled_changes used w1 payer payee x nonce)
    as (Hmark & _ & Hmove & _ & _ & Hs2 & Husd2).
  cbn zeta in Hmark, Hmove, Hs2, Husd2. fold w2 in Hmark, Hmove, Hs2, Husd2.
  destruct (Hmove Hpe) as (Hb2p & _ & Hb2e).
  rewrite Hb1, decide_True in Hb2p by reflexivity.
  rewrite Hb1, decide_False in Hb2e by exact Hpe.
  specialize (Hb2e ltac:(lia)).
  assert (Ht2 : forall a, token_balance w2 a = token_balance w1 a).
  { intros a. unfold token_balance. now rewrite Husd2. }
  (* the redemption *)
  set (w3 := redeemed P envR x w2).
  assert (Hredeem : PieWrappedERC20.redeem P StandardToken.token envR x w2 = Ok tt w3).
  { assert (Hreleased : _status (pie w2) <> ENTERED).
    { change (_status (pie w2)) with (_status (pie w1)). rewrite Hst1.
      unfold NOT_ENTERED, ENTERED. lia. }
    assert (Hbacking : x <= token_balance w2 (self P)).
    { rewrite Ht2, Ht1, token_balance_moved.
      rewrite decide_True by reflexivity. rewrite decide_False by exact Hps.
      rewrite Z.mod_small by lia. lia. }
    apply redeem_ok; cbn zeta; rewrite ?HenvR; auto; lia. }
  assert (Ht3 : forall a, token_balance w3 a =
                          token_balance (token_moved w2 (self P) payee x) a).
  { intros a. destruct (redeemed_observed P envR x w2 a) as (Ht & _).
    cbn zeta in Ht. now rewrite HenvR in Ht. }
  assert (Hb3 : forall a, balanceOf w3 a =
                          if decide (payee = a) then balanceOf w2 payee - x
                          else balanceOf w2 a).
  { intros a. destruct (redeemed_observed P envR x w2 a) as (_ & Hb & _).
    cbn zeta in Hb. now rewrite HenvR in Hb. }
  destruct (redeemed_observed P envR x w2 payer) as (_ & _ & Hs3).
  cbn zeta in Hs3. fold w3 in Hs3.
  exists w1, w2, w3.
  split; [exact Hdeposit|]. split; [exact Htransfer|]. split; [exact Hredeem|].
  split.
  { rewrite Ht3, token_balance_moved.
    rewrite decide_False by congruence. rewrite decide_False by congruence.
    rewrite Ht2, Ht1, token_balance_moved.
    rewrite decide_False by congruence. now rewrite decide_True by reflexivity. }
  split.
  { rewrite Ht3, token_balance_moved.
    rewrite decide_True by reflexivity. rewrite decide_False by congruence.
    rewrite Ht2, Ht1, token_balance_moved.
    rewrite decide_False by congruence. rewrite decide_False by congruence.
    apply Z.mod_small. lia. }
  split.
  { rewrite Ht3, token_balance_moved.
    rewrite decide_False by congruence. rewrite decide_True by reflexivity.
    rewrite Ht2, Ht1, token_balance_moved.
    rewrite decide_True by reflexivity. rewrite decide_False by exact Hps.
    rewrite Z.mod_small by lia. lia. }
  split.
  { rewrite Hb3, decide_False by congruence. rewrite Hb2p. lia. }
  split.
  { rewrite Hb3, decide_True by reflexivity. rewrite Hb2e. lia. }
  split.
  { rewrite Hs3, Hs2, Hs1.
    replace (totalSupply w + x - x) with (totalSupply w) by lia.
    apply Z.mod_small. lia. }
  exact Hmark.
Qed.

Lemma wrap_pay_unwrap_witness :
  exists w1 w2 w3,
    PieWrappedERC20.deposit Demo.platform StandardToken.token
      (Demo.at_time Demo.alice 5) 10 Demo.world0 = Ok tt w1 /\
    PieWrappedERC20.transferWithAuthorization Demo.platform (Demo.at_time Demo.carol 6)
      Demo.alice Demo.bob 10 0 10 77 27 Demo.alice DemoRuns.digest77 w1 = Ok tt w2 /\
    PieWrappedERC20.redeem Demo.platform StandardToken.token
      (Demo.at_time Demo.bob 7) 10 w2 = Ok tt w3 /\
    token_balance w3 Demo.alice = token_balance Demo.world0 Demo.alice - 10 /\
    token_balance w3 Demo.bob = token_balance Demo.world0 Demo.bob + 10 /\
    token_balance w3 (self Demo.platform) = token_balance Demo.world0 (self Demo.platform) /\
    balanceOf w3 Demo.alice = balanceOf Demo.world0 Demo.alice /\
    balanceOf w3 Demo.bob = balanceOf Demo.world0 Demo.bob /\
    totalSupply w3 = totalSupply Demo.world0 /\
    authorizationState Demo.alice 77 w3 = true.
Proof.
  apply (wrap_pay_unwrap Demo.platform (Demo.at_time Demo.alice 5)
           (Demo.at_time Demo.carol 6) (Demo.at_time Demo.bob 7)
           Demo.alice Demo.bob 10 0 10 77 27 Demo.alice DemoRuns.digest77 Demo.world0).
  - exact world0_ledger_sound.
  - apply world0_solvent.
  - reflexivity.
  - reflexivity.
  - reflexivity.
  - vm_compute. discriminate.
  - vm_compute. discriminate.
  - vm_compute. discriminate.
  - vm_compute. discriminate.
  - vm_compute. discriminate.
  - vm_compute. discriminate.
  - lia.
  - vm_compute. discriminate.
  - vm_compute. discriminate.
  - vm_compute. reflexivity.
  - vm_compute. reflexivity.
  - vm_compute. reflexivity.
  - cbn. lia.
  - reflexivity.
  - vm_compute. reflexivity.
Defined.

(** ** A deposit that is not delivered *)

(** X15: the wrapper refuses the deposit that pieUSD mints unbacked.
    Take any underlying token whose [transferFrom] answers [true] while
    the reserve grows by something else than the amount (a fee, or nothing
    at all).  pieUSD believes the answer and mints the full amount; the
    wrapper, which compares the reserve before and after the pull,
    reverts with [TransferAmountMismatch] (or with the arithmetic panic
    when the reserve shrank) and mints nothing. *)
Theorem undelivered_deposit_refused P T env amount w wC wC' before after :
  let caller := msg_sender env in
  0 < amount -> caller <> 0 -> _status (pie w) <> ENTERED ->
  ierc20_transferFrom T (self P) caller (self P) amount w = Ok (Some true) wC ->
  totalSupply wC + amount < UINT256_MOD ->
  ierc20_balanceOf T (self P) (pull_point w) = Some before ->
  ierc20_transferFrom T (self P) caller (self P) amount (pull_point w) =
    Ok (Some true) wC' ->
  ierc20_balanceOf T (self P) wC' = Some after ->
  after - before <> amount ->
  PieUSD.deposit P T env amount w =
    Ok tt (logged (minted wC caller amount) (Deposit caller amount)) /\
  totalSupply (logged (minted wC caller amount) (Deposit caller amount)) =
    totalSupply wC + amount /\
  exists e,
    PieWrappedERC20.deposit P T env amount w = Revert e /\
    (e = TransferAmountMismatch \/ e = Panic 0x11).
Proof.
  cbn zeta. intros Hpos Hcaller Hstatus Hpull Hroom Hbefore Hpull' Hafter Hshort.
  split; [|split; [reflexivity|]].
  - rewrite legacy_deposit_eq. cbn zeta.
    apply Z.ltb_lt in Hpos. rewrite Hpos. cbn [negb]. rewrite Hpull.
    apply Z.eqb_neq in Hcaller. rewrite Hcaller.
    apply Z.ltb_lt in Hroom. now rewrite Hroom.
  - rewrite deposit_eq.
    apply Z.eqb_neq in Hstatus. rewrite Hstatus.
    assert (Hzero : (amount =? 0) = false) by (apply Z.eqb_neq; lia).
    rewrite Hzero, Hbefore, Hpull'.
    unfold deposit_finish. unfold bind at 1. unfold bind at 1.
    unfold static_balanceOf. rewrite Hafter.
    unfold bind at 1. unfold checked_sub.
    destruct (after <? before); [eexists; split; [reflexivity|now right]|].
    cbn [ret]. unfold bind at 1.
    apply Z.eqb_neq in Hshort. rewrite Hshort. cbn [negb revert_if revert].
    eexists; split; [reflexivity|now left].
Qed.

Lemma undelivered_deposit_refused_witness :
  let env := Demo.at_time Demo.alice 5 in
  PieUSD.deposit Demo.platform IdleToken.token env 30 Demo.world0 =
    Ok tt (logged (minted Demo.world0 Demo.alice 30) (Deposit Demo.alice 30)) /\
  totalSupply (logged (minted Demo.world0 Demo.alice 30) (Deposit Demo.alice 30)) =
    totalSupply Demo.world0 + 30 /\
  exists e,
    PieWrappedERC20.deposit Demo.platform IdleToken.token env 30 Demo.world0 = Revert e /\
    (e = TransferAmountMismatch \/ e = Panic 0x11).
Proof.
  apply (undelivered_deposit_refused Demo.platform IdleToken.token
           (Demo.at_time Demo.alice 5) 30 Demo.world0 Demo.world0
           (pull_point Demo.world0) 100 100).
  - lia.
  - vm_compute. discriminate.
  - vm_compute. discriminate.
  - reflexivity.
  - vm_compute. reflexivity.
  - reflexivity.
  - reflexivity.
  - reflexivity.
  - lia.
Defined.
